(** * orca_core: the coordinate transform and calibration engine of OrcaHand

    A shallow embedding of [orca_core/core.py] (class [OrcaHand]) and the
    properties its specification states about it.

    Modelling conventions.
    - Positions, limits, ratios and ranges of motion are exact rationals
      ([Qc], canonical fractions, so that equality is Leibniz equality).
      Rounding of binary64 arithmetic is not modelled; the only non-finite
      value that exact arithmetic can produce, a numpy division by zero, is
      kept as an explicit [NotFinite] result.  An equality or an order
      between computed numbers is therefore a statement about the
      rationals: the binary64 value that the code computes can differ from
      the rational one by rounding, an ulp or so at the end of a range,
      and the mean of equal samples need not be the sample.  The
      statements that compare computed numbers say so.
    - A number that a caller passes to [_set_motor_pos] is a Python [int]
      or a [float] ([pynum]), and a numpy vector built from such numbers
      has the element type [int64] or [float64] ([dtype]): the in-place
      addition of the reported positions, which are floats, is refused on
      an [int64] vector.  The positions that the code computes itself and
      the step of [calibrate] are floats.
    - A Python [dict] is an insertion-ordered association list with unique
      keys ([dict_get], [dict_set]); the order matters for which exception
      is raised first and for which entry wins in a comprehension.
    - A numpy vector is a [list Qc]; subscripting follows Python: index [k]
      with [-n <= k < 0] counts from the end, anything outside [-n, n)
      raises [IndexError].
    - Exceptions are values of [exn]; code that talks to the motor
      transport or to the calibration file runs in the state-and-exception
      monad [M], whose state [World] survives a raised exception, so that
      what was written before a failure can be inspected. *)

From Stdlib Require Import ZArith QArith Qcanon String List Lia.
From stdpp Require Import base decidable option list strings numbers pretty.

Set Default Proof Using "Type".

(** ** Exceptions and the two monads *)

Inductive exn : Type :=
  | ValueError (msg : string)
  | AssertionError (msg : string)
  | KeyError
  | IndexError
  | ZeroDivisionError
  | UFuncTypeError.

Definition result (A : Type) : Type := exn + A.

Definition Ok {A} (a : A) : result A := inr a.
Definition Raise {A} (e : exn) : result A := inl e.

Definition rbind {A B} (r : result A) (k : A -> result B) : result B :=
  match r with
  | inl e => inl e
  | inr a => k a
  end.

Declare Scope res_scope.
Delimit Scope res_scope with res.
Notation "'let*' x ':=' r 'in' k" := (rbind r (fun x => k))
  (at level 10, x name, r at level 100, k at level 200, only parsing)
  : res_scope.

(** ** Python dictionaries *)

Definition dict (K V : Type) : Type := list (K * V).

Section Dict.
Context {K V : Type} `{EqDecision K}.

(** [d.get(k)] *)
Fixpoint dict_get (k : K) (d : dict K V) : option V :=
  match d with
  | [] => None
  | (k', v) :: d' => if decide (k = k') then Some v else dict_get k d'
  end.

(** [d[k] = v]: an existing key keeps its place, a new key goes last. *)
Fixpoint dict_set (k : K) (v : V) (d : dict K V) : dict K V :=
  match d with
  | [] => [(k, v)]
  | (k', v') :: d' =>
      if decide (k = k') then (k, v) :: d' else (k', v') :: dict_set k v d'
  end.

(** [d[k]], raising [KeyError] on a missing key. *)
Definition dict_item (k : K) (d : dict K V) : result V :=
  match dict_get k d with
  | Some v => Ok v
  | None => Raise KeyError
  end.

Definition dict_keys (d : dict K V) : list K := d.*1.
Definition dict_values (d : dict K V) : list V := d.*2.

(** [k in d] *)
Definition dict_mem (k : K) (d : dict K V) : bool :=
  bool_decide (k ∈ dict_keys d).

(** The invariant of every Python dict: no key occurs twice. *)
Definition dict_wf (d : dict K V) : Prop := NoDup (dict_keys d).
End Dict.

(** ** Sequences indexed the Python way *)

(** The position that subscript [k] denotes in a sequence of length [n]. *)
Definition py_index (n : nat) (k : Z) : option nat :=
  if decide (0 ≤ k)%Z then
    if decide (k < Z.of_nat n)%Z then Some (Z.to_nat k) else None
  else
    if decide (- Z.of_nat n ≤ k)%Z then Some (Z.to_nat (Z.of_nat n + k)) else None.

(** [a[k]] *)
Definition seq_item {A} (a : list A) (k : Z) : result A :=
  match py_index (length a) k with
  | Some i => match a !! i with Some x => Ok x | None => Raise IndexError end
  | None => Raise IndexError
  end.

(** [a[k] = x] *)
Definition seq_store {A} (a : list A) (k : Z) (x : A) : result (list A) :=
  match py_index (length a) k with
  | Some i => Ok (<[i := x]> a)
  | None => Raise IndexError
  end.

(** ** The hand and its environment *)

(** One step of [calib_sequence]: the dictionary under its ["joints"] key,
    from joint name to direction tag. *)
Record calib_step : Type := { joints : dict string string }.

(** The attributes of an [OrcaHand] object that the modelled methods use. *)
Record OrcaHand : Type := {
  max_current : Z;
  control_mode : string;
  calib_current : Z;
  calib_step_size : Qc;
  calib_threshold : Qc;
  calib_num_stable : nat;
  calib_sequence : list calib_step;
  calibrated : bool;
  motor_limits : dict Z (option Qc * option Qc);
  joint_to_motor_ratios : dict Z Qc;
  motor_ids : list Z;
  joint_ids : list string;
  joint_to_motor_map : dict string Z;
  motor_to_joint_map : dict Z string;
  joint_roms : dict string (Qc * Qc);
}.

Definition set_calibrated (b : bool) (self : OrcaHand) : OrcaHand :=
  {| max_current := max_current self; control_mode := control_mode self;
     calib_current := calib_current self;
     calib_step_size := calib_step_size self;
     calib_threshold := calib_threshold self;
     calib_num_stable := calib_num_stable self;
     calib_sequence := calib_sequence self;
     calibrated := b;
     motor_limits := motor_limits self;
     joint_to_motor_ratios := joint_to_motor_ratios self;
     motor_ids := motor_ids self; joint_ids := joint_ids self;
     joint_to_motor_map := joint_to_motor_map self;
     motor_to_joint_map := motor_to_joint_map self;
     joint_roms := joint_roms self |}.

Definition set_motor_limits (l : dict Z (option Qc * option Qc))
    (self : OrcaHand) : OrcaHand :=
  {| max_current := max_current self; control_mode := control_mode self;
     calib_current := calib_current self;
     calib_step_size := calib_step_size self;
     calib_threshold := calib_threshold self;
     calib_num_stable := calib_num_stable self;
     calib_sequence := calib_sequence self;
     calibrated := calibrated self;
     motor_limits := l;
     joint_to_motor_ratios := joint_to_motor_ratios self;
     motor_ids := motor_ids self; joint_ids := joint_ids self;
     joint_to_motor_map := joint_to_motor_map self;
     motor_to_joint_map := motor_to_joint_map self;
     joint_roms := joint_roms self |}.

Definition set_ratios (r : dict Z Qc) (self : OrcaHand) : OrcaHand :=
  {| max_current := max_current self; control_mode := control_mode self;
     calib_current := calib_current self;
     calib_step_size := calib_step_size self;
     calib_threshold := calib_threshold self;
     calib_num_stable := calib_num_stable self;
     calib_sequence := calib_sequence self;
     calibrated := calibrated self;
     motor_limits := motor_limits self;
     joint_to_motor_ratios := r;
     motor_ids := motor_ids self; joint_ids := joint_ids self;
     joint_to_motor_map := joint_to_motor_map self;
     motor_to_joint_map := motor_to_joint_map self;
     joint_roms := joint_roms self |}.

(** What [update_yaml] can store under a key of the calibration file. *)
Inductive yaml_value : Type :=
  | YBool (b : bool)
  | YLimits (l : dict Z (option Qc * option Qc))
  | YRatios (r : dict Z Qc).

(** The environment of a connected hand.  [sensed k] is the position vector
    that the transport reports on the [k]-th call of [read_pos_vel_cur];
    any behaviour of the motors is some such function.  [writes] logs the
    calls of [write_desired_pos], oldest first; [calib_file] is the content
    of [calibration.yaml]. *)
Record World : Type := {
  sensed : nat -> list Qc;
  reads : nat;
  writes : list (list Z * list Qc);
  calib_file : dict string yaml_value;
}.

Definition M (A : Type) : Type := World -> result A * World.

Definition mret {A} (a : A) : M A := fun w => (Ok a, w).
Definition mraise {A} (e : exn) : M A := fun w => (Raise e, w).
Definition mlift {A} (r : result A) : M A := fun w => (r, w).
Definition mbind {A B} (m : M A) (k : A -> M B) : M B :=
  fun w => match m w with
           | (inl e, w') => (inl e, w')
           | (inr a, w') => k a w'
           end.

Declare Scope m_scope.
Delimit Scope m_scope with M.
Notation "'let*' x ':=' m 'in' k" := (mbind m (fun x => k))
  (at level 10, x name, m at level 100, k at level 200, only parsing)
  : m_scope.

(** Modelled from the spec: the transport ([hardware/dynamixel_client.py])
    is not part of the sources at hand; section 6 gives
    `read_pos_vel_cur() -> (positions, velocities, currents)`, each a
    sequence aligned to the order of [motor_ids].  This is
    [self._dxl_client.read_pos_vel_cur()[0]]; nothing in the model forces
    the length of what the transport reports. *)
Definition read_pos : M (list Qc) :=
  fun w => (Ok (sensed w (reads w)),
            {| sensed := sensed w; reads := S (reads w);
               writes := writes w; calib_file := calib_file w |}).

(** Modelled from the spec: `write_desired_pos(motor_ids, positions)` of
    the same transport, recorded in the log and assumed not to fail. *)
Definition write_desired_pos (ids : list Z) (positions : list Qc) : M unit :=
  fun w => (Ok tt,
            {| sensed := sensed w; reads := reads w;
               writes := writes w ++ [(ids, positions)];
               calib_file := calib_file w |}).

(** Modelled from the spec: [update_yaml] of [utils/yaml_utils.py] is not
    part of the sources at hand; section 6 describes it as
    `update_key(path, key, value)` (single-key upsert, preserving other
    keys).  Every call in [core.py] targets [self.calib_path]. *)
Definition update_yaml (key : string) (value : yaml_value) : M unit :=
  fun w => (Ok tt,
            {| sensed := sensed w; reads := reads w; writes := writes w;
               calib_file := dict_set key value (calib_file w) |}).

(** [get_motor_pos] *)
Definition get_motor_pos : M (list Qc) := read_pos.

(** ** The coordinate transform *)

(** A numpy scalar in exact arithmetic: a rational, or the [inf]/[nan] that
    numpy returns (with a warning, not an exception) for a division by
    zero. *)
Inductive npfloat : Type :=
  | Finite (x : Qc)
  | NotFinite.

(** [a / b] for a numpy scalar [a]: the exact quotient, where binary64
    rounds. *)
Definition np_div (a b : Qc) : npfloat :=
  if decide (b = 0%Qc) then NotFinite else Finite (a / b)%Qc.

(** [a + b] for a numpy scalar [b] *)
Definition np_radd (a : Qc) (b : npfloat) : npfloat :=
  match b with
  | Finite y => Finite (a + y)%Qc
  | NotFinite => NotFinite
  end.

Definition is_None {A} (o : option A) : bool :=
  match o with None => true | Some _ => false end.

(** [any(limit is None for limit in motor_limit)] on a limit pair *)
Definition any_limit_None (motor_limit : option Qc * option Qc) : bool :=
  is_None motor_limit.1 || is_None motor_limit.2.

(** The value that [_motor_to_joint_pos] stores for a calibrated motor:
    [joint_roms[joint_name][0] + (pos - motor_limits[motor_id][0]) /
    joint_to_motor_ratios[motor_id]]. *)
Definition motor_to_joint_value (self : OrcaHand) (motor_id : Z)
    (joint_name : option string) (lo : Qc) (pos : Qc) : result npfloat :=
  (let* rom := match joint_name with
          | Some j => dict_item j (joint_roms self)
          | None => Raise KeyError
          end in
   let* ratio := dict_item motor_id (joint_to_motor_ratios self) in
   Ok (np_radd rom.1 (np_div (pos - lo)%Qc ratio)))%res.

(** The loop of [_motor_to_joint_pos]:
    [for motor_id, pos in enumerate(motor_pos, start=1)]. *)
Fixpoint motor_to_joint_loop (self : OrcaHand) (motor_id : Z)
    (motor_pos : list Qc) (joint_pos : dict (option string) (option npfloat))
    : result (dict (option string) (option npfloat)) :=
  match motor_pos with
  | [] => Ok joint_pos
  | pos :: rest =>
      let joint_name := dict_get motor_id (motor_to_joint_map self) in
      (let* limit := dict_item motor_id (motor_limits self) in
       match limit with
       | (Some lo, Some _) =>
           let* v := motor_to_joint_value self motor_id joint_name lo pos in
           motor_to_joint_loop self (motor_id + 1) rest
             (dict_set joint_name (Some v) joint_pos)
       | _ =>
           motor_to_joint_loop self (motor_id + 1) rest
             (dict_set joint_name None joint_pos)
       end)%res
  end.

Definition _motor_to_joint_pos (self : OrcaHand) (motor_pos : list Qc)
    : result (dict (option string) (option npfloat)) :=
  motor_to_joint_loop self 1 motor_pos [].

Definition not_calibrated_msg (motor_id : Z) (joint_name : string) : string :=
  "Motor " +:+ pretty motor_id +:+ " corresponding to joint " +:+ joint_name
  +:+ " is not calibrated.".

(** The loop of [_joint_to_motor_pos]: [for joint_name, pos in
    joint_pos.items()], updating the vector [motor_pos] in place. *)
Fixpoint joint_to_motor_loop (self : OrcaHand) (joint_pos : dict string Qc)
    (motor_pos : list Qc) : result (list Qc) :=
  match joint_pos with
  | [] => Ok motor_pos
  | (joint_name, pos) :: rest =>
      match dict_get joint_name (joint_to_motor_map self) with
      | None => joint_to_motor_loop self rest motor_pos
      | Some motor_id =>
          (let* limit := dict_item motor_id (motor_limits self) in
           match limit with
           | (Some lo, Some _) =>
               let* rom := dict_item joint_name (joint_roms self) in
               let* ratio := dict_item motor_id (joint_to_motor_ratios self) in
               let* motor_pos' := seq_store motor_pos (motor_id - 1)
                               (lo + (pos - rom.1) * ratio)%Qc in
               joint_to_motor_loop self rest motor_pos'
           | _ => Raise (ValueError (not_calibrated_msg motor_id joint_name))
           end)%res
      end
  end.

Definition _joint_to_motor_pos (self : OrcaHand) (joint_pos : dict string Qc)
    : M (list Qc) :=
  (let* motor_pos := get_motor_pos in
   mlift (joint_to_motor_loop self joint_pos motor_pos))%M.

(** A Python number as a caller can pass it, an [int] or a [float]; the
    positions that the transport reports are floats. *)
Inductive pynum : Type :=
  | PyInt (n : Z)
  | PyFloat (x : Qc).

Definition num_value (v : pynum) : Qc :=
  match v with
  | PyInt n => Qc_of_Z n
  | PyFloat x => x
  end.

Definition is_int (v : pynum) : bool :=
  match v with
  | PyInt _ => true
  | PyFloat _ => false
  end.

(** The element type of a numpy vector, as far as this code can tell the
    difference. *)
Inductive dtype : Type :=
  | Int64
  | Float64.

(** The element type that [np.array] gives to a sequence of numbers:
    [int64] when it has an element and every element is an [int],
    [float64] otherwise, also for the empty sequence. *)
Definition array_dtype (l : list pynum) : dtype :=
  match l with
  | [] => Float64
  | _ :: _ => if forallb is_int l then Int64 else Float64
  end.

(** The three argument types that [_set_motor_pos] accepts; an array
    comes with its element type. *)
Inductive desired_pos : Type :=
  | PosDict (d : dict Z pynum)
  | PosArray (dt : dtype) (a : list Qc)
  | PosList (l : list pynum).

Definition count_mismatch_msg : string :=
  "Number of motor positions do not match the number of motors.".

(** The list comprehension of the [dict] branch.  The default argument of
    [desired_pos.get] is evaluated before the call, so the subscript
    [current_pos[motor_id - 1]] is computed for every motor when the move
    is absolute, whether or not the motor is mentioned.  The default of a
    relative move is the [int] literal [0]. *)
Fixpoint dict_positions (desired : dict Z pynum) (rel_to_current : bool)
    (current_pos : list Qc) (ids : list Z) : result (list pynum) :=
  match ids with
  | [] => Ok []
  | motor_id :: ids' =>
      (let* default := (if rel_to_current then Ok (PyInt 0)
                   else let* x := seq_item current_pos (motor_id - 1) in
                        Ok (PyFloat x)) in
       let* tl := dict_positions desired rel_to_current current_pos ids' in
       Ok (match dict_get motor_id desired with
           | Some x => x
           | None => default
           end :: tl))%res
  end.

(** [a += b] on one-dimensional numpy vectors, [b] a vector of floats.
    An [int64] vector refuses the float result of the sum ([UFuncTypeError],
    raised when the types are resolved, before the shapes are looked at).
    On a [float64] vector, equal lengths add elementwise, a one-element
    [b] is broadcast, anything else is refused. *)
Definition np_iadd (dt : dtype) (a b : list Qc) : result (list Qc) :=
  match dt with
  | Int64 => Raise UFuncTypeError
  | Float64 =>
      if decide (length a = length b) then Ok (zip_with Qcplus a b)
      else match b with
           | [x] => Ok ((fun y => (y + x)%Qc) <$> a)
           | _ => Raise (ValueError "operands could not be broadcast together")
           end
  end.

(** The vector that the three branches of [_set_motor_pos] build, with
    its element type. *)
Definition desired_array (self : OrcaHand) (desired : desired_pos)
    (rel_to_current : bool) (current_pos : list Qc)
    : result (dtype * list Qc) :=
  match desired with
  | PosDict d =>
      (let* entries := dict_positions d rel_to_current current_pos
                         (motor_ids self) in
       Ok (array_dtype entries, num_value <$> entries))%res
  | PosArray dt a =>
      if decide (length a = length (motor_ids self)) then Ok (dt, a)
      else Raise (AssertionError count_mismatch_msg)
  | PosList l =>
      if decide (length l = length (motor_ids self))
      then Ok (array_dtype l, num_value <$> l)
      else Raise (AssertionError count_mismatch_msg)
  end.

Definition _set_motor_pos (self : OrcaHand) (desired : desired_pos)
    (rel_to_current : bool) : M unit :=
  (let* current_pos := get_motor_pos in
   let* motor_pos_array := mlift
     (desired_array self desired rel_to_current current_pos) in
   let* motor_pos_array := mlift
     (if rel_to_current
      then np_iadd motor_pos_array.1 motor_pos_array.2 current_pos
      else Ok motor_pos_array.2) in
   write_desired_pos (motor_ids self) motor_pos_array)%M.

(** [get_joint_pos] *)
Definition get_joint_pos (self : OrcaHand)
    : M (dict (option string) (option npfloat)) :=
  (let* motor_pos := get_motor_pos in
   mlift (_motor_to_joint_pos self motor_pos))%M.

(** [set_joint_pos]; the argument is a [dict] by its type, so the
    [isinstance] test of the source always passes.  The vector handed on
    is the vector of floats that the transport reported, updated in
    place. *)
Definition set_joint_pos (self : OrcaHand) (joint_pos : dict string Qc)
    : M unit :=
  (let* motor_pos := _joint_to_motor_pos self joint_pos in
   _set_motor_pos self (PosArray Float64 motor_pos) false)%M.

(** [is_calibrated]: the first incomplete pair of the table returns
    [False]. *)
Fixpoint is_calibrated_loop (values : list (option Qc * option Qc)) : bool :=
  match values with
  | [] => true
  | motor_limit :: rest =>
      if any_limit_None motor_limit then false else is_calibrated_loop rest
  end.

Definition is_calibrated (self : OrcaHand) : bool :=
  is_calibrated_loop (dict_values (motor_limits self)).

(** ** Construction and [_sanity_check] *)

Definition control_modes : list string :=
  ["current_position"; "current_velocity"; "position"; "multi_turn_position";
   "current_based_position"].

Definition count_msg : string := "Number of motor IDs and joints do not match.".

(** [for joint, motor_id in self.joint_to_motor_map.items()] *)
Fixpoint check_joint_to_motor_map (self : OrcaHand) (items : dict string Z)
    : result unit :=
  match items with
  | [] => Ok tt
  | (joint, motor_id) :: rest =>
      if negb (bool_decide (joint ∈ joint_ids self)) then
        Raise (ValueError ("Joint " +:+ joint +:+ " is not defined."))
      else if negb (dict_mem joint (joint_roms self)) then
        Raise (ValueError ("ROM for joint " +:+ joint +:+ " is not defined."))
      else if negb (bool_decide (motor_id ∈ motor_ids self)) then
        Raise (ValueError ("Motor ID " +:+ pretty motor_id
                           +:+ " is not in the motor IDs list."))
      else check_joint_to_motor_map self rest
  end.

(** [for joint, rom in self.joint_roms.items()] *)
Fixpoint check_joint_roms (self : OrcaHand) (items : dict string (Qc * Qc))
    : result unit :=
  match items with
  | [] => Ok tt
  | (joint, rom) :: rest =>
      if bool_decide (rom.2 - rom.1 ≤ 0)%Qc then
        Raise (ValueError ("ROM for joint " +:+ joint +:+ " is not valid."))
      else if negb (bool_decide (joint ∈ joint_ids self)) then
        Raise (ValueError ("Joint " +:+ joint +:+ " in ROMs is not defined."))
      else check_joint_roms self rest
  end.

(** [for joint, direction in step["joints"].items()] *)
Fixpoint check_step (self : OrcaHand) (items : dict string string)
    : result unit :=
  match items with
  | [] => Ok tt
  | (joint, direction) :: rest =>
      if negb (bool_decide (joint ∈ joint_ids self)) then
        Raise (ValueError ("Joint " +:+ joint +:+ " is not defined."))
      else if negb (bool_decide (direction ∈ ["flex"; "extend"])) then
        Raise (ValueError ("Invalid direction for joint " +:+ joint +:+ "."))
      else check_step self rest
  end.

(** [for step in self.calib_sequence] *)
Fixpoint check_calib_sequence (self : OrcaHand) (steps : list calib_step)
    : result unit :=
  match steps with
  | [] => Ok tt
  | step :: rest =>
      (let* _ := check_step self (joints step) in
       check_calib_sequence self rest)%res
  end.

(** The checks of [_sanity_check] that can raise, in source order. *)
Definition sanity_checks (self : OrcaHand) : result unit :=
  if negb (bool_decide (length (motor_ids self) = length (joint_ids self)))
  then Raise (ValueError count_msg)
  else if negb (bool_decide (length (motor_ids self)
                             = length (joint_to_motor_map self)))
  then Raise (ValueError count_msg)
  else if negb (bool_decide (control_mode self ∈ control_modes))
  then Raise (ValueError "Invalid control mode.")
  else if bool_decide (max_current self < calib_current self)%Z
  then Raise (ValueError
                "Max current should be greater than the calibration current.")
  else
    (let* _ := check_joint_to_motor_map self (joint_to_motor_map self) in
     let* _ := check_joint_roms self (joint_roms self) in
     check_calib_sequence self (calib_sequence self))%res.

(** The last loop of [_sanity_check]: every incomplete limit pair clears
    the flag and rewrites it in the calibration file. *)
Fixpoint clear_calibrated_loop (self : OrcaHand)
    (values : list (option Qc * option Qc)) : M OrcaHand :=
  match values with
  | [] => mret self
  | motor_limit :: rest =>
      if any_limit_None motor_limit then
        (let* _ := update_yaml "calibrated" (YBool false) in
         clear_calibrated_loop (set_calibrated false self) rest)%M
      else clear_calibrated_loop self rest
  end.

(** [_sanity_check]; the object after the call is the result. *)
Definition _sanity_check (self : OrcaHand) : M OrcaHand :=
  (let* _ := mlift (sanity_checks self) in
   clear_calibrated_loop self (dict_values (motor_limits self)))%M.

(** The content of [config.yaml], defaults of [config.get] applied. *)
Record Config : Type := {
  cfg_max_current : Z;
  cfg_control_mode : string;
  cfg_calib_current : Z;
  cfg_calib_step_size : Qc;
  cfg_calib_threshold : Qc;
  cfg_calib_num_stable : nat;
  cfg_calib_sequence : list calib_step;
  cfg_motor_ids : list Z;
  cfg_joint_ids : list string;
  cfg_joint_to_motor_map : dict string Z;
  cfg_joint_roms : dict string (Qc * Qc);
}.

(** [{v: k for k, v in d.items()}] *)
Definition invert_map {K V} `{EqDecision V} (d : dict K V) : dict V K :=
  fold_left (fun acc kv => dict_set kv.2 kv.1 acc) d [].

(** [calib.get('calibrated', False)] and its two siblings *)
Definition calib_get_calibrated (calib : dict string yaml_value) : bool :=
  match dict_get "calibrated" calib with Some (YBool b) => b | _ => false end.

Definition calib_get_motor_limits (calib : dict string yaml_value)
    : dict Z (option Qc * option Qc) :=
  match dict_get "motor_limits" calib with Some (YLimits l) => l | _ => [] end.

Definition calib_get_ratios (calib : dict string yaml_value) : dict Z Qc :=
  match dict_get "joint_to_motor_ratios" calib with
  | Some (YRatios r) => r
  | _ => []
  end.

(** [OrcaHand.__init__]: load both files, derive the inverse map, check. *)
Definition __init__ (config : Config) : M OrcaHand :=
  fun w =>
    let calib := calib_file w in
    _sanity_check
      {| max_current := cfg_max_current config;
         control_mode := cfg_control_mode config;
         calib_current := cfg_calib_current config;
         calib_step_size := cfg_calib_step_size config;
         calib_threshold := cfg_calib_threshold config;
         calib_num_stable := cfg_calib_num_stable config;
         calib_sequence := cfg_calib_sequence config;
         calibrated := calib_get_calibrated calib;
         motor_limits := calib_get_motor_limits calib;
         joint_to_motor_ratios := calib_get_ratios calib;
         motor_ids := cfg_motor_ids config;
         joint_ids := cfg_joint_ids config;
         joint_to_motor_map := cfg_joint_to_motor_map config;
         motor_to_joint_map := invert_map (cfg_joint_to_motor_map config);
         joint_roms := cfg_joint_roms config |} w.

(** ** The calibration engine: sampling, stall detection, ratios

    The polling loop of [calibrate] is driven by the motors; what is
    embedded here is everything the loop computes from a sampled position
    vector.  The two logs [position_logs] and [current_log] are written and
    never read, and are left out. *)

(** [1 if direction == 'flex' else -1] *)
Definition direction_sign (direction : string) : Z :=
  if decide (direction = "flex") then 1%Z else (-1)%Z.

(** [deque(maxlen=n).append(x)]: the oldest sample leaves a full window. *)
Definition deque_append (maxlen : nat) (buf : list Qc) (x : Qc) : list Qc :=
  let buf' := buf ++ [x] in
  if decide (maxlen < length buf') then tail buf' else buf'.

Definition Qcabs (x : Qc) : Qc := if decide (0 ≤ x)%Qc then x else (- x)%Qc.

(** The relative tolerance that [np.allclose] uses when the caller passes
    none: [rtol=1e-05]. *)
Definition rtol : Qc := Q2Qc (1 # 100000).

(** [np.allclose(a, b, atol=atol)] for a scalar [b]:
    [|x - b| <= atol + rtol * |b|] for every [x] of [a]. *)
Definition np_allclose (a : list Qc) (b : Qc) (atol : Qc) : bool :=
  forallb (fun x => bool_decide (Qcabs (x - b) ≤ atol + rtol * Qcabs b)%Qc) a.

Definition Qcsum (a : list Qc) : Qc := foldr Qcplus 0%Qc a.

(** [float(np.mean(a))], as the exact mean; the source reaches it only
    after [a[0]] was read, hence with a non-empty [a].  In binary64 the
    mean of equal samples need not be the sample. *)
Definition np_mean (a : list Qc) : Qc :=
  (Qcsum a / Qc_of_Z (Z.of_nat (length a)))%Qc.

(** The dictionaries of one calibration step, and the table [motor_limits]
    that [calibrate] fills across steps. *)
Record calib_state : Type := {
  directions : dict Z Z;
  position_buffers : dict Z (list Qc);
  motor_reached_limit : dict Z bool;
  desired_increment : dict Z Qc;
  limits : dict Z (option Qc * option Qc);
}.

(** [motor_limits = {motor_id: [None, None] for motor_id in self.motor_ids}] *)
Definition empty_limits (self : OrcaHand) : dict Z (option Qc * option Qc) :=
  fold_left (fun acc motor_id => dict_set motor_id (None, None) acc)
    (motor_ids self) [].

(** The first loop of a step: [for joint, direction in
    step["joints"].items()]. *)
Fixpoint init_step (self : OrcaHand) (items : dict string string)
    (st : calib_state) : result calib_state :=
  match items with
  | [] => Ok st
  | (joint, direction) :: rest =>
      (let* motor_id := dict_item joint (joint_to_motor_map self) in
       init_step self rest
         {| directions :=
              dict_set motor_id (direction_sign direction) (directions st);
            position_buffers := dict_set motor_id [] (position_buffers st);
            motor_reached_limit :=
              dict_set motor_id false (motor_reached_limit st);
            desired_increment := desired_increment st;
            limits := limits st |})%res
  end.

(** [for motor_id, reached_limit in motor_reached_limit.items(): if not
    reached_limit: desired_increment[motor_id] = directions[motor_id] *
    self.calib_step_size] *)
Fixpoint plan_increments (self : OrcaHand) (dirs : dict Z Z)
    (items : dict Z bool) (incr : dict Z Qc) : result (dict Z Qc) :=
  match items with
  | [] => Ok incr
  | (motor_id, reached_limit) :: rest =>
      if reached_limit then plan_increments self dirs rest incr
      else
        (let* d := dict_item motor_id dirs in
         plan_increments self dirs rest
           (dict_set motor_id (Qc_of_Z d * calib_step_size self)%Qc incr))%res
  end.

(** The stall test of line 281: [len(buf) == self.calib_num_stable and
    np.allclose(buf, buf[0], atol=self.calib_threshold)]. *)
Definition at_limit (self : OrcaHand) (buf : list Qc) : result bool :=
  if decide (length buf = calib_num_stable self) then
    (let* first := seq_item buf 0 in
     Ok (np_allclose buf first (calib_threshold self)))%res
  else Ok false.

(** Storing the bound: [motor_limits[motor_id][1] = avg_limit] when the
    direction is [1], [motor_limits[motor_id][0] = avg_limit] when it is
    [-1]. *)
Definition record_limit (motor_id : Z) (d : Z) (avg_limit : Qc)
    (lims : dict Z (option Qc * option Qc))
    : result (dict Z (option Qc * option Qc)) :=
  (let* lims1 :=
     (if decide (d = 1%Z) then
        let* pair := dict_item motor_id lims in
        Ok (dict_set motor_id (pair.1, Some avg_limit) lims)
      else Ok lims) in
   if decide (d = (-1)%Z) then
     let* pair := dict_item motor_id lims1 in
     Ok (dict_set motor_id (Some avg_limit, pair.2) lims1)
   else Ok lims1)%res.

(** The body of the sampling loop (lines 275 to 288) for one motor. *)
Definition calib_observe (self : OrcaHand) (curr_pos : list Qc)
    (motor_id : Z) (st : calib_state) : result calib_state :=
  (let* reached := dict_item motor_id (motor_reached_limit st) in
   if reached : bool then Ok st
   else
     let* buf := dict_item motor_id (position_buffers st) in
     let* x := seq_item curr_pos (motor_id - 1) in
     let buf' := deque_append (calib_num_stable self) buf x in
     let buffers' := dict_set motor_id buf' (position_buffers st) in
     let* stable := at_limit self buf' in
     if stable : bool then
       let avg_limit := np_mean buf' in
       let* _ := dict_item motor_id (motor_to_joint_map self) in
       let* d := dict_item motor_id (directions st) in
       let* lims := record_limit motor_id d avg_limit (limits st) in
       Ok {| directions := directions st;
             position_buffers := buffers';
             motor_reached_limit :=
               dict_set motor_id true (motor_reached_limit st);
             desired_increment := desired_increment st;
             limits := lims |}
     else
       Ok {| directions := directions st;
             position_buffers := buffers';
             motor_reached_limit := motor_reached_limit st;
             desired_increment := desired_increment st;
             limits := limits st |})%res.

(** [for motor_id in desired_increment.keys()] *)
Fixpoint calib_observe_all (self : OrcaHand) (curr_pos : list Qc)
    (ids : list Z) (st : calib_state) : result calib_state :=
  match ids with
  | [] => Ok st
  | motor_id :: rest =>
      (let* st' := calib_observe self curr_pos motor_id st in
       calib_observe_all self curr_pos rest st')%res
  end.

(** The ratio loop that ends a step (lines 291 to 299): [for motor_id,
    limits in motor_limits.items()].  The result is the pair of
    [self.joint_to_motor_ratios] and [calibrated_joints]. *)
Fixpoint calib_ratios (self : OrcaHand)
    (items : dict Z (option Qc * option Qc)) (ratios : dict Z Qc)
    (calibrated_joints : dict string Qc)
    : result (dict Z Qc * dict string Qc) :=
  match items with
  | [] => Ok (ratios, calibrated_joints)
  | (motor_id, (Some lo, Some hi)) :: rest =>
      let delta_motor := (hi - lo)%Qc in
      (let* joint := dict_item motor_id (motor_to_joint_map self) in
       let* rom := dict_item joint (joint_roms self) in
       let delta_joint := (rom.2 - rom.1)%Qc in
       if decide (delta_joint = 0%Qc) then Raise ZeroDivisionError
       else
         calib_ratios self rest
           (dict_set motor_id (delta_motor / delta_joint)%Qc ratios)
           (dict_set joint 0%Qc calibrated_joints))%res
  | _ :: rest => calib_ratios self rest ratios calibrated_joints
  end.

(** ** Predicates of the statements and sample data *)

(** Both bounds of a limit pair are numbers. *)
Definition both_defined (motor_limit : option Qc * option Qc) : Prop :=
  is_Some motor_limit.1 ∧ is_Some motor_limit.2.

(** A small hand used to exercise the statements: motor 1 drives the thumb
    and is calibrated over [-1, 1]; motor 2 drives the index finger and has
    no lower bound yet.  The stored flag claims a calibrated hand. *)
Definition demo_hand : OrcaHand :=
  {| max_current := 300; control_mode := "current_position";
     calib_current := 200;
     calib_step_size := Q2Qc 0.1; calib_threshold := Q2Qc 0.01;
     calib_num_stable := 5;
     calib_sequence := [ {| joints := [("thumb", "flex")] |};
                         {| joints := [("thumb", "extend")] |} ];
     calibrated := true;
     motor_limits := [(1%Z, (Some (Q2Qc (-1)), Some (Q2Qc 1)));
                      (2%Z, (None, Some (Q2Qc 1)))];
     joint_to_motor_ratios := [(1%Z, (Q2Qc 2 / Q2Qc 1.57)%Qc)];
     motor_ids := [1%Z; 2%Z]; joint_ids := ["thumb"; "index"];
     joint_to_motor_map := [("thumb", 1%Z); ("index", 2%Z)];
     motor_to_joint_map := [(1%Z, "thumb"); (2%Z, "index")];
     joint_roms := [("thumb", (Q2Qc 0, Q2Qc 1.57));
                    ("index", (Q2Qc 0, Q2Qc 1))] |}.

(** A transport that keeps reporting the same two positions, nothing
    written yet, and a calibration file whose flag is set. *)
Definition demo_world : World :=
  {| sensed := λ _, [Q2Qc 0.25; Q2Qc 0.5]; reads := 0; writes := [];
     calib_file := [("calibrated", YBool true)] |}.

(** The configuration file of [demo_hand]. *)
Definition demo_config : Config :=
  {| cfg_max_current := 300; cfg_control_mode := "current_position";
     cfg_calib_current := 200;
     cfg_calib_step_size := Q2Qc 0.1; cfg_calib_threshold := Q2Qc 0.01;
     cfg_calib_num_stable := 5;
     cfg_calib_sequence := [ {| joints := [("thumb", "flex")] |};
                             {| joints := [("thumb", "extend")] |} ];
     cfg_motor_ids := [1%Z; 2%Z]; cfg_joint_ids := ["thumb"; "index"];
     cfg_joint_to_motor_map := [("thumb", 1%Z); ("index", 2%Z)];
     cfg_joint_roms := [("thumb", (Q2Qc 0, Q2Qc 1.57));
                        ("index", (Q2Qc 0, Q2Qc 1))] |}.

(** A calibration file that says [calibrated: true] over a limit table in
    which motor 2 has no lower bound. *)
Definition stale_world : World :=
  {| sensed := λ _, [Q2Qc 0.25; Q2Qc 0.5]; reads := 0; writes := [];
     calib_file :=
       [("calibrated", YBool true);
        ("motor_limits", YLimits [(1%Z, (Some (Q2Qc (-1)), Some (Q2Qc 1)));
                                  (2%Z, (None, Some (Q2Qc 1)))]);
        ("joint_to_motor_ratios", YRatios [(1%Z, (Q2Qc 2 / Q2Qc 1.57)%Qc)])]
  |}.

(** The tables hold what [_motor_to_joint_pos] looks up for motor
    [motor_id]: a limit pair and, when the pair is complete, a joint, its
    range of motion and a ratio. *)
Definition motor_ready (self : OrcaHand) (motor_id : Z) : Prop :=
  ∃ limit, dict_get motor_id (motor_limits self) = Some limit
    ∧ (both_defined limit →
       ∃ joint rom ratio,
         dict_get motor_id (motor_to_joint_map self) = Some joint
         ∧ dict_get joint (joint_roms self) = Some rom
         ∧ dict_get motor_id (joint_to_motor_ratios self) = Some ratio).

(** The same for every motor that a vector of [n] positions covers. *)
Definition tables_ready (self : OrcaHand) (n : nat) : Prop :=
  ∀ motor_id, (1 ≤ motor_id ≤ Z.of_nat n)%Z → motor_ready self motor_id.

(** The joints of a partial mapping that [joint_to_motor_map] knows. *)
Definition known_joints (self : OrcaHand) (joint_pos : list (string * Qc))
    : dict string Qc :=
  filter (λ jp, is_Some (dict_get jp.1 (joint_to_motor_map self))) joint_pos.

(** The tables hold what [_joint_to_motor_pos] looks up for the joints of
    [joint_pos]: a limit pair for the motor and, when the pair is
    complete, a range of motion, a ratio and a slot in a vector of length
    [n]. *)
Definition mentioned_ready (self : OrcaHand) (joint_pos : dict string Qc)
    (n : nat) : Prop :=
  ∀ joint pos motor_id,
    (joint, pos) ∈ joint_pos →
    dict_get joint (joint_to_motor_map self) = Some motor_id →
    ∃ limit, dict_get motor_id (motor_limits self) = Some limit
      ∧ (both_defined limit →
         is_Some (dict_get joint (joint_roms self))
         ∧ is_Some (dict_get motor_id (joint_to_motor_ratios self))
         ∧ is_Some (py_index n (motor_id - 1))).

(** Joint [joint] is mentioned in [joint_pos] and its motor has a limit
    pair that lacks a bound. *)
Definition mentions_uncalibrated (self : OrcaHand)
    (joint_pos : dict string Qc) (joint : string) (motor_id : Z) : Prop :=
  (∃ pos, (joint, pos) ∈ joint_pos)
  ∧ dict_get joint (joint_to_motor_map self) = Some motor_id
  ∧ ∃ limit, dict_get motor_id (motor_limits self) = Some limit
      ∧ ¬ both_defined limit.

(** The world after one read of the transport. *)
Definition after_read (w : World) : World :=
  {| sensed := sensed w; reads := S (reads w); writes := writes w;
     calib_file := calib_file w |}.

(** The world after [write_desired_pos(ids, positions)]. *)
Definition after_write (ids : list Z) (positions : list Qc) (w : World)
    : World :=
  {| sensed := sensed w; reads := reads w;
     writes := writes w ++ [(ids, positions)]; calib_file := calib_file w |}.

(** A configuration in which both joints are mapped to motor 1 and no
    joint is mapped to motor 2. *)
Definition shared_motor_config : Config :=
  {| cfg_max_current := 300; cfg_control_mode := "current_position";
     cfg_calib_current := 200;
     cfg_calib_step_size := Q2Qc 0.1; cfg_calib_threshold := Q2Qc 0.01;
     cfg_calib_num_stable := 5;
     cfg_calib_sequence := [ {| joints := [("thumb", "flex")] |} ];
     cfg_motor_ids := [1%Z; 2%Z]; cfg_joint_ids := ["thumb"; "index"];
     cfg_joint_to_motor_map := [("thumb", 1%Z); ("index", 1%Z)];
     cfg_joint_roms := [("thumb", (Q2Qc 0, Q2Qc 1.57));
                        ("index", (Q2Qc 0, Q2Qc 1))] |}.

(** A transport with two motors and an empty calibration file. *)
Definition fresh_world : World :=
  {| sensed := λ _, [Q2Qc 0.25; Q2Qc 0.5]; reads := 0; writes := [];
     calib_file := [] |}.


(** The subscript [motor_id - 1], used by [_joint_to_motor_pos],
    [_set_motor_pos] and [calibrate] on a vector aligned with [ids],
    is in bounds and denotes the place of [motor_id] in [ids]. *)
Definition subscript_hits_own_slot (ids : list Z) : Prop :=
  ∀ i motor_id,
    ids !! i = Some motor_id → py_index (length ids) (motor_id - 1) = Some i.

(** The number that [enumerate(motor_pos, start=1)] of
    [_motor_to_joint_pos] gives to a place is the id of the motor at that
    place of [ids]. *)
Definition enumerate_names_own_motor (ids : list Z) : Prop :=
  ∀ i motor_id, ids !! i = Some motor_id → (1 + Z.of_nat i)%Z = motor_id.

(** The object at the end of a step of [calibrate]: the ratio table that
    the ratio loop filled and [self.motor_limits = motor_limits]. *)
Definition after_step (self : OrcaHand)
    (table : dict Z (option Qc * option Qc)) (ratios : dict Z Qc) : OrcaHand :=
  set_motor_limits table (set_ratios ratios self).

(** The hand of the scenario: motor 1 calibrated over [-1, 1], the thumb's
    range of motion [0, 1.57], no ratio computed yet. *)
Definition scenario_hand : OrcaHand := set_ratios [] demo_hand.

(** Sample [x] is close to [first] in the sense of the stall test: within
    [calib_threshold] plus the relative share [rtol * |first|] that
    [np.allclose] adds. *)
Definition within_tolerance (self : OrcaHand) (first x : Qc) : Prop :=
  (Qcabs (x - first) ≤ calib_threshold self + rtol * Qcabs first)%Qc.

(** The five samples of the scenario. *)
Definition scenario_samples : list Qc :=
  [Q2Qc 0.50; Q2Qc 0.505; Q2Qc 0.498; Q2Qc 0.502; Q2Qc 0.499].

(** Five samples around 100 rad, one of them 0.0105 rad away from the
    first. *)
Definition far_samples : list Qc :=
  [Q2Qc 100; Q2Qc 100.0105; Q2Qc 100; Q2Qc 100; Q2Qc 100].

(** The step state of the scenario: motor 1 is driven towards flexion and
    its window holds the first four samples. *)
Definition scenario_state : calib_state :=
  {| directions := [(1%Z, 1%Z)];
     position_buffers :=
       [(1%Z, [Q2Qc 0.50; Q2Qc 0.505; Q2Qc 0.498; Q2Qc 0.502])];
     motor_reached_limit := [(1%Z, false)];
     desired_increment := [(1%Z, Q2Qc 0.1)];
     limits := [(1%Z, (None, None)); (2%Z, (None, None))] |}.

(** The two maps of the object are inverse to each other, as for a
    bijective joint-to-motor map and its comprehension. *)
Definition maps_inverse (self : OrcaHand) : Prop :=
  ∀ joint motor_id,
    dict_get joint (joint_to_motor_map self) = Some motor_id
    ↔ dict_get motor_id (motor_to_joint_map self) = Some joint.

(** Every joint of [joint_pos] is a declared joint whose motor, among the
    [n] motors of the vector, has both bounds, a range of motion and a
    ratio that is not zero. *)
Definition mentioned_calibrated (self : OrcaHand) (joint_pos : dict string Qc)
    (n : nat) : Prop :=
  ∀ joint pos, (joint, pos) ∈ joint_pos →
    ∃ motor_id lo hi rom ratio,
      dict_get joint (joint_to_motor_map self) = Some motor_id
      ∧ (1 ≤ motor_id ≤ Z.of_nat n)%Z
      ∧ dict_get motor_id (motor_limits self) = Some (Some lo, Some hi)
      ∧ dict_get joint (joint_roms self) = Some rom
      ∧ dict_get motor_id (joint_to_motor_ratios self) = Some ratio
      ∧ ratio ≠ 0%Qc.

(** A hand whose only motor did not move between its two limits: both
    bounds are 0.5 and the ratio, [(0.5 - 0.5) / (1.57 - 0)], is zero. *)
Definition jammed_hand : OrcaHand :=
  {| max_current := 300; control_mode := "current_position";
     calib_current := 200;
     calib_step_size := Q2Qc 0.1; calib_threshold := Q2Qc 0.01;
     calib_num_stable := 5;
     calib_sequence := [ {| joints := [("thumb", "flex")] |};
                         {| joints := [("thumb", "extend")] |} ];
     calibrated := true;
     motor_limits := [(1%Z, (Some (Q2Qc 0.5), Some (Q2Qc 0.5)))];
     joint_to_motor_ratios :=
       [(1%Z, ((Q2Qc 0.5 - Q2Qc 0.5) / (Q2Qc 1.57 - Q2Qc 0))%Qc)];
     motor_ids := [1%Z]; joint_ids := ["thumb"];
     joint_to_motor_map := [("thumb", 1%Z)];
     motor_to_joint_map := [(1%Z, "thumb")];
     joint_roms := [("thumb", (Q2Qc 0, Q2Qc 1.57))] |}.

(** ** Predicates and data of the further properties *)

(** Everything that the raising checks of [_sanity_check] ask of an
    object, in the order of the source. *)
Definition sane (self : OrcaHand) : Prop :=
  length (motor_ids self) = length (joint_ids self)
  ∧ length (motor_ids self) = length (joint_to_motor_map self)
  ∧ control_mode self ∈ control_modes
  ∧ (calib_current self ≤ max_current self)%Z
  ∧ (∀ joint motor_id, (joint, motor_id) ∈ joint_to_motor_map self →
       joint ∈ joint_ids self ∧ joint ∈ dict_keys (joint_roms self)
       ∧ motor_id ∈ motor_ids self)
  ∧ (∀ joint rom, (joint, rom) ∈ joint_roms self →
       (rom.1 < rom.2)%Qc ∧ joint ∈ joint_ids self)
  ∧ (∀ step joint direction,
       step ∈ calib_sequence self → (joint, direction) ∈ joints step →
       joint ∈ joint_ids self ∧ direction ∈ ["flex"; "extend"]).

(** [demo_hand] with the operating current below the calibration
    current. *)
Definition weak_hand : OrcaHand :=
  {| max_current := 100; control_mode := control_mode demo_hand;
     calib_current := 200;
     calib_step_size := calib_step_size demo_hand;
     calib_threshold := calib_threshold demo_hand;
     calib_num_stable := calib_num_stable demo_hand;
     calib_sequence := calib_sequence demo_hand;
     calibrated := calibrated demo_hand;
     motor_limits := motor_limits demo_hand;
     joint_to_motor_ratios := joint_to_motor_ratios demo_hand;
     motor_ids := motor_ids demo_hand; joint_ids := joint_ids demo_hand;
     joint_to_motor_map := joint_to_motor_map demo_hand;
     motor_to_joint_map := motor_to_joint_map demo_hand;
     joint_roms := joint_roms demo_hand |}.

(** The vector that [_set_motor_pos] hands to the transport, before any
    world is involved. *)
Definition commanded_positions (self : OrcaHand) (desired : desired_pos)
    (rel_to_current : bool) (current_pos : list Qc) : result (list Qc) :=
  (let* motor_pos_array :=
     desired_array self desired rel_to_current current_pos in
   if rel_to_current
   then np_iadd motor_pos_array.1 motor_pos_array.2 current_pos
   else Ok motor_pos_array.2)%res.

(** A hand whose two motors carry the ids 5 and 7. *)
Definition sparse_hand : OrcaHand :=
  {| max_current := 300; control_mode := "position";
     calib_current := 200;
     calib_step_size := Q2Qc 0.1; calib_threshold := Q2Qc 0.01;
     calib_num_stable := 5;
     calib_sequence := [ {| joints := [("thumb", "flex")] |} ];
     calibrated := false;
     motor_limits := [];
     joint_to_motor_ratios := [];
     motor_ids := [5%Z; 7%Z]; joint_ids := ["thumb"; "index"];
     joint_to_motor_map := [("thumb", 5%Z); ("index", 7%Z)];
     motor_to_joint_map := [(5%Z, "thumb"); (7%Z, "index")];
     joint_roms := [("thumb", (Q2Qc 0, Q2Qc 1.57));
                    ("index", (Q2Qc 0, Q2Qc 1))] |}.

(** The body of the sampling loop applied, round after round, to the
    position vectors of successive polls. *)
Fixpoint calib_observe_rounds (self : OrcaHand) (polls : list (list Qc))
    (motor_id : Z) (st : calib_state) : result calib_state :=
  match polls with
  | [] => Ok st
  | curr_pos :: later =>
      (let* st' := calib_observe self curr_pos motor_id st in
       calib_observe_rounds self later motor_id st')%res
  end.

(** The state in which [demo_hand] starts the step [{thumb: flex}]. *)
Definition fresh_step_state : calib_state :=
  {| directions := [(1%Z, 1%Z)];
     position_buffers := [(1%Z, [])];
     motor_reached_limit := [(1%Z, false)];
     desired_increment := [];
     limits := [(1%Z, (None, None)); (2%Z, (None, None))] |}.

(** [demo_hand] configured with [calib_num_stable: 0]. *)
Definition windowless_hand : OrcaHand :=
  {| max_current := max_current demo_hand;
     control_mode := control_mode demo_hand;
     calib_current := calib_current demo_hand;
     calib_step_size := calib_step_size demo_hand;
     calib_threshold := calib_threshold demo_hand;
     calib_num_stable := 0;
     calib_sequence := calib_sequence demo_hand;
     calibrated := calibrated demo_hand;
     motor_limits := motor_limits demo_hand;
     joint_to_motor_ratios := joint_to_motor_ratios demo_hand;
     motor_ids := motor_ids demo_hand; joint_ids := joint_ids demo_hand;
     joint_to_motor_map := joint_to_motor_map demo_hand;
     motor_to_joint_map := motor_to_joint_map demo_hand;
     joint_roms := joint_roms demo_hand |}.

(** The state of a step of [demo_hand] in which motor 1 has reached its
    limit after having been driven by 0.1 per round. *)
Definition settled_state : calib_state :=
  {| directions := [(1%Z, 1%Z)];
     position_buffers := [(1%Z, scenario_samples)];
     motor_reached_limit := [(1%Z, true)];
     desired_increment := [(1%Z, Q2Qc 0.1)];
     limits := [(1%Z, (None, Some (np_mean scenario_samples)));
                (2%Z, (None, None))] |}.

(** ** The rest of the facade: torque, mode, current, [calibrate]

    These methods talk to the transport through more than position reads
    and writes, and [calibrate] polls until the motors stall.  The
    environment is widened to a [Rig]: the [World] above, the currents
    that the transport reports, and a log of the other commands.  Position
    writes stay in the log of the [World].  A computation on a rig returns,
    raises, or is still running when a given number of polling rounds is
    used up. *)

(** Commands to the transport other than position writes. *)
Inductive command : Type :=
  | TorqueEnabled (ids : list Z) (enabled : bool)
  | OperatingMode (ids : list Z) (mode : Z)
  | DesiredCurrent (ids : list Z) (currents : list Qc).

Record Rig : Type := {
  world : World;
  sensed_current : nat -> list Qc;
  commands : list command;
}.

(** What can be raised: the exceptions above, and the [UnboundLocalError]
    of a local variable read before any assignment. *)
Inductive raised : Type :=
  | Exn (e : exn)
  | UnboundLocalError (name : string).

Inductive outcome (A : Type) : Type :=
  | Returns (a : A)
  | Raises (e : raised)
  | Running.
Arguments Returns {A} a.
Arguments Raises {A} e.
Arguments Running {A}.

Definition R (A : Type) : Type := Rig -> outcome A * Rig.

Definition rret {A} (a : A) : R A := fun r => (Returns a, r).
Definition rraise {A} (e : raised) : R A := fun r => (Raises e, r).
Definition rbindR {A B} (m : R A) (k : A -> R B) : R B :=
  fun r => match m r with
           | (Returns a, r') => k a r'
           | (Raises e, r') => (Raises e, r')
           | (Running, r') => (Running, r')
           end.

Declare Scope rig_scope.
Delimit Scope rig_scope with R.
Notation "'let*' x ':=' m 'in' k" := (rbindR m (fun x => k))
  (at level 10, x name, m at level 100, k at level 200, only parsing)
  : rig_scope.

Definition with_world (w : World) (r : Rig) : Rig :=
  {| world := w; sensed_current := sensed_current r; commands := commands r |}.

(** A computation on the world, run on the world of the rig. *)
Definition on_world {A} (m : M A) : R A :=
  fun r => match m (world r) with
           | (inl e, w') => (Raises (Exn e), with_world w' r)
           | (inr a, w') => (Returns a, with_world w' r)
           end.

(** A computation that touches no state. *)
Definition of_result {A} (x : result A) : R A :=
  fun r => match x with
           | inl e => (Raises (Exn e), r)
           | inr a => (Returns a, r)
           end.

(** Modelled from the spec: the commands `set_torque_enabled(motor_ids,
    enabled)`, `set_operating_mode(motor_ids, mode_code)` and
    `write_desired_current(motor_ids, currents)` of the transport of
    section 6, recorded in the log and assumed not to fail. *)
Definition send (c : command) : R unit :=
  fun r => (Returns tt,
            {| world := world r; sensed_current := sensed_current r;
               commands := commands r ++ [c] |}).

(** [enable_torque] and [disable_torque]; [None] stands for the default
    argument. *)
Definition enable_torque (self : OrcaHand) (ids : option (list Z)) : R unit :=
  send (TorqueEnabled (default (motor_ids self) ids) true).

Definition disable_torque (self : OrcaHand) (ids : option (list Z)) : R unit :=
  send (TorqueEnabled (default (motor_ids self) ids) false).

(** The two forms of the argument of [set_max_current]. *)
Inductive current_arg : Type :=
  | CurrentList (l : list Qc)
  | CurrentScalar (c : Qc).

Definition current_count_msg : string :=
  "Number of currents do not match the number of motors.".

(** [set_max_current]; a scalar is spread by [current * np.ones(n)]. *)
Definition set_max_current (self : OrcaHand) (current : current_arg) : R unit :=
  match current with
  | CurrentList l =>
      if decide (length l ≠ length (motor_ids self))
      then rraise (Exn (ValueError current_count_msg))
      else send (DesiredCurrent (motor_ids self) l)
  | CurrentScalar c =>
      send (DesiredCurrent (motor_ids self)
              (replicate (length (motor_ids self)) c))
  end.

(** The table [mode_map] of [set_control_mode]. *)
Definition mode_map : dict string Z :=
  [("current", 0%Z); ("velocity", 1%Z); ("position", 3%Z);
   ("multi_turn_position", 4%Z); ("current_based_position", 5%Z)].

(** [set_control_mode] *)
Definition set_control_mode (self : OrcaHand) (mode : string)
    (ids : option (list Z)) : R unit :=
  match dict_get mode mode_map with
  | None => rraise (Exn (ValueError "Invalid control mode."))
  | Some code =>
      match ids with
      | None => send (OperatingMode (motor_ids self) code)
      | Some ids =>
          if forallb (λ motor_id, bool_decide (motor_id ∈ motor_ids self)) ids
          then send (OperatingMode ids code)
          else rraise (Exn (ValueError "Invalid motor IDs."))
      end
  end.

(** [get_motor_current]: a further read of the transport, of which the
    currents are kept. *)
Definition get_motor_current : R (list Qc) :=
  fun r => (Returns (sensed_current r (reads (world r))),
            with_world (after_read (world r)) r).

(** The body of the sampling loop with the read of the current that the
    source makes between the sample and the stall test (line 278); the
    values logged are not kept. *)
Definition calib_sample (self : OrcaHand) (curr_pos : list Qc) (motor_id : Z)
    (st : calib_state) : R calib_state :=
  match dict_item motor_id (motor_reached_limit st) with
  | inl e => rraise (Exn e)
  | inr true => rret st
  | inr false =>
      (let* _ := of_result (dict_item motor_id (position_buffers st)) in
       let* _ := of_result (seq_item curr_pos (motor_id - 1)) in
       let* currents := get_motor_current in
       let* _ := of_result (seq_item currents (motor_id - 1)) in
       of_result (calib_observe self curr_pos motor_id st))%R
  end.

(** [for motor_id in desired_increment.keys()] *)
Fixpoint calib_sample_all (self : OrcaHand) (curr_pos : list Qc)
    (ids : list Z) (st : calib_state) : R calib_state :=
  match ids with
  | [] => rret st
  | motor_id :: rest =>
      (let* st' := calib_sample self curr_pos motor_id st in
       calib_sample_all self curr_pos rest st')%R
  end.

Definition with_increments (incr : dict Z Qc) (st : calib_state) : calib_state :=
  {| directions := directions st; position_buffers := position_buffers st;
     motor_reached_limit := motor_reached_limit st;
     desired_increment := incr; limits := limits st |}.

(** The increments of a round as [_set_motor_pos] receives them: each is
    the product of a direction and the float [calib_step_size], a
    float. *)
Definition as_floats (d : dict Z Qc) : dict Z pynum :=
  (λ kv, (kv.1, PyFloat kv.2)) <$> d.

(** The polling loop of a step, [while(not
    all(motor_reached_limit.values()))], for at most [fuel] rounds. *)
Fixpoint drive (fuel : nat) (self : OrcaHand) (st : calib_state)
    : R calib_state :=
  if forallb id (dict_values (motor_reached_limit st)) then rret st
  else
    match fuel with
    | 0 => fun r => (Running, r)
    | S fuel' =>
        (let* incr := of_result (plan_increments self (directions st)
                              (motor_reached_limit st)
                              (desired_increment st)) in
         let* _ := on_world (_set_motor_pos self
                              (PosDict (as_floats incr)) true) in
         let* curr_pos := on_world get_motor_pos in
         let* st' := calib_sample_all self curr_pos (dict_keys incr)
                       (with_increments incr st) in
         drive fuel' self st')%R
    end.

(** The dictionaries that open a step (line 255), around the table
    [motor_limits] that the steps share. *)
Definition step_start (table : dict Z (option Qc * option Qc)) : calib_state :=
  {| directions := []; position_buffers := []; motor_reached_limit := [];
     desired_increment := []; limits := table |}.

(** One pass of [for step in self.calib_sequence]: the object, the table
    and [calibrated_joints] as the pass leaves them. *)
Definition calibrate_step (fuel : nat) (self : OrcaHand)
    (table : dict Z (option Qc * option Qc)) (step : calib_step)
    : R (OrcaHand * dict Z (option Qc * option Qc) * dict string Qc) :=
  (let* st := of_result (init_step self (joints step) (step_start table)) in
   let* st' := drive fuel self st in
   let* computed := of_result (calib_ratios self (limits st')
                            (joint_to_motor_ratios self) []) in
   let* _ := on_world (update_yaml "joint_to_motor_ratios"
                         (YRatios computed.1)) in
   let* _ := on_world (update_yaml "motor_limits" (YLimits (limits st'))) in
   let self' := after_step self (limits st') computed.1 in
   let* _ := on_world (set_joint_pos self' computed.2) in
   rret (self', limits st', computed.2))%R.

(** The loop over the steps; [calibrated_joints] is unbound until a step
    has run. *)
Fixpoint calibrate_steps (fuel : nat) (self : OrcaHand)
    (table : dict Z (option Qc * option Qc))
    (calibrated_joints : option (dict string Qc)) (steps : list calib_step)
    : R (OrcaHand * option (dict string Qc)) :=
  match steps with
  | [] => rret (self, calibrated_joints)
  | step :: later =>
      (let* done := calibrate_step fuel self table step in
       calibrate_steps fuel done.1.1 done.1.2 (Some done.2) later)%R
  end.

(** [calibrate]; each polling loop is given [fuel] rounds. *)
Definition calibrate (fuel : nat) (self : OrcaHand) : R OrcaHand :=
  (let* _ := set_control_mode self "current_based_position" None in
   let* _ := set_max_current self
               (CurrentScalar (Qc_of_Z (calib_current self))) in
   let* _ := enable_torque self None in
   let* ran := calibrate_steps fuel self (empty_limits self) None
                 (calib_sequence self) in
   let self' := set_calibrated (is_calibrated ran.1) ran.1 in
   let* _ := on_world (update_yaml "calibrated" (YBool (calibrated self'))) in
   let* calibrated_joints :=
     match ran.2 with
     | Some joints => rret joints
     | None => rraise (UnboundLocalError "calibrated_joints")
     end in
   let* _ := on_world (set_joint_pos self' calibrated_joints) in
   let* _ := set_max_current self'
               (CurrentScalar (Qc_of_Z (max_current self'))) in
   rret self')%R.

(** [{joint: 0 for joint in self.joint_ids}] *)
Definition all_joints_zero (self : OrcaHand) : dict string Qc :=
  fold_left (λ acc joint, dict_set joint 0%Qc acc) (joint_ids self) [].

(** [init_joints]; [force] is its argument [calibrate]. *)
Definition init_joints (fuel : nat) (self : OrcaHand) (force : bool)
    : R OrcaHand :=
  (let* _ := enable_torque self None in
   let* _ := set_control_mode self (control_mode self) None in
   let* _ := set_max_current self
               (CurrentScalar (Qc_of_Z (max_current self))) in
   let* self' := (if negb (calibrated self) || force
                  then calibrate fuel self else rret self) in
   let* _ := on_world (set_joint_pos self' (all_joints_zero self')) in
   rret self')%R.

(** A rig around [demo_world] whose transport reports no current. *)
Definition demo_rig : Rig :=
  {| world := demo_world; sensed_current := λ _, [0%Qc; 0%Qc];
     commands := [] |}.

(** The rig after further commands. *)
Definition sent (c : list command) (r : Rig) : Rig :=
  {| world := world r; sensed_current := sensed_current r;
     commands := commands r ++ c |}.

(** A hand configured without [calib_sequence] and not calibrated yet:
    the limit table of its calibration file is empty. *)
Definition unsequenced_hand : OrcaHand :=
  {| max_current := 300; control_mode := "position";
     calib_current := 200;
     calib_step_size := Q2Qc 0.1; calib_threshold := Q2Qc 0.01;
     calib_num_stable := 5;
     calib_sequence := [];
     calibrated := false;
     motor_limits := [];
     joint_to_motor_ratios := [];
     motor_ids := [1%Z; 2%Z]; joint_ids := ["thumb"; "index"];
     joint_to_motor_map := [("thumb", 1%Z); ("index", 2%Z)];
     motor_to_joint_map := [(1%Z, "thumb"); (2%Z, "index")];
     joint_roms := [("thumb", (Q2Qc 0, Q2Qc 1.57));
                    ("index", (Q2Qc 0, Q2Qc 1))] |}.

(** What the polling loop leaves alone: the calibration file, the log of
    commands and the keys of the limit table. *)
Definition step_frame (st st' : calib_state) (r r' : Rig) : Prop :=
  calib_file (world r') = calib_file (world r)
  ∧ commands r' = commands r
  ∧ dict_keys (limits st') = dict_keys (limits st).
(** ** [calibrate_manual]

    The prompts ([print], [input]) and the pauses have no effect on the
    rig: what the operator does to the hand between two prompts shows in
    the positions that the transport reports at the next read. *)

(** [self.motor_limits[motor_id][1] = x] when [upper], and
    [self.motor_limits[motor_id][0] = x] otherwise: the pair is looked up,
    not created. *)
Definition store_bound (motor_id : Z) (upper : bool) (x : Qc)
    (table : dict Z (option Qc * option Qc))
    : result (dict Z (option Qc * option Qc)) :=
  (let* pair := dict_item motor_id table in
   Ok (dict_set motor_id
         (if upper then (pair.1, Some x) else (Some x, pair.2)) table))%res.

(** The display loop that follows a joint (lines 344 to 352), [while count
    < 5] from [count = 0]: each round reads the motor positions and then
    the joint positions. *)
Fixpoint manual_display (rounds : nat) (self : OrcaHand) (joint : string)
    (motor_id : Z) : R unit :=
  match rounds with
  | 0 => rret tt
  | S rounds' =>
      (let* pos := on_world get_motor_pos in
       let* _ := of_result (seq_item pos (motor_id - 1)) in
       let* joint_pos := on_world (get_joint_pos self) in
       let* _ := of_result (dict_item (Some joint) joint_pos) in
       manual_display rounds' self joint motor_id)%R
  end.

(** The body of [for joint, _ in step["joints"].items()] (lines 323 to
    352): the object and [calibrated_joints] as the body leaves them.  The
    right-hand side of each store is evaluated before the pair is looked
    up; [delta_motor] is the difference of the two bounds just stored. *)
Definition manual_joint (self : OrcaHand) (joint : string)
    (calibrated_joints : dict string Qc) : R (OrcaHand * dict string Qc) :=
  (let* motor_id := of_result (dict_item joint (joint_to_motor_map self)) in
   let* pos := on_world get_motor_pos in
   let* hi := of_result (seq_item pos (motor_id - 1)) in
   let* table := of_result (store_bound motor_id true hi (motor_limits self)) in
   let* pos := on_world get_motor_pos in
   let* lo := of_result (seq_item pos (motor_id - 1)) in
   let* table := of_result (store_bound motor_id false lo table) in
   let delta_motor := (hi - lo)%Qc in
   let* name := of_result (dict_item motor_id (motor_to_joint_map self)) in
   let* rom := of_result (dict_item name (joint_roms self)) in
   let delta_joint := (rom.2 - rom.1)%Qc in
   if decide (delta_joint = 0%Qc) then rraise (Exn ZeroDivisionError)
   else
     let ratios := dict_set motor_id (delta_motor / delta_joint)%Qc
                     (joint_to_motor_ratios self) in
     let self' := after_step self table ratios in
     let* _ := on_world (update_yaml "joint_to_motor_ratios"
                           (YRatios ratios)) in
     let* _ := on_world (update_yaml "motor_limits" (YLimits table)) in
     let* _ := manual_display 5 self' joint motor_id in
     rret (self', dict_set name 0%Qc calibrated_joints))%R.

(** [for joint, _ in step["joints"].items()] *)
Fixpoint manual_joints (self : OrcaHand) (items : dict string string)
    (calibrated_joints : dict string Qc) : R (OrcaHand * dict string Qc) :=
  match items with
  | [] => rret (self, calibrated_joints)
  | (joint, _) :: rest =>
      (let* done := manual_joint self joint calibrated_joints in
       manual_joints done.1 rest done.2)%R
  end.

(** [for i, step in enumerate(self.calib_sequence, start=1)] *)
Fixpoint manual_steps (self : OrcaHand) (steps : list calib_step)
    (calibrated_joints : dict string Qc) : R (OrcaHand * dict string Qc) :=
  match steps with
  | [] => rret (self, calibrated_joints)
  | step :: later =>
      (let* done := manual_joints self (joints step) calibrated_joints in
       manual_steps done.1 later done.2)%R
  end.

(** [calibrate_manual] *)
Definition calibrate_manual (self : OrcaHand) : R OrcaHand :=
  (let* _ := disable_torque self None in
   let* ran := manual_steps self (calib_sequence self) [] in
   let* _ := enable_torque ran.1 None in
   let* _ := on_world (update_yaml "joint_to_motor_ratios"
                         (YRatios (joint_to_motor_ratios ran.1))) in
   let* _ := on_world (update_yaml "motor_limits"
                         (YLimits (motor_limits ran.1))) in
   let self' := set_calibrated (is_calibrated ran.1) ran.1 in
   let* _ := on_world (update_yaml "calibrated" (YBool (calibrated self'))) in
   let* _ := on_world (set_joint_pos self' ran.2) in
   let* _ := set_max_current self'
               (CurrentScalar (Qc_of_Z (max_current self'))) in
   rret self')%R.

(** The joints that a calibration sequence names, step after step. *)
Definition sequenced_joints (self : OrcaHand) : list string :=
  concat ((λ step, dict_keys (joints step)) <$> calib_sequence self).

(** What passes of the body of [calibrate_manual] over the joints [names]
    do to the object and the rig: the configuration stays, the limit table
    keeps its keys, every named joint's motor ends with both bounds, a
    motor with both bounds keeps having both, the motors of other joints
    keep their entries, and twelve reads are made per joint. *)
Definition manual_progress (names : list string) (self self' : OrcaHand)
    (r r' : Rig) : Prop :=
  (joint_to_motor_map self' = joint_to_motor_map self
   ∧ motor_ids self' = motor_ids self
   ∧ max_current self' = max_current self)
  ∧ dict_keys (motor_limits self') = dict_keys (motor_limits self)
  ∧ (∀ joint, joint ∈ names →
       ∃ motor_id lo hi,
         dict_get joint (joint_to_motor_map self) = Some motor_id
         ∧ dict_get motor_id (motor_limits self') = Some (Some lo, Some hi))
  ∧ (∀ m lo hi, dict_get m (motor_limits self) = Some (Some lo, Some hi) →
       ∃ lo' hi', dict_get m (motor_limits self') = Some (Some lo', Some hi'))
  ∧ (∀ m, (∀ joint, joint ∈ names →
             dict_get joint (joint_to_motor_map self) ≠ Some m) →
       dict_get m (motor_limits self') = dict_get m (motor_limits self)
       ∧ dict_get m (joint_to_motor_ratios self')
         = dict_get m (joint_to_motor_ratios self))
  ∧ (commands r' = commands r ∧ sensed_current r' = sensed_current r
     ∧ sensed (world r') = sensed (world r)
     ∧ reads (world r') = reads (world r) + 12 * length names
     ∧ writes (world r') = writes (world r)).

(** The bounds of a motor that is not among the motors of the step are
    not touched by the rounds of the step. *)
Definition undriven_frame (st st' : calib_state) : Prop :=
  dict_keys (motor_reached_limit st') = dict_keys (motor_reached_limit st)
  ∧ ∀ m, m ∉ dict_keys (motor_reached_limit st) →
         dict_get m (limits st') = dict_get m (limits st).

(** ** A transport that does not move *)

(** Every read reports the positions [pos], and as many currents. *)
Definition stalled (pos : list Qc) (r : Rig) : Prop :=
  (∀ n, sensed (world r) n = pos)
  ∧ (∀ n, length (sensed_current r n) = length pos).

(** What the run of [calibrate] below asks of an object: it passes the
    checks of [_sanity_check], its two maps are inverse to each other, no
    joint is declared or mapped twice, the motor ids lie within 1..N for
    N declared motors, the window holds at least one sample and the
    threshold is not negative. *)
Definition calibratable (self : OrcaHand) : Prop :=
  sane self ∧ maps_inverse self
  ∧ dict_wf (joint_to_motor_map self) ∧ NoDup (joint_ids self)
  ∧ (∀ m, m ∈ motor_ids self →
          (1 ≤ m ≤ Z.of_nat (length (motor_ids self)))%Z)
  ∧ 0 < calib_num_stable self ∧ (0 ≤ calib_threshold self)%Qc.

(** Motor [m] of a step after [j] rounds on a transport that reports
    [pos]: it is a declared motor, its mark is [mark], its window holds
    [j] times its position, and the tables that the sampling loop reads
    have an entry for it. *)
Definition motor_at (self : OrcaHand) (pos : list Qc) (j : nat)
    (st : calib_state) (m : Z) (mark : bool) : Prop :=
  m ∈ motor_ids self
  ∧ dict_get m (motor_reached_limit st) = Some mark
  ∧ (∃ x, seq_item pos (m - 1) = Ok x
          ∧ dict_get m (position_buffers st) = Some (replicate j x))
  ∧ (∃ d, dict_get m (directions st) = Some (direction_sign d))
  ∧ is_Some (dict_get m (limits st))
  ∧ is_Some (dict_get m (motor_to_joint_map self)).

(** Every bound of the table is the mean of a full window of the position
    that the motor reports, and belongs to a motor that drives a joint. *)
Definition bounds_reported (self : OrcaHand) (pos : list Qc)
    (table : dict Z (option Qc * option Qc)) : Prop :=
  ∀ m lo hi v, dict_get m table = Some (lo, hi) →
    lo = Some v ∨ hi = Some v →
    (∃ x, seq_item pos (m - 1) = Ok x
          ∧ v = np_mean (replicate (calib_num_stable self) x))
    ∧ is_Some (dict_get m (motor_to_joint_map self)).

(** The motors of a step in lockstep after [j] rounds. *)
Definition lockstep (self : OrcaHand) (pos : list Qc) (j : nat)
    (st : calib_state) : Prop :=
  dict_wf (motor_reached_limit st)
  ∧ dict_wf (desired_increment st)
  ∧ (∀ m, m ∈ dict_keys (desired_increment st) →
          m ∈ dict_keys (motor_reached_limit st))
  ∧ (∀ m, m ∈ dict_keys (motor_reached_limit st) →
          motor_at self pos j st m (bool_decide (j = calib_num_stable self)))
  ∧ bounds_reported self pos (limits st).

(** ** Which entry of a position sequence the operations reach *)





(** * Properties *)

(** ** Dictionaries *)

Section DictFacts.
Context {K V : Type} `{EqDecision K}.
Implicit Types (k : K) (v : V) (d : dict K V).

Lemma dict_get_set_eq k v d : dict_get k (dict_set k v d) = Some v.
Proof.
  induction d as [|[k' v'] d IH]; simpl.
  - by rewrite decide_True.
  - destruct (decide (k = k')) as [->|Hne]; simpl.
    + by rewrite decide_True.
    + by rewrite decide_False.
Qed.

Lemma dict_get_set_ne k k' v d :
  k ≠ k' → dict_get k' (dict_set k v d) = dict_get k' d.
Proof.
  intros Hne. induction d as [|[k0 v0] d IH]; simpl.
  - by rewrite decide_False.
  - destruct (decide (k = k0)) as [->|Hk]; simpl.
    + by rewrite !decide_False.
    + destruct (decide (k' = k0)); [done | apply IH].
Qed.

Lemma dict_get_Some_elem k v d : dict_get k d = Some v → (k, v) ∈ d.
Proof.
  induction d as [|[k' v'] d IH]; simpl; [done|].
  destruct (decide (k = k')) as [->|Hne].
  - intros [= ->]. left.
  - intros Hd. right. by apply IH.
Qed.

Lemma dict_get_None_keys k d : dict_get k d = None ↔ k ∉ dict_keys d.
Proof.
  unfold dict_keys. induction d as [|[k' v'] d IH]; simpl.
  - split; [intros _; apply not_elem_of_nil | done].
  - rewrite not_elem_of_cons. destruct (decide (k = k')) as [->|Hne].
    + split; [done | intros [? _]; done].
    + rewrite IH. tauto.
Qed.

Lemma dict_elem_get k v d : dict_wf d → (k, v) ∈ d → dict_get k d = Some v.
Proof.
  unfold dict_wf, dict_keys. induction d as [|[k' v'] d IH]; simpl.
  - intros _ Hin. by apply elem_of_nil in Hin.
  - rewrite NoDup_cons. intros [Hnotin Hnd] Hin.
    apply elem_of_cons in Hin as [[= -> ->]|Hin].
    + by rewrite decide_True.
    + rewrite decide_False; [by apply IH|].
      intros ->. apply Hnotin. apply list_elem_of_fmap. by exists (k', v).
Qed.

Lemma dict_keys_set k v d :
  dict_keys (dict_set k v d)
  = if bool_decide (k ∈ dict_keys d) then dict_keys d else dict_keys d ++ [k].
Proof.
  unfold dict_keys. induction d as [|[k' v'] d IH]; [done|].
  cbn [dict_set]. destruct (decide (k = k')) as [->|Hne].
  - rewrite !fmap_cons. cbn [fst]. by rewrite bool_decide_true by left.
  - rewrite !fmap_cons, IH. cbn [fst].
    destruct (bool_decide (k ∈ d.*1)) eqn:Hb.
    + apply bool_decide_eq_true in Hb.
      by rewrite bool_decide_true by (by right).
    + apply bool_decide_eq_false in Hb.
      rewrite bool_decide_false; [done|].
      by rewrite not_elem_of_cons.
Qed.

Lemma dict_wf_set k v d : dict_wf d → dict_wf (dict_set k v d).
Proof.
  unfold dict_wf. rewrite dict_keys_set. intros Hnd.
  destruct (bool_decide (k ∈ dict_keys d)) eqn:Hb; [done|].
  apply bool_decide_eq_false in Hb.
  apply NoDup_app. split_and!; [done| |apply NoDup_singleton].
  intros x Hx Hx'. apply list_elem_of_singleton in Hx' as ->. done.
Qed.

End DictFacts.

(** The inverse map sends a motor to a joint that is mapped to it. *)
Lemma invert_map_fold_elem {A B} `{EqDecision B} (d : dict A B)
    (acc : dict B A) (b : B) (a : A) :
  dict_get b (fold_left (fun acc kv => dict_set kv.2 kv.1 acc) d acc) = Some a →
  (a, b) ∈ d ∨ dict_get b acc = Some a.
Proof.
  revert acc. induction d as [|[a0 b0] d IH]; intros acc; simpl; [by right|].
  intros Hget. apply IH in Hget as [Hin|Hget]; [left; by right|].
  destruct (decide (b0 = b)) as [->|Hne].
  - rewrite dict_get_set_eq in Hget. injection Hget as ->. left. left.
  - rewrite dict_get_set_ne in Hget by done. by right.
Qed.

Lemma invert_map_elem {A B} `{EqDecision B} (d : dict A B) (b : B) (a : A) :
  dict_get b (invert_map d) = Some a → (a, b) ∈ d.
Proof.
  intros Hget. apply invert_map_fold_elem in Hget as [?|Hget]; [done|].
  discriminate Hget.
Qed.


(** ** Completeness of the limit table *)

Lemma any_limit_None_false motor_limit :
  any_limit_None motor_limit = false ↔ both_defined motor_limit.
Proof.
  destruct motor_limit as [[lo|] [hi|]]; unfold both_defined; simpl;
    split; try done; intros [[? [=]] [? [=]]] || (intros; split; eauto).
Qed.

Lemma any_limit_None_true motor_limit :
  any_limit_None motor_limit = true ↔ ¬ both_defined motor_limit.
Proof.
  rewrite <- any_limit_None_false. by destruct (any_limit_None motor_limit).
Qed.

Lemma is_calibrated_loop_Forall values :
  is_calibrated_loop values = true ↔ Forall both_defined values.
Proof.
  induction values as [|motor_limit rest IH]; simpl.
  - split; [constructor | done].
  - rewrite Forall_cons, <- IH, <- any_limit_None_false.
    destruct (any_limit_None motor_limit); [|tauto].
    split; [done | by intros [? _]].
Qed.

(** The last loop of [_sanity_check] never fails and touches nothing but
    the flag and the [calibrated] key of the file. *)
Lemma clear_calibrated_loop_spec values : ∀ self w,
  ∃ self' w',
    clear_calibrated_loop self values w = (Ok self', w')
    ∧ motor_limits self' = motor_limits self
    ∧ writes w' = writes w
    ∧ (Exists (λ l, ¬ both_defined l) values →
       calibrated self' = false
       ∧ dict_get "calibrated" (calib_file w') = Some (YBool false))
    ∧ (Forall both_defined values →
       self' = self ∧ w' = w).
Proof.
  induction values as [|motor_limit rest IH]; intros self w; simpl.
  - exists self, w. split_and!; try done. intros H. by apply Exists_nil in H.
  - destruct (any_limit_None motor_limit) eqn:Hany.
    + unfold mbind, update_yaml. simpl.
      edestruct (IH (set_calibrated false self)) as
        (self' & w' & -> & Hlim & Hw & Hex & Hall).
      exists self', w'. split_and!; try done.
      * intros _. destruct (decide (Forall both_defined rest)) as [Hf|Hf].
        -- destruct (Hall Hf) as [-> ->]. simpl.
           split; [done | apply dict_get_set_eq].
        -- apply Hex. by apply not_Forall_Exists in Hf; [|apply _].
      * intros Hf. apply Forall_cons in Hf as [Hd _].
        apply any_limit_None_true in Hany. done.
    + edestruct (IH self) as (self' & w' & -> & Hlim & Hw & Hex & Hall).
      exists self', w'. split_and!; try done.
      * intros Hx. apply Exists_cons in Hx as [Hx|Hx]; [|by apply Hex].
        apply any_limit_None_false in Hany. done.
      * intros Hf. apply Forall_cons in Hf as [_ Hf]. by apply Hall.
Qed.

(** X26.  [is_calibrated] is true exactly when every pair that the limit
    table holds has both bounds; a motor without an entry has no pair to
    inspect and does not make it false.  The stored flag plays no part in
    it, so an incomplete pair yields false whatever the flag says; a
    [_sanity_check] that returns on a table with an incomplete pair
    leaves the object's flag false and the file's [calibrated] key false,
    and so does the construction that loads such a table from the
    calibration file. *)
Theorem is_calibrated_recomputed_from_limits :
  (∀ self, is_calibrated self = true
           ↔ Forall both_defined (dict_values (motor_limits self)))
  ∧ (∀ self flag,
       is_calibrated (set_calibrated flag self) = is_calibrated self)
  ∧ (∀ self,
       Exists (λ l, ¬ both_defined l) (dict_values (motor_limits self)) →
       is_calibrated (set_calibrated true self) = false)
  ∧ (∀ self w self' w',
       Exists (λ l, ¬ both_defined l) (dict_values (motor_limits self)) →
       _sanity_check self w = (Ok self', w') →
       calibrated self' = false
       ∧ dict_get "calibrated" (calib_file w') = Some (YBool false)
       ∧ is_calibrated self' = false)
  ∧ (∀ config w self' w',
       Exists (λ l, ¬ both_defined l)
         (dict_values (calib_get_motor_limits (calib_file w))) →
       __init__ config w = (Ok self', w') →
       calibrated self' = false
       ∧ dict_get "calibrated" (calib_file w') = Some (YBool false)
       ∧ is_calibrated self' = false).
Proof.
  assert (Hiff : ∀ s, is_calibrated s = true
                      ↔ Forall both_defined (dict_values (motor_limits s)))
    by (intros s; apply is_calibrated_loop_Forall).
  assert (Hfalse : ∀ s,
            Exists (λ l, ¬ both_defined l) (dict_values (motor_limits s)) →
            is_calibrated s = false).
  { intros s Hex. apply not_true_is_false. rewrite Hiff.
    intros Hall. apply Exists_exists in Hex as (l & Hin & Hl).
    apply Hl. by eapply Forall_forall in Hall. }
  assert (Hcheck : ∀ self w self' w',
            Exists (λ l, ¬ both_defined l) (dict_values (motor_limits self)) →
            _sanity_check self w = (Ok self', w') →
            calibrated self' = false
            ∧ dict_get "calibrated" (calib_file w') = Some (YBool false)
            ∧ is_calibrated self' = false).
  { intros self w self' w' Hex. unfold _sanity_check, mbind, mlift.
    destruct (sanity_checks self) as [e|[]]; [done|].
    destruct (clear_calibrated_loop_spec (dict_values (motor_limits self))
                self w) as (s1 & w1 & -> & Hlim & _ & Hcl & _).
    intros [= <- <-]. destruct (Hcl Hex) as [Hflag Hfile].
    split_and!; [done..|]. apply Hfalse. by rewrite Hlim. }
  split_and!; [apply Hiff | done | intros self Hex; by apply Hfalse
               | exact Hcheck |].
  intros config w self' w' Hex Hinit. by eapply Hcheck in Hinit.
Qed.

Lemma is_calibrated_recomputed_from_limits_witness :
  calib_get_calibrated (calib_file stale_world) = true
  ∧ ∃ self' w',
      __init__ demo_config stale_world = (Ok self', w')
      ∧ calibrated self' = false
      ∧ dict_get "calibrated" (calib_file w') = Some (YBool false)
      ∧ is_calibrated self' = false
      ∧ is_calibrated (set_calibrated true self') = false.
Proof.
  destruct is_calibrated_recomputed_from_limits
    as (_ & _ & Hflag & _ & Hinit).
  assert (Hex : Exists (λ l, ¬ both_defined l)
                  (dict_values (calib_get_motor_limits (calib_file stale_world)))).
  { apply Exists_cons_tl, Exists_cons_hd. intros [[x [=]] _]. }
  split; [reflexivity|].
  eexists _, _. split; [vm_compute; reflexivity|].
  destruct (Hinit demo_config stale_world _ _ Hex eq_refl)
    as (Hobj & Hfile & Hcal).
  split_and!; [exact Hobj | exact Hfile | exact Hcal |].
  apply Hflag. exact Hex.
Defined.

(** A table without entries counts as calibrated: there is no pair to
    find incomplete. *)
Example is_calibrated_empty_table :
  is_calibrated (set_motor_limits [] demo_hand) = true.
Proof. reflexivity. Qed.

(** C4.  [is_calibrated] is to answer true only when every motor has both
    bounds.  It does not on a hand that has never been calibrated: the
    constructor, given a calibration file without a limit table, returns a
    hand with two declared motors and an empty limit table, and
    [is_calibrated] answers true although no motor has a bound, where the
    table that [calibrate] starts from, with an entry per declared motor,
    gives false.  When such a file says [calibrated: true], the
    constructor keeps the flag and leaves the file as it is. *)
Theorem never_calibrated_hand_counts_as_calibrated :
  (∃ self,
     __init__ demo_config fresh_world = (Ok self, fresh_world)
     ∧ motor_ids self = [1; 2]%Z
     ∧ motor_limits self = []
     ∧ calibrated self = false
     ∧ is_calibrated self = true
     ∧ is_calibrated (set_motor_limits (empty_limits self) self) = false)
  ∧ (∃ self,
       __init__ demo_config demo_world = (Ok self, demo_world)
       ∧ motor_limits self = []
       ∧ calibrated self = true
       ∧ calib_file demo_world = [("calibrated", YBool true)]
       ∧ is_calibrated self = true).
Proof.
  split.
  - eexists. split; [vm_compute; reflexivity|]. by split_and!.
  - eexists. split; [vm_compute; reflexivity|]. by split_and!.
Qed.

(** Construction leaves the two maps as it set them: the inverse map of
    every constructed object is the comprehension over its source map. *)
Lemma clear_calibrated_loop_maps values : ∀ self w self' w',
  clear_calibrated_loop self values w = (Ok self', w') →
  joint_to_motor_map self' = joint_to_motor_map self
  ∧ motor_to_joint_map self' = motor_to_joint_map self.
Proof.
  induction values as [|motor_limit rest IH]; intros self w self' w'; simpl.
  - by intros [= <- <-].
  - destruct (any_limit_None motor_limit); [|apply IH].
    unfold mbind, update_yaml. simpl. intros Hrun. by apply IH in Hrun.
Qed.

Lemma init_inverse_map config w self w' :
  __init__ config w = (Ok self, w') →
  motor_to_joint_map self = invert_map (joint_to_motor_map self).
Proof.
  unfold __init__, _sanity_check, mbind, mlift.
  destruct (sanity_checks _) as [e|[]]; [done|].
  intros Hrun. apply clear_calibrated_loop_maps in Hrun as [-> ->]. done.
Qed.

(** ** Motor positions to joint positions *)

Lemma rbind_Ok {A B} (r : result A) (k : A → result B) (b : B) :
  rbind r k = Ok b → ∃ a, r = Ok a ∧ k a = Ok b.
Proof. destruct r as [e|a]; [done|]. intros H. by exists a. Qed.

Lemma dict_item_Ok {K V} `{EqDecision K} (k : K) (d : dict K V) (v : V) :
  dict_item k d = Ok v ↔ dict_get k d = Some v.
Proof.
  unfold dict_item. destruct (dict_get k d); split; intros [=]; by subst.
Qed.

(** One iteration of the loop of [_motor_to_joint_pos] writes the key of
    the motor at hand and nothing else. *)
Lemma motor_to_joint_loop_cons self motor_id pos rest acc res :
  motor_to_joint_loop self motor_id (pos :: rest) acc = Ok res →
  ∃ limit entry,
    dict_get motor_id (motor_limits self) = Some limit
    ∧ (any_limit_None limit = true → entry = None)
    ∧ (any_limit_None limit = false → is_Some entry)
    ∧ motor_to_joint_loop self (motor_id + 1) rest
        (dict_set (dict_get motor_id (motor_to_joint_map self)) entry acc)
      = Ok res.
Proof.
  simpl. intros H. apply rbind_Ok in H as (limit & Hlim & H).
  apply dict_item_Ok in Hlim. exists limit.
  destruct limit as [[lo|] [hi|]]; simpl.
  - apply rbind_Ok in H as (v & _ & H). exists (Some v).
    split_and!; eauto; done.
  - exists None. by split_and!.
  - exists None. by split_and!.
  - exists None. by split_and!.
Qed.

(** Keys that belong to no motor of the vector keep their entry. *)
Lemma motor_to_joint_loop_frame self motor_pos : ∀ motor_id acc res key,
  motor_to_joint_loop self motor_id motor_pos acc = Ok res →
  (∀ m, (motor_id ≤ m < motor_id + Z.of_nat (length motor_pos))%Z →
        dict_get m (motor_to_joint_map self) ≠ key) →
  dict_get key res = dict_get key acc.
Proof.
  induction motor_pos as [|pos rest IH]; intros motor_id acc res key Hrun Hkey.
  - simpl in Hrun. by injection Hrun as ->.
  - apply motor_to_joint_loop_cons in Hrun as (limit & entry & _ & _ & _ & Hrun).
    rewrite (IH _ _ _ key Hrun).
    + apply dict_get_set_ne, Hkey. simpl. lia.
    + intros m Hm. apply Hkey. simpl. lia.
Qed.


(** With the tables filled in, the conversion returns. *)
Lemma motor_to_joint_loop_total self motor_pos : ∀ motor_id acc,
  (∀ m, (motor_id ≤ m < motor_id + Z.of_nat (length motor_pos))%Z →
        motor_ready self m) →
  ∃ res, motor_to_joint_loop self motor_id motor_pos acc = Ok res.
Proof.
  induction motor_pos as [|pos rest IH]; intros motor_id acc Hready.
  - by eexists.
  - destruct (Hready motor_id) as (limit & Hlim & Hrest); [simpl; lia|].
    simpl. unfold dict_item at 1. rewrite Hlim. simpl.
    assert (Hnext : ∀ m,
      (motor_id + 1 ≤ m < motor_id + 1 + Z.of_nat (length rest))%Z →
      motor_ready self m) by (intros m Hm; apply Hready; simpl; lia).
    destruct limit as [[lo|] [hi|]]; try by apply IH.
    destruct Hrest as (joint & rom & ratio & Hj & Hrom & Hratio);
      [split; eauto|].
    unfold motor_to_joint_value, dict_item. rewrite Hj, Hrom, Hratio. simpl.
    by apply IH.
Qed.


Lemma demo_hand_map_wf : dict_wf (joint_to_motor_map demo_hand).
Proof. unfold dict_wf. apply (bool_decide_unpack _). reflexivity. Qed.

Lemma demo_hand_tables_ready : tables_ready demo_hand 2.
Proof.
  intros m Hm. assert (m = 1 ∨ m = 2)%Z as [-> | ->] by lia.
  - eexists. split; [reflexivity|]. intros _.
    eexists _, _, _. split_and!; reflexivity.
  - eexists. split; [reflexivity|]. intros [[x [=]] _].
Qed.


(** ** Joint positions to motor positions *)

Lemma py_index_lt n k i : py_index n k = Some i → i < n.
Proof.
  unfold py_index. repeat case_decide; intros [= <-]; lia.
Qed.

Lemma py_index_pos n k :
  (1 ≤ k ≤ Z.of_nat n)%Z → py_index n (k - 1) = Some (Z.to_nat (k - 1)).
Proof.
  intros Hk. unfold py_index. rewrite decide_True by lia.
  by rewrite decide_True by lia.
Qed.

Lemma seq_store_Ok {A} (a a' : list A) k x :
  seq_store a k x = Ok a' ↔
  ∃ i, py_index (length a) k = Some i ∧ a' = <[i := x]> a.
Proof.
  unfold seq_store. destruct (py_index (length a) k) as [i|].
  - split; [intros [= <-]; eauto | intros (? & [= <-] & ->); done].
  - split; [done | intros (? & [=] & _)].
Qed.

(** What one passing iteration of the loop of [_joint_to_motor_pos] does
    for a joint that the map knows. *)
Lemma joint_to_motor_loop_cons self joint pos rest motor_pos res motor_id :
  joint_to_motor_loop self ((joint, pos) :: rest) motor_pos = Ok res →
  dict_get joint (joint_to_motor_map self) = Some motor_id →
  ∃ lo hi rom ratio i,
    dict_get motor_id (motor_limits self) = Some (Some lo, Some hi)
    ∧ dict_get joint (joint_roms self) = Some rom
    ∧ dict_get motor_id (joint_to_motor_ratios self) = Some ratio
    ∧ py_index (length motor_pos) (motor_id - 1) = Some i
    ∧ joint_to_motor_loop self rest
        (<[i := (lo + (pos - rom.1) * ratio)%Qc]> motor_pos) = Ok res.
Proof.
  intros H Hm. simpl in H. rewrite Hm in H.
  apply rbind_Ok in H as ([[lo|] [hi|]] & Hlim & H); try done.
  apply rbind_Ok in H as (rom & Hrom & H).
  apply rbind_Ok in H as (ratio & Hratio & H).
  apply rbind_Ok in H as (mp' & Hstore & H).
  apply seq_store_Ok in Hstore as (i & Hi & ->).
  apply dict_item_Ok in Hlim, Hrom, Hratio.
  by exists lo, hi, rom, ratio, i.
Qed.

Lemma joint_to_motor_loop_length self joint_pos : ∀ motor_pos res,
  joint_to_motor_loop self joint_pos motor_pos = Ok res →
  length res = length motor_pos.
Proof.
  induction joint_pos as [|[joint pos] rest IH]; intros motor_pos res Hrun.
  - by injection Hrun as ->.
  - destruct (dict_get joint (joint_to_motor_map self)) as [motor_id|] eqn:Hm.
    + eapply joint_to_motor_loop_cons in Hrun
        as (lo & hi & rom & ratio & i & _ & _ & _ & _ & Hrun); [|done].
      apply IH in Hrun. by rewrite length_insert in Hrun.
    + simpl in Hrun. rewrite Hm in Hrun. by apply IH.
Qed.

(** The frame of the loop: a slot that no mentioned joint addresses keeps
    the position it had. *)
Lemma joint_to_motor_loop_frame self joint_pos : ∀ motor_pos res i,
  joint_to_motor_loop self joint_pos motor_pos = Ok res →
  (∀ joint pos motor_id,
     (joint, pos) ∈ joint_pos →
     dict_get joint (joint_to_motor_map self) = Some motor_id →
     py_index (length motor_pos) (motor_id - 1) ≠ Some i) →
  res !! i = motor_pos !! i.
Proof.
  induction joint_pos as [|[joint pos] rest IH]; intros motor_pos res i Hrun Hfree.
  - by injection Hrun as ->.
  - destruct (dict_get joint (joint_to_motor_map self)) as [motor_id|] eqn:Hm.
    + eapply joint_to_motor_loop_cons in Hrun
        as (lo & hi & rom & ratio & i' & _ & _ & _ & Hi' & Hrun); [|done].
      rewrite (IH _ _ i Hrun).
      * apply list_lookup_insert_ne. intros ->.
        by eapply (Hfree joint pos motor_id); [left|..].
      * intros joint' pos' motor_id' Hin Hm'. rewrite length_insert.
        apply (Hfree joint' pos' motor_id'); [by right | done].
    + simpl in Hrun. rewrite Hm in Hrun. apply (IH _ _ i Hrun).
      intros joint' pos' motor_id' Hin. apply (Hfree joint' pos'). by right.
Qed.

(** The slot of a mentioned joint ends up holding the affine image of the
    joint's position, provided no other entry of the mapping addresses the
    same slot. *)
Lemma joint_to_motor_loop_value self joint_pos :
  ∀ motor_pos res joint pos motor_id lo hi rom ratio i,
  joint_to_motor_loop self joint_pos motor_pos = Ok res →
  dict_get joint (joint_to_motor_map self) = Some motor_id →
  dict_get motor_id (motor_limits self) = Some (Some lo, Some hi) →
  dict_get joint (joint_roms self) = Some rom →
  dict_get motor_id (joint_to_motor_ratios self) = Some ratio →
  py_index (length motor_pos) (motor_id - 1) = Some i →
  (∀ joint' pos' motor_id',
     (joint', pos') ∈ joint_pos →
     dict_get joint' (joint_to_motor_map self) = Some motor_id' →
     py_index (length motor_pos) (motor_id' - 1) = Some i →
     joint' = joint ∧ pos' = pos) →
  (joint, pos) ∈ joint_pos
  ∨ motor_pos !! i = Some (lo + (pos - rom.1) * ratio)%Qc →
  res !! i = Some (lo + (pos - rom.1) * ratio)%Qc.
Proof.
  induction joint_pos as [|[joint0 pos0] rest IH];
    intros motor_pos res joint pos motor_id lo hi rom ratio i
           Hrun Hm Hlim Hrom Hratio Hi Huniq Hstate.
  - injection Hrun as ->. destruct Hstate as [Hin|?]; [|done].
    by apply elem_of_nil in Hin.
  - destruct (dict_get joint0 (joint_to_motor_map self)) as [motor_id0|] eqn:Hm0.
    + eapply joint_to_motor_loop_cons in Hrun
        as (lo0 & hi0 & rom0 & ratio0 & i0 & Hlim0 & Hrom0 & Hratio0 & Hi0
            & Hrun); [|done].
      eapply (IH _ _ joint pos motor_id lo hi rom ratio i Hrun);
        try done; try (by rewrite length_insert).
      * intros joint' pos' motor_id' Hin Hm'. rewrite length_insert.
        apply Huniq; [by right | done].
      * destruct (decide (i0 = i)) as [->|Hne].
        -- right. destruct (Huniq joint0 pos0 motor_id0) as [-> ->];
             [by left | done | done |].
           assert (motor_id0 = motor_id) as -> by congruence.
           assert (lo0 = lo ∧ rom0 = rom ∧ ratio0 = ratio) as (-> & -> & ->)
             by (split_and!; congruence).
           apply list_lookup_insert_eq. by eapply py_index_lt.
        -- rewrite list_lookup_insert_ne by done.
           destruct Hstate as [Hin|?]; [|by right].
           apply elem_of_cons in Hin as [[= <- <-]|Hin]; [|by left].
           congruence.
    + simpl in Hrun. rewrite Hm0 in Hrun.
      eapply (IH _ _ joint pos motor_id lo hi rom ratio i Hrun); try done.
      * intros joint' pos' motor_id' Hin. apply (Huniq joint' pos'). by right.
      * destruct Hstate as [Hin|?]; [|by right].
        apply elem_of_cons in Hin as [[= <- <-]|Hin]; [congruence | by left].
Qed.

(** Joints that the map does not know are skipped. *)
Lemma joint_to_motor_loop_known self joint_pos : ∀ motor_pos,
  joint_to_motor_loop self joint_pos motor_pos
  = joint_to_motor_loop self (known_joints self joint_pos) motor_pos.
Proof.
  unfold known_joints.
  induction joint_pos as [|[joint pos] rest IH]; intros motor_pos; [done|].
  destruct (dict_get joint (joint_to_motor_map self)) as [motor_id|] eqn:Hm.
  - rewrite filter_cons_True by (simpl; rewrite Hm; eauto).
    simpl. rewrite Hm.
    destruct (dict_item motor_id (motor_limits self)) as [e|[[lo|] [hi|]]];
      simpl; try done.
    destruct (dict_item joint (joint_roms self)) as [e|rom]; simpl; [done|].
    destruct (dict_item motor_id (joint_to_motor_ratios self)) as [e|ratio];
      simpl; [done|].
    destruct (seq_store motor_pos (motor_id - 1) _) as [e|mp']; simpl; [done|].
    apply IH.
  - rewrite filter_cons_False by (simpl; rewrite Hm; by intros [? [=]]).
    simpl. rewrite Hm. apply IH.
Qed.

(** ** [set_joint_pos]: one read, one conversion, one write *)

Lemma joint_to_motor_pos_run self joint_pos w :
  _joint_to_motor_pos self joint_pos w
  = (joint_to_motor_loop self joint_pos (sensed w (reads w)), after_read w).
Proof. reflexivity. Qed.

Lemma set_joint_pos_raise self joint_pos w e :
  joint_to_motor_loop self joint_pos (sensed w (reads w)) = Raise e →
  set_joint_pos self joint_pos w = (Raise e, after_read w).
Proof.
  intros Hrun. unfold set_joint_pos, mbind.
  by rewrite joint_to_motor_pos_run, Hrun.
Qed.

Lemma set_joint_pos_return self joint_pos w res :
  joint_to_motor_loop self joint_pos (sensed w (reads w)) = Ok res →
  set_joint_pos self joint_pos w
  = if decide (length res = length (motor_ids self))
    then (Ok tt, after_write (motor_ids self) res (after_read (after_read w)))
    else (Raise (AssertionError count_mismatch_msg),
          after_read (after_read w)).
Proof.
  intros Hrun. unfold set_joint_pos, mbind.
  rewrite joint_to_motor_pos_run, Hrun. unfold Ok at 1.
  unfold _set_motor_pos, desired_array, mbind, get_motor_pos, read_pos, mlift.
  cbn [sensed reads writes calib_file after_read].
  by destruct (decide (length res = length (motor_ids self))).
Qed.

(** C7.  The vector that [_joint_to_motor_pos] returns has the length of
    the live vector it started from and agrees with it at every slot that
    no mentioned joint's motor addresses; with motor ids counted from 1,
    that is every index [i] such that no mentioned joint is mapped to
    motor [i + 1].  [set_joint_pos] then writes that very vector, once, so
    the motors of those slots are commanded to stay where they are. *)
Theorem joint_to_motor_keeps_unmentioned
    (self : OrcaHand) (joint_pos : dict string Qc) (w w' : World)
    (res : list Qc) :
  _joint_to_motor_pos self joint_pos w = (Ok res, w') →
  let live := sensed w (reads w) in
  length res = length live
  ∧ (∀ i,
       (∀ joint pos motor_id,
          (joint, pos) ∈ joint_pos →
          dict_get joint (joint_to_motor_map self) = Some motor_id →
          py_index (length live) (motor_id - 1) ≠ Some i) →
       res !! i = live !! i)
  ∧ (∀ i,
       (∀ joint pos motor_id,
          (joint, pos) ∈ joint_pos →
          dict_get joint (joint_to_motor_map self) = Some motor_id →
          (1 ≤ motor_id)%Z ∧ motor_id ≠ (Z.of_nat i + 1)%Z) →
       res !! i = live !! i)
  ∧ (length live = length (motor_ids self) →
     ∃ w'', set_joint_pos self joint_pos w = (Ok tt, w'')
            ∧ writes w'' = writes w ++ [(motor_ids self, res)]).
Proof.
  rewrite joint_to_motor_pos_run. intros [= Hrun <-] live. subst live.
  pose proof (joint_to_motor_loop_length _ _ _ _ Hrun) as Hlen.
  pose proof (λ i, joint_to_motor_loop_frame _ _ _ _ i Hrun) as Hframe.
  split_and!; [done | intros i; apply Hframe | |].
  - intros i Hfree. apply Hframe. intros joint pos motor_id Hin Hm Hi.
    destruct (Hfree joint pos motor_id Hin Hm) as [Hpos Hne].
    unfold py_index in Hi. repeat case_decide; simplify_eq; lia.
  - intros Hids. rewrite (set_joint_pos_return _ _ _ _ Hrun).
    rewrite decide_True by congruence. by eexists.
Qed.

Lemma joint_to_motor_keeps_unmentioned_witness :
  ∃ res w',
    _joint_to_motor_pos demo_hand [("thumb", Q2Qc 0.785)] demo_world
    = (Ok res, w')
    ∧ res !! 1 = sensed demo_world 0 !! 1
    ∧ ∃ w'', set_joint_pos demo_hand [("thumb", Q2Qc 0.785)] demo_world
             = (Ok tt, w'')
             ∧ writes w'' = [([1; 2]%Z, res)].
Proof.
  eexists _, _. split; [vm_compute; reflexivity|].
  edestruct (joint_to_motor_keeps_unmentioned demo_hand
               [("thumb", Q2Qc 0.785)] demo_world)
    as (_ & _ & Hidx & Hwrite); [vm_compute; reflexivity|].
  split.
  - apply Hidx. intros joint pos motor_id Hin Hm.
    apply list_elem_of_singleton in Hin as [= -> ->].
    vm_compute in Hm. injection Hm as <-. simpl. lia.
  - apply Hwrite. reflexivity.
Defined.

(** ** Commands to uncalibrated and to unknown joints *)

Lemma mentions_uncalibrated_tail self joint0 pos0 rest joint motor_id :
  mentions_uncalibrated self ((joint0, pos0) :: rest) joint motor_id →
  joint0 ≠ joint →
  mentions_uncalibrated self rest joint motor_id.
Proof.
  intros ([pos Hin] & Hm & Hlim) Hne. split_and!; [|done..].
  exists pos. apply elem_of_cons in Hin as [[= -> ->]|Hin]; done.
Qed.

Lemma mentions_uncalibrated_cons self joint0 pos0 rest joint motor_id :
  mentions_uncalibrated self rest joint motor_id →
  mentions_uncalibrated self ((joint0, pos0) :: rest) joint motor_id.
Proof.
  intros ([pos Hin] & Hm & Hlim). split_and!; [|done..].
  exists pos. by right.
Qed.

(** A mapping that mentions an uncalibrated joint never converts. *)
Lemma joint_to_motor_loop_raises self joint_pos joint motor_id :
  mentions_uncalibrated self joint_pos joint motor_id →
  ∀ motor_pos, ∃ e, joint_to_motor_loop self joint_pos motor_pos = Raise e.
Proof.
  induction joint_pos as [|[joint0 pos0] rest IH]; intros Hunc motor_pos.
  - destruct Hunc as ([pos Hin] & _). by apply elem_of_nil in Hin.
  - simpl.
    destruct (dict_get joint0 (joint_to_motor_map self)) as [motor_id0|] eqn:Hm0.
    + destruct (dict_item motor_id0 (motor_limits self))
        as [e|[[lo|] [hi|]]] eqn:Hlim0; simpl; eauto.
      destruct (dict_item joint0 (joint_roms self)) as [e|rom]; simpl; eauto.
      destruct (dict_item motor_id0 (joint_to_motor_ratios self))
        as [e|ratio]; simpl; eauto.
      destruct (seq_store motor_pos (motor_id0 - 1) _) as [e|mp']; simpl; eauto.
      apply IH. eapply mentions_uncalibrated_tail; [done|].
      intros ->. destruct Hunc as (_ & Hm & limit & Hlim & Hundef).
      apply dict_item_Ok in Hlim0. apply Hundef.
      assert (limit = (Some lo, Some hi)) as -> by congruence.
      split; eauto.
    + apply IH. eapply mentions_uncalibrated_tail; [done|].
      intros ->. destruct Hunc as (_ & Hm & _). congruence.
Qed.

(** When the tables are filled in for the mentioned joints, the exception
    is the [ValueError] that names an uncalibrated motor and its joint. *)
Lemma joint_to_motor_loop_not_calibrated self joint_pos joint motor_id :
  mentions_uncalibrated self joint_pos joint motor_id →
  ∀ motor_pos,
    mentioned_ready self joint_pos (length motor_pos) →
    ∃ joint' motor_id',
      mentions_uncalibrated self joint_pos joint' motor_id'
      ∧ joint_to_motor_loop self joint_pos motor_pos
        = Raise (ValueError (not_calibrated_msg motor_id' joint')).
Proof.
  induction joint_pos as [|[joint0 pos0] rest IH]; intros Hunc motor_pos Hready.
  - destruct Hunc as ([pos Hin] & _). by apply elem_of_nil in Hin.
  - assert (Hready' : ∀ n, n = length motor_pos → mentioned_ready self rest n).
    { intros n -> j p m Hin. apply (Hready j p m). by right. }
    simpl.
    destruct (dict_get joint0 (joint_to_motor_map self)) as [motor_id0|] eqn:Hm0.
    + destruct (Hready joint0 pos0 motor_id0) as (limit0 & Hlim0 & Hcomplete);
        [by left | done |].
      unfold dict_item at 1. rewrite Hlim0. simpl.
      destruct (decide (both_defined limit0)) as [Hdef|Hundef].
      * destruct (Hcomplete Hdef) as ([rom Hrom] & [ratio Hratio] & [i Hi]).
        destruct Hdef as [[lo Hlo] [hi Hhi]].
        destruct limit0 as [l0 h0]. simpl in Hlo, Hhi. subst l0 h0.
        unfold dict_item, seq_store. rewrite Hrom, Hratio, Hi. simpl.
        assert (Htail : mentions_uncalibrated self rest joint motor_id).
        { eapply mentions_uncalibrated_tail; [done|]. intros ->.
          destruct Hunc as (_ & Hm & l & Hl & Hu). apply Hu.
          assert (l = (Some lo, Some hi)) as -> by congruence.
          split; eauto. }
        destruct (IH Htail (<[i := (lo + (pos0 - rom.1) * ratio)%Qc]> motor_pos))
          as (joint' & motor_id' & Hunc' & Hrun).
        { apply Hready'. apply length_insert. }
        exists joint', motor_id'.
        split; [by apply mentions_uncalibrated_cons | done].
      * exists joint0, motor_id0. split.
        -- split_and!; [exists pos0; left | done | by exists limit0].
        -- destruct limit0 as [[lo|] [hi|]]; try done.
           exfalso. apply Hundef. split; eauto.
    + assert (Htail : mentions_uncalibrated self rest joint motor_id).
      { eapply mentions_uncalibrated_tail; [done|]. intros ->.
        destruct Hunc as (_ & Hm & _). congruence. }
      destruct (IH Htail motor_pos (Hready' _ eq_refl))
        as (joint' & motor_id' & Hunc' & Hrun).
      exists joint', motor_id'.
      split; [by apply mentions_uncalibrated_cons | done].
Qed.

(** X27.  A call of [set_joint_pos] whose mapping mentions a joint whose
    motor has a limit entry that lacks a bound raises, the exception
    comes out of the conversion [_joint_to_motor_pos], and the log of
    position writes is what it was before the call.  When the tables are
    filled in for the mentioned joints, the exception is the [ValueError]
    naming an uncalibrated motor of the mapping and its joint. *)
Theorem set_joint_pos_uncalibrated_raises
    (self : OrcaHand) (joint_pos : dict string Qc) (w : World)
    (joint : string) (motor_id : Z) :
  mentions_uncalibrated self joint_pos joint motor_id →
  (∃ e w',
     _joint_to_motor_pos self joint_pos w = (Raise e, w')
     ∧ set_joint_pos self joint_pos w = (Raise e, w')
     ∧ writes w' = writes w)
  ∧ (mentioned_ready self joint_pos (length (sensed w (reads w))) →
     ∃ joint' motor_id' w',
       mentions_uncalibrated self joint_pos joint' motor_id'
       ∧ set_joint_pos self joint_pos w
         = (Raise (ValueError (not_calibrated_msg motor_id' joint')), w')
       ∧ writes w' = writes w).
Proof.
  intros Hunc. split.
  - destruct (joint_to_motor_loop_raises _ _ _ _ Hunc (sensed w (reads w)))
      as [e Hrun].
    exists e, (after_read w). rewrite joint_to_motor_pos_run, Hrun.
    split_and!; [done | by apply set_joint_pos_raise | done].
  - intros Hready.
    destruct (joint_to_motor_loop_not_calibrated _ _ _ _ Hunc _ Hready)
      as (joint' & motor_id' & Hunc' & Hrun).
    exists joint', motor_id', (after_read w).
    split_and!; [done | by apply set_joint_pos_raise | done].
Qed.

Lemma demo_hand_mentioned_ready :
  mentioned_ready demo_hand [("thumb", Q2Qc 0.785); ("index", Q2Qc 0.1)] 2.
Proof.
  intros joint pos m Hin Hm.
  apply elem_of_cons in Hin as [[= -> ->]|Hin];
    [|apply list_elem_of_singleton in Hin as [= -> ->]];
    vm_compute in Hm; injection Hm as <-.
  - eexists. split; [reflexivity|]. intros _. split_and!; by eexists.
  - eexists. split; [reflexivity|]. intros [[x [=]] _].
Qed.

Lemma set_joint_pos_uncalibrated_raises_witness :
  (∃ w',
     set_joint_pos demo_hand [("thumb", Q2Qc 0.785); ("index", Q2Qc 0.1)]
       demo_world
     = (Raise (ValueError
                 "Motor 2 corresponding to joint index is not calibrated."),
        w')
     ∧ writes w' = [])
  ∧ ∃ joint' motor_id' w',
      set_joint_pos demo_hand [("thumb", Q2Qc 0.785); ("index", Q2Qc 0.1)]
        demo_world
      = (Raise (ValueError (not_calibrated_msg motor_id' joint')), w')
      ∧ writes w' = [].
Proof.
  destruct (set_joint_pos_uncalibrated_raises demo_hand
              [("thumb", Q2Qc 0.785); ("index", Q2Qc 0.1)] demo_world
              "index" 2) as [(e & w' & _ & Hset & Hlog) Hvalue].
  - split_and!.
    + exists (Q2Qc 0.1). right. left.
    + reflexivity.
    + exists (None, Some (Q2Qc 1)). split; [reflexivity|].
      intros [[x [=]] _].
  - split.
    + exists w'. split; [|exact Hlog].
      rewrite Hset. f_equal. vm_compute in Hset. by injection Hset as <- _.
    + destruct (Hvalue demo_hand_mentioned_ready)
        as (joint' & motor_id' & w'' & _ & Hset' & Hlog').
      by exists joint', motor_id', w''.
Defined.

(** C6.  A command to a joint whose motor has no bound is to raise the
    error that names the motor as not calibrated.  It does not on a hand
    that has never been calibrated: the constructor gives such a hand an
    empty limit table, the subscript [self.motor_limits[motor_id]] comes
    before the test for a missing bound, and the call raises [KeyError];
    with the table that [calibrate] starts from, an entry per declared
    motor, the same call raises the [ValueError] that names the motor.
    Either way nothing is written. *)
Theorem never_calibrated_hand_raises_KeyError :
  ∃ self,
    __init__ demo_config fresh_world = (Ok self, fresh_world)
    ∧ dict_get "thumb" (joint_to_motor_map self) = Some 1%Z
    ∧ dict_get 1%Z (motor_limits self) = None
    ∧ set_joint_pos self [("thumb", Q2Qc 0.5)] fresh_world
      = (Raise KeyError, after_read fresh_world)
    ∧ set_joint_pos (set_motor_limits (empty_limits self) self)
        [("thumb", Q2Qc 0.5)] fresh_world
      = (Raise (ValueError
                  "Motor 1 corresponding to joint thumb is not calibrated."),
         after_read fresh_world)
    ∧ writes (after_read fresh_world) = [].
Proof.
  eexists. split; [vm_compute; reflexivity|]. by split_and!.
Qed.

(** An unknown joint name does not abort the call: the entry is passed
    over and the thumb is commanded as if it had been alone. *)
Lemma unknown_joint_is_not_rejected :
  dict_get "wrist" (joint_to_motor_map demo_hand) = None
  ∧ (∃ w', set_joint_pos demo_hand
             [("wrist", Q2Qc 3); ("thumb", Q2Qc 0.785)] demo_world
           = (Ok tt, w')
           ∧ writes w' = [([1; 2]%Z, [Q2Qc 0; Q2Qc 0.5])])
  ∧ ¬ ∃ e w', set_joint_pos demo_hand
                [("wrist", Q2Qc 3); ("thumb", Q2Qc 0.785)] demo_world
              = (Raise e, w').
Proof.
  split; [reflexivity|]. split.
  - eexists. split; [vm_compute; reflexivity | reflexivity].
  - intros (e & w' & H). vm_compute in H. discriminate H.
Qed.

(** C8, as the code has it.  Joints that [joint_to_motor_map] does not
    know are passed over: the conversion and the whole of [set_joint_pos]
    behave, result, exception, reads and writes alike, as on the mapping
    restricted to the known joints; a mapping of unknown joints only
    rewrites the live vector unchanged. *)
Theorem set_joint_pos_skips_unknown_joints
    (self : OrcaHand) (joint_pos : dict string Qc) (w : World) :
  _joint_to_motor_pos self joint_pos w
  = _joint_to_motor_pos self (known_joints self joint_pos) w
  ∧ set_joint_pos self joint_pos w
    = set_joint_pos self (known_joints self joint_pos) w
  ∧ (known_joints self joint_pos = [] →
     _joint_to_motor_pos self joint_pos w
     = (Ok (sensed w (reads w)), after_read w)).
Proof.
  assert (Hconv : _joint_to_motor_pos self joint_pos w
                  = _joint_to_motor_pos self (known_joints self joint_pos) w).
  { rewrite !joint_to_motor_pos_run. f_equal. apply joint_to_motor_loop_known. }
  split_and!; [done | |].
  - unfold set_joint_pos, mbind. by rewrite Hconv.
  - intros Hnone. rewrite Hconv, Hnone. reflexivity.
Qed.

Lemma set_joint_pos_skips_unknown_joints_witness :
  _joint_to_motor_pos demo_hand [("wrist", Q2Qc 3)] demo_world
  = (Ok [Q2Qc 0.25; Q2Qc 0.5], after_read demo_world).
Proof.
  apply (proj2 (proj2 (set_joint_pos_skips_unknown_joints demo_hand
                         [("wrist", Q2Qc 3)] demo_world))).
  reflexivity.
Defined.

(** ** What [_sanity_check] checks about the joint-to-motor map *)

Lemma check_joint_to_motor_map_sound self items :
  check_joint_to_motor_map self items = Ok tt →
  ∀ joint motor_id, (joint, motor_id) ∈ items →
    joint ∈ joint_ids self ∧ joint ∈ dict_keys (joint_roms self)
    ∧ motor_id ∈ motor_ids self.
Proof.
  induction items as [|[joint0 m0] rest IH]; simpl; intros Hrun joint m Hin.
  - by apply elem_of_nil in Hin.
  - destruct (bool_decide (joint0 ∈ joint_ids self)) eqn:Hj; [|done].
    unfold dict_mem in Hrun.
    destruct (bool_decide (joint0 ∈ dict_keys (joint_roms self))) eqn:Hr;
      [|done].
    destruct (bool_decide (m0 ∈ motor_ids self)) eqn:Hm; [|done].
    simpl in Hrun. apply bool_decide_eq_true in Hj, Hr, Hm.
    apply elem_of_cons in Hin as [[= -> ->]|Hin]; [done | by apply IH].
Qed.

(** A configuration that passes has as many motors as joints and as map
    entries, and every entry of the map joins a declared joint that has a
    range of motion to a declared motor.  Nothing here tells two entries
    with the same motor apart. *)
Lemma sanity_checks_sound self :
  sanity_checks self = Ok tt →
  length (motor_ids self) = length (joint_ids self)
  ∧ length (motor_ids self) = length (joint_to_motor_map self)
  ∧ ∀ joint motor_id, (joint, motor_id) ∈ joint_to_motor_map self →
      joint ∈ joint_ids self ∧ joint ∈ dict_keys (joint_roms self)
      ∧ motor_id ∈ motor_ids self.
Proof.
  unfold sanity_checks. repeat case_bool_decide; simpl; try done.
  intros Hrun. apply rbind_Ok in Hrun as ([] & Hmap & _).
  split_and!; [done..|]. by apply check_joint_to_motor_map_sound.
Qed.

(** C9.  Construction is to fail fast when the joint-to-motor map is not a
    bijection between the declared joints and motors.  It does not: for
    the configuration in which both joints are mapped to motor 1 and none
    to motor 2, every check passes and [__init__] returns an object, whose
    inverse map has lost the thumb. *)
Theorem sanity_check_accepts_shared_motor :
  dict_get "thumb" (cfg_joint_to_motor_map shared_motor_config) = Some 1%Z
  ∧ dict_get "index" (cfg_joint_to_motor_map shared_motor_config) = Some 1%Z
  ∧ 2%Z ∈ cfg_motor_ids shared_motor_config
  ∧ (2%Z ∉ dict_values (cfg_joint_to_motor_map shared_motor_config))
  ∧ ∃ self w',
      __init__ shared_motor_config fresh_world = (Ok self, w')
      ∧ motor_to_joint_map self = [(1%Z, "index")].
Proof.
  split_and!; [reflexivity | reflexivity | | |].
  - apply (bool_decide_unpack _). reflexivity.
  - apply (bool_decide_unpack _). reflexivity.
  - eexists _, _. split; [vm_compute; reflexivity | reflexivity].
Qed.

(** ** The ratio loop of [calibrate] and the affine map *)

Lemma calib_ratios_other self items : ∀ ratios cj ratios' cj' m,
  calib_ratios self items ratios cj = Ok (ratios', cj') →
  m ∉ items.*1 →
  dict_get m ratios' = dict_get m ratios.
Proof.
  induction items as [|[m0 [[lo0|] [hi0|]]] rest IH];
    intros ratios cj ratios' cj' m Hrun Hnotin;
    try (rewrite fmap_cons in Hnotin; apply not_elem_of_cons in Hnotin
           as [Hne Hnotin]);
    simpl in Hrun.
  - by injection Hrun as <- <-.
  - apply rbind_Ok in Hrun as (joint & _ & Hrun).
    apply rbind_Ok in Hrun as (rom & _ & Hrun).
    case_decide; [done|].
    rewrite (IH _ _ _ _ m Hrun Hnotin). by apply dict_get_set_ne.
  - by apply (IH _ _ _ _ m Hrun).
  - by apply (IH _ _ _ _ m Hrun).
  - by apply (IH _ _ _ _ m Hrun).
Qed.

(** The ratio that the loop stores for a motor with both bounds. *)
Lemma calib_ratios_value self items :
  ∀ ratios cj ratios' cj' m lo hi joint rom,
  calib_ratios self items ratios cj = Ok (ratios', cj') →
  NoDup items.*1 →
  (m, (Some lo, Some hi)) ∈ items →
  dict_get m (motor_to_joint_map self) = Some joint →
  dict_get joint (joint_roms self) = Some rom →
  dict_get m ratios' = Some ((hi - lo) / (rom.2 - rom.1))%Qc
  ∧ rom.2 ≠ rom.1.
Proof.
  induction items as [|[m0 limit0] rest IH];
    intros ratios cj ratios' cj' m lo hi joint rom Hrun Hnd Hin Hj Hrom.
  - by apply elem_of_nil in Hin.
  - rewrite fmap_cons in Hnd. apply NoDup_cons in Hnd as [Hfresh Hnd].
    apply elem_of_cons in Hin as [[= <- <-]|Hin].
    + simpl in Hrun. unfold dict_item in Hrun. rewrite Hj in Hrun.
      simpl in Hrun. rewrite Hrom in Hrun. simpl in Hrun.
      case_decide as Hzero; [done|].
      rewrite (calib_ratios_other _ _ _ _ _ _ m Hrun Hfresh).
      split; [apply dict_get_set_eq|].
      intros Heq. apply Hzero. rewrite Heq. ring.
    + destruct limit0 as [[lo0|] [hi0|]]; simpl in Hrun;
        try by eapply IH.
      apply rbind_Ok in Hrun as (joint0 & _ & Hrun).
      apply rbind_Ok in Hrun as (rom0 & _ & Hrun).
      case_decide; [done|]. by eapply IH.
Qed.

(** C2.  For a joint whose motor has both bounds, the conversion stores
    [motor_limit_min + (joint_pos - rom_min) * ratio] in the motor's slot
    (no other entry of the mapping addressing that slot); the ratio that
    the ratio loop of [calibrate] computes for such a motor is
    [(motor_limit_max - motor_limit_min) / (rom_max - rom_min)], and the
    object the step leaves behind converts with it.  In the scenario,
    limits [-1, 1] and range of motion [0, 1.57] give the ratio
    [2 / 1.57], within a thousandth of 1.274, and joint position 0.785 is
    sent to motor position 0. *)
Theorem joint_to_motor_affine_formula :
  (∀ (self : OrcaHand) (joint_pos : dict string Qc) (motor_pos res : list Qc)
     joint pos motor_id lo hi rom ratio i,
     joint_to_motor_loop self joint_pos motor_pos = Ok res →
     (joint, pos) ∈ joint_pos →
     dict_get joint (joint_to_motor_map self) = Some motor_id →
     dict_get motor_id (motor_limits self) = Some (Some lo, Some hi) →
     dict_get joint (joint_roms self) = Some rom →
     dict_get motor_id (joint_to_motor_ratios self) = Some ratio →
     py_index (length motor_pos) (motor_id - 1) = Some i →
     (∀ joint' pos' motor_id',
        (joint', pos') ∈ joint_pos →
        dict_get joint' (joint_to_motor_map self) = Some motor_id' →
        py_index (length motor_pos) (motor_id' - 1) = Some i →
        joint' = joint ∧ pos' = pos) →
     res !! i = Some (lo + (pos - rom.1) * ratio)%Qc)
  ∧ (∀ (self : OrcaHand) table ratios' zeroed joint pos motor_id lo hi rom
       (motor_pos : list Qc) i,
       dict_wf table →
       calib_ratios self table (joint_to_motor_ratios self) []
       = Ok (ratios', zeroed) →
       dict_get motor_id table = Some (Some lo, Some hi) →
       dict_get motor_id (motor_to_joint_map self) = Some joint →
       dict_get joint (joint_to_motor_map self) = Some motor_id →
       dict_get joint (joint_roms self) = Some rom →
       py_index (length motor_pos) (motor_id - 1) = Some i →
       let ratio := ((hi - lo) / (rom.2 - rom.1))%Qc in
       dict_get motor_id ratios' = Some ratio
       ∧ joint_to_motor_loop (after_step self table ratios') [(joint, pos)]
           motor_pos
         = Ok (<[i := (lo + (pos - rom.1) * ratio)%Qc]> motor_pos))
  ∧ (∃ ratio zeroed,
       calib_ratios scenario_hand (motor_limits scenario_hand) [] []
       = Ok ([(1%Z, ratio)], zeroed)
       ∧ ratio = (Q2Qc 2 / Q2Qc 1.57)%Qc
       ∧ (Qcabs (ratio - Q2Qc 1.274) < Q2Qc 0.001)%Qc
       ∧ joint_to_motor_loop
           (after_step scenario_hand (motor_limits scenario_hand)
              [(1%Z, ratio)])
           [("thumb", Q2Qc 0.785)] [Q2Qc 0.25; Q2Qc 0.5]
         = Ok [Q2Qc 0; Q2Qc 0.5]).
Proof.
  split_and!.
  - intros self joint_pos motor_pos res joint pos motor_id lo hi rom ratio i
      Hrun Hin Hm Hlim Hrom Hratio Hi Huniq.
    eapply joint_to_motor_loop_value; eauto.
  - intros self table ratios' zeroed joint pos motor_id lo hi rom motor_pos i
      Hwf Hrun Hlim Hj Hm Hrom Hi ratio.
    destruct (calib_ratios_value _ _ _ _ _ _ motor_id lo hi joint rom
                Hrun Hwf (dict_get_Some_elem _ _ _ Hlim) Hj Hrom)
      as [Hratio _].
    split; [done|]. simpl. rewrite Hm. unfold dict_item. simpl.
    rewrite Hlim. simpl. rewrite Hrom. simpl. rewrite Hratio. simpl.
    unfold seq_store. by rewrite Hi.
  - eexists _, _. split; [vm_compute; reflexivity|].
    split; [reflexivity|]. split; [|reflexivity].
    apply (bool_decide_unpack _). reflexivity.
Qed.

Lemma joint_to_motor_affine_formula_witness :
  ∃ ratio,
    dict_get 1%Z [(1%Z, ratio)] = Some ratio
    ∧ ratio = ((Q2Qc 1 - Q2Qc (-1)) / (Q2Qc 1.57 - Q2Qc 0))%Qc
    ∧ joint_to_motor_loop
        (after_step scenario_hand (motor_limits scenario_hand) [(1%Z, ratio)])
        [("thumb", Q2Qc 0.785)] [Q2Qc 0.25; Q2Qc 0.5]
      = Ok (<[0 := (Q2Qc (-1) + (Q2Qc 0.785 - Q2Qc 0) * ratio)%Qc]>
              [Q2Qc 0.25; Q2Qc 0.5])
    ∧ (<[0 := (Q2Qc (-1) + (Q2Qc 0.785 - Q2Qc 0) * ratio)%Qc]>
         [Q2Qc 0.25; Q2Qc 0.5]) !! 0
      = Some (Q2Qc (-1) + (Q2Qc 0.785 - Q2Qc 0) * ratio)%Qc.
Proof.
  destruct joint_to_motor_affine_formula as (Hgeneral & Hstep & _).
  destruct (Hstep scenario_hand (motor_limits scenario_hand)
              [(1%Z, (Q2Qc 2 / Q2Qc 1.57)%Qc)] [("thumb", 0%Qc)]
              "thumb" (Q2Qc 0.785) 1%Z (Q2Qc (-1)) (Q2Qc 1)
              (Q2Qc 0, Q2Qc 1.57) [Q2Qc 0.25; Q2Qc 0.5] 0)
    as [Hratio Hrun].
  - apply (bool_decide_unpack _). reflexivity.
  - vm_compute. reflexivity.
  - reflexivity.
  - reflexivity.
  - reflexivity.
  - reflexivity.
  - reflexivity.
  - exists (Q2Qc 2 / Q2Qc 1.57)%Qc. split; [reflexivity|].
    split; [reflexivity|]. split; [exact Hrun|].
    apply (Hgeneral _ _ _ _ "thumb" _ 1%Z (Q2Qc (-1)) (Q2Qc 1)
             (Q2Qc 0, Q2Qc 1.57) _ 0 Hrun); try reflexivity.
    + left.
    + intros joint' pos' motor_id' Hin _ _.
      by apply list_elem_of_singleton in Hin as [= -> ->].
Defined.

(** ** Stall detection *)

Lemma np_allclose_Forall a b atol :
  np_allclose a b atol = true
  ↔ Forall (λ x, (Qcabs (x - b) ≤ atol + rtol * Qcabs b)%Qc) a.
Proof.
  unfold np_allclose. induction a as [|x a IH]; simpl.
  - split; [constructor | done].
  - rewrite Forall_cons, <- IH, andb_true_iff, bool_decide_eq_true. done.
Qed.

Lemma seq_item_0 {A} (a : list A) :
  seq_item a 0 = match a with x :: _ => Ok x | [] => Raise IndexError end.
Proof. by destruct a. Qed.

Lemma at_limit_true self buf :
  at_limit self buf = Ok true
  ↔ length buf = calib_num_stable self
    ∧ ∃ first, head buf = Some first
               ∧ Forall (within_tolerance self first) buf.
Proof.
  unfold at_limit, within_tolerance. case_decide as Hlen.
  - rewrite seq_item_0. destruct buf as [|first rest]; unfold rbind, Ok, Raise.
    + split; [done | by intros (_ & first & [=] & _)].
    + split.
      * intros Heq.
        assert (Hclose : np_allclose (first :: rest) first
                           (calib_threshold self) = true) by congruence.
        apply np_allclose_Forall in Hclose. eauto.
      * intros (_ & first' & [= <-] & Hclose).
        f_equal. by apply np_allclose_Forall.
  - split; [done | by intros [? _]].
Qed.

Lemma record_limit_flex motor_id avg lims lo hi :
  dict_get motor_id lims = Some (lo, hi) →
  record_limit motor_id 1 avg lims = Ok (dict_set motor_id (lo, Some avg) lims).
Proof.
  intros Hl. unfold record_limit, dict_item. rewrite Hl. reflexivity.
Qed.

Lemma record_limit_extend motor_id avg lims lo hi :
  dict_get motor_id lims = Some (lo, hi) →
  record_limit motor_id (-1) avg lims
  = Ok (dict_set motor_id (Some avg, hi) lims).
Proof.
  intros Hl. unfold record_limit, dict_item. simpl. rewrite Hl. reflexivity.
Qed.

(** What the sampling body does for a motor that is still moving. *)
Lemma calib_observe_moving self curr_pos motor_id st buf x direction lo hi
    joint stable :
  dict_get motor_id (motor_reached_limit st) = Some false →
  dict_get motor_id (position_buffers st) = Some buf →
  seq_item curr_pos (motor_id - 1) = Ok x →
  dict_get motor_id (directions st) = Some (direction_sign direction) →
  dict_get motor_id (limits st) = Some (lo, hi) →
  dict_get motor_id (motor_to_joint_map self) = Some joint →
  at_limit self (deque_append (calib_num_stable self) buf x) = Ok stable →
  ∃ st',
    calib_observe self curr_pos motor_id st = Ok st'
    ∧ dict_get motor_id (position_buffers st')
      = Some (deque_append (calib_num_stable self) buf x)
    ∧ dict_get motor_id (motor_reached_limit st') = Some stable
    ∧ dict_get motor_id (limits st')
      = Some (if stable then
                let avg := np_mean (deque_append (calib_num_stable self) buf x)
                in if decide (direction = "flex") then (lo, Some avg)
                   else (Some avg, hi)
              else (lo, hi)).
Proof.
  intros Hreached Hbuf Hx Hdir Hlim Hj Hstable.
  unfold calib_observe, dict_item. rewrite Hreached. simpl.
  rewrite Hbuf. simpl. rewrite Hx. simpl. rewrite Hstable. simpl.
  destruct stable.
  - rewrite Hj. simpl. rewrite Hdir. simpl.
    unfold direction_sign. destruct (decide (direction = "flex")).
    + rewrite (record_limit_flex _ _ _ _ _ Hlim). simpl.
      eexists. split; [done|]. simpl. by rewrite !dict_get_set_eq.
    + rewrite (record_limit_extend _ _ _ _ _ Hlim). simpl.
      eexists. split; [done|]. simpl. by rewrite !dict_get_set_eq.
  - eexists. split; [done|]. simpl. by rewrite dict_get_set_eq.
Qed.

(** The test is not an absolute tolerance alone: this window is full and
    judged stable although one of its samples is further than
    [calib_threshold] from the first. *)
Lemma stall_test_adds_relative_tolerance :
  length far_samples = calib_num_stable demo_hand
  ∧ at_limit demo_hand far_samples = Ok true
  ∧ ¬ Forall (λ x, (Qcabs (x - Q2Qc 100) ≤ calib_threshold demo_hand)%Qc)
        far_samples.
Proof.
  split; [reflexivity|]. split; [reflexivity|].
  intros Hall. apply Forall_cons in Hall as [_ Hall].
  apply Forall_cons in Hall as [Hfar _].
  revert Hfar. apply (bool_decide_unpack _). reflexivity.
Qed.

(** C5, as the code has it.  The stall test holds exactly when the window
    has [calib_num_stable] samples and each of them is within
    [calib_threshold + rtol * |first|] of the first.  For a motor still
    moving, the body of the sampling loop appends the sample, and when the
    test holds marks the motor and stores the mean of the window, as the
    upper bound for [flex] and as the lower bound otherwise; when it does
    not hold, mark and bounds stay.  The scenario's five samples pass the
    test, each within 0.01 of the first, and their mean is 0.5008. *)
Theorem stall_detection_records_mean :
  (∀ (self : OrcaHand) (buf : list Qc),
     at_limit self buf = Ok true
     ↔ length buf = calib_num_stable self
       ∧ ∃ first, head buf = Some first
                  ∧ Forall (within_tolerance self first) buf)
  ∧ (∀ (self : OrcaHand) curr_pos motor_id st buf x direction lo hi joint
       stable,
       dict_get motor_id (motor_reached_limit st) = Some false →
       dict_get motor_id (position_buffers st) = Some buf →
       seq_item curr_pos (motor_id - 1) = Ok x →
       dict_get motor_id (directions st) = Some (direction_sign direction) →
       dict_get motor_id (limits st) = Some (lo, hi) →
       dict_get motor_id (motor_to_joint_map self) = Some joint →
       at_limit self (deque_append (calib_num_stable self) buf x)
       = Ok stable →
       ∃ st',
         calib_observe self curr_pos motor_id st = Ok st'
         ∧ dict_get motor_id (position_buffers st')
           = Some (deque_append (calib_num_stable self) buf x)
         ∧ dict_get motor_id (motor_reached_limit st') = Some stable
         ∧ dict_get motor_id (limits st')
           = Some (if stable then
                     let avg :=
                       np_mean (deque_append (calib_num_stable self) buf x)
                     in if decide (direction = "flex") then (lo, Some avg)
                        else (Some avg, hi)
                   else (lo, hi)))
  ∧ (calib_num_stable demo_hand = 5
     ∧ calib_threshold demo_hand = Q2Qc 0.01
     ∧ at_limit demo_hand scenario_samples = Ok true
     ∧ Forall (λ x, (Qcabs (x - Q2Qc 0.50) ≤ Q2Qc 0.01)%Qc) scenario_samples
     ∧ np_mean scenario_samples = Q2Qc 0.5008).
Proof.
  split; [apply at_limit_true|]. split.
  - intros. by eapply calib_observe_moving.
  - split_and!; [reflexivity | reflexivity | reflexivity | |].
    + apply (bool_decide_unpack _). reflexivity.
    + apply Qc_is_canon. reflexivity.
Qed.

Lemma stall_detection_records_mean_witness :
  ∃ st',
    calib_observe demo_hand [Q2Qc 0.499; Q2Qc 0.5] 1 scenario_state = Ok st'
    ∧ dict_get 1%Z (position_buffers st') = Some scenario_samples
    ∧ dict_get 1%Z (motor_reached_limit st') = Some true
    ∧ dict_get 1%Z (limits st') = Some (None, Some (np_mean scenario_samples)).
Proof.
  destruct stall_detection_records_mean as (_ & Hbody & _).
  apply (Hbody demo_hand [Q2Qc 0.499; Q2Qc 0.5] 1%Z scenario_state
           [Q2Qc 0.50; Q2Qc 0.505; Q2Qc 0.498; Q2Qc 0.502] (Q2Qc 0.499)
           "flex" None None "thumb" true); reflexivity.
Defined.

(** ** The round trip *)

(** A calibrated motor of the vector is reported with the affine image of
    its position. *)
Lemma motor_to_joint_loop_calibrated self motor_pos :
  ∀ motor_id acc res m joint lo hi rom ratio x,
  motor_to_joint_loop self motor_id motor_pos acc = Ok res →
  (motor_id ≤ m)%Z →
  motor_pos !! Z.to_nat (m - motor_id) = Some x →
  dict_get m (motor_to_joint_map self) = Some joint →
  (∀ m', dict_get m' (motor_to_joint_map self) = Some joint → m' = m) →
  dict_get m (motor_limits self) = Some (Some lo, Some hi) →
  dict_get joint (joint_roms self) = Some rom →
  dict_get m (joint_to_motor_ratios self) = Some ratio →
  dict_get (Some joint) res
  = Some (Some (np_radd rom.1 (np_div (x - lo)%Qc ratio))).
Proof.
  induction motor_pos as [|pos rest IH];
    intros motor_id acc res m joint lo hi rom ratio x
           Hrun Hm Hx Hj Hinj Hlim Hrom Hratio; [done|].
  destruct (decide (m = motor_id)) as [->|Hne].
  - replace (Z.to_nat (motor_id - motor_id)) with 0 in Hx by lia.
    injection Hx as ->.
    simpl in Hrun. unfold dict_item in Hrun at 1. rewrite Hlim in Hrun.
    simpl in Hrun. unfold motor_to_joint_value, dict_item in Hrun.
    rewrite Hj, Hrom, Hratio in Hrun. simpl in Hrun.
    rewrite (motor_to_joint_loop_frame _ _ _ _ _ (Some joint) Hrun).
    + apply dict_get_set_eq.
    + intros m' Hm' Hj'. apply Hinj in Hj'. lia.
  - apply motor_to_joint_loop_cons in Hrun
      as (limit' & entry & _ & _ & _ & Hrun).
    eapply (IH _ _ _ m joint lo hi rom ratio x Hrun); try done; [lia|].
    replace (Z.to_nat (m - motor_id)) with (S (Z.to_nat (m - (motor_id + 1))))
      in Hx by lia.
    done.
Qed.

(** With every mentioned joint calibrated, the conversion returns. *)
Lemma joint_to_motor_loop_total self joint_pos : ∀ motor_pos,
  mentioned_calibrated self joint_pos (length motor_pos) →
  ∃ res, joint_to_motor_loop self joint_pos motor_pos = Ok res.
Proof.
  induction joint_pos as [|[joint pos] rest IH]; intros motor_pos Hcal.
  - by eexists.
  - destruct (Hcal joint pos) as
      (m & lo & hi & rom & ratio & Hm & Hrange & Hlim & Hrom & Hratio & _);
      [left|].
    simpl. rewrite Hm. unfold dict_item. rewrite Hlim. simpl.
    rewrite Hrom. simpl. rewrite Hratio. simpl.
    unfold seq_store. rewrite py_index_pos by done. simpl.
    apply IH. intros joint' pos' Hin. rewrite length_insert.
    apply (Hcal joint' pos'). by right.
Qed.

Lemma round_trip_value (lo pos rom_min ratio : Qc) :
  ratio ≠ 0%Qc →
  np_radd rom_min (np_div (lo + (pos - rom_min) * ratio - lo)%Qc ratio)
  = Finite pos.
Proof.
  intros Hratio. unfold np_div. rewrite decide_False by done. simpl.
  f_equal. field. done.
Qed.

(** The law fails for a motor without travel: the ratio agrees with the
    bounds, the command goes through, and the joint reads back as the
    non-finite value of a division by zero. *)
Lemma round_trip_fails_without_travel :
  dict_get 1%Z (motor_limits jammed_hand)
  = Some (Some (Q2Qc 0.5), Some (Q2Qc 0.5))
  ∧ dict_get 1%Z (joint_to_motor_ratios jammed_hand)
    = Some ((Q2Qc 0.5 - Q2Qc 0.5) / (Q2Qc 1.57 - Q2Qc 0))%Qc
  ∧ ∃ motor_pos joint_pos',
      joint_to_motor_loop jammed_hand [("thumb", Q2Qc 0.785)] [Q2Qc 0.25]
      = Ok motor_pos
      ∧ _motor_to_joint_pos jammed_hand motor_pos = Ok joint_pos'
      ∧ dict_get (Some "thumb") joint_pos' = Some (Some NotFinite)
      ∧ dict_get (Some "thumb") joint_pos'
        ≠ Some (Some (Finite (Q2Qc 0.785))).
Proof.
  split; [reflexivity|]. split; [reflexivity|].
  eexists _, _. split; [vm_compute; reflexivity|].
  split; [vm_compute; reflexivity|]. split; [reflexivity | discriminate].
Qed.

(** C1, as the code has it.  Take a hand whose two maps are inverse to
    each other and whose tables are filled in for the motors of the live
    vector, and a mapping with distinct keys in which every joint is
    calibrated with a non-zero ratio.  Then [_joint_to_motor_pos] returns
    a vector, [_motor_to_joint_pos] returns a mapping for it, and that
    mapping holds, for every joint of the original one, exactly the
    position that was asked for. *)
Theorem round_trip_joint_motor_joint
    (self : OrcaHand) (joint_pos : dict string Qc) (w : World) :
  maps_inverse self →
  dict_wf joint_pos →
  tables_ready self (length (sensed w (reads w))) →
  mentioned_calibrated self joint_pos (length (sensed w (reads w))) →
  ∃ motor_pos w' joint_pos',
    _joint_to_motor_pos self joint_pos w = (Ok motor_pos, w')
    ∧ _motor_to_joint_pos self motor_pos = Ok joint_pos'
    ∧ ∀ joint pos, (joint, pos) ∈ joint_pos →
        dict_get (Some joint) joint_pos' = Some (Some (Finite pos)).
Proof.
  intros Hinv Hwf Hready Hcal. rewrite joint_to_motor_pos_run.
  set (live := sensed w (reads w)) in *.
  destruct (joint_to_motor_loop_total _ _ _ Hcal) as [motor_pos Hrun].
  pose proof (joint_to_motor_loop_length _ _ _ _ Hrun) as Hlen.
  destruct (motor_to_joint_loop_total self motor_pos 1 []) as [joint_pos' Hback].
  { intros m Hm. apply Hready. lia. }
  exists motor_pos, (after_read w), joint_pos'.
  split; [by rewrite Hrun|]. split; [done|].
  intros joint pos Hin.
  destruct (Hcal joint pos Hin) as
    (m & lo & hi & rom & ratio & Hm & Hrange & Hlim & Hrom & Hratio & Hnz).
  assert (Hslot : motor_pos !! Z.to_nat (m - 1)
                  = Some (lo + (pos - rom.1) * ratio)%Qc).
  { eapply (joint_to_motor_loop_value _ _ _ _ joint pos m lo hi rom ratio
              _ Hrun); try done.
    - by apply py_index_pos.
    - intros joint' pos' m' Hin' Hm' Hi'.
      destruct (Hcal joint' pos' Hin') as (m'' & ? & ? & ? & ? & Hm'' & Hr' & _).
      assert (m'' = m') as -> by congruence.
      rewrite py_index_pos in Hi' by done. injection Hi' as Hi'.
      assert (m' = m) as -> by lia.
      assert (joint' = joint) as ->.
      { apply Hinv in Hm', Hm. congruence. }
      split; [done|].
      pose proof (dict_elem_get _ _ _ Hwf Hin) as H1.
      pose proof (dict_elem_get _ _ _ Hwf Hin') as H2. congruence.
    - by left. }
  rewrite (motor_to_joint_loop_calibrated _ _ _ _ _ m joint lo hi rom ratio
             (lo + (pos - rom.1) * ratio)%Qc Hback); try done.
  - by rewrite round_trip_value.
  - lia.
  - by apply Hinv.
  - intros m' Hm'. apply Hinv in Hm'. congruence.
Qed.

(** The comprehension of [__init__] inverts a map in which no two joints
    share a motor. *)
Lemma invert_map_fold_is_Some {A B} `{EqDecision B} (d : dict A B) :
  ∀ (acc : dict B A) (b : B),
    (∃ a, (a, b) ∈ d) ∨ is_Some (dict_get b acc) →
    is_Some (dict_get b (fold_left (λ acc kv, dict_set kv.2 kv.1 acc) d acc)).
Proof.
  induction d as [|[a0 b0] d IH]; intros acc b Hb; simpl.
  - destruct Hb as [[a Hin]|?]; [|done]. by apply elem_of_nil in Hin.
  - apply IH. destruct Hb as [[a Hin]|Hacc].
    + apply elem_of_cons in Hin as [[= -> ->]|Hin]; [right | left; eauto].
      rewrite dict_get_set_eq. eauto.
    + right. destruct (decide (b0 = b)) as [->|Hne].
      * rewrite dict_get_set_eq. eauto.
      * by rewrite dict_get_set_ne.
Qed.

Lemma invert_map_inverse `{EqDecision A} {B} `{EqDecision B} (d : dict A B) :
  dict_wf d →
  (∀ a1 a2 b, dict_get a1 d = Some b → dict_get a2 d = Some b → a1 = a2) →
  ∀ a b, dict_get a d = Some b ↔ dict_get b (invert_map d) = Some a.
Proof.
  intros Hwf Hinj a b. split.
  - intros Hab.
    destruct (invert_map_fold_is_Some d [] b) as [a' Ha'].
    { left. exists a. by apply dict_get_Some_elem. }
    fold (invert_map d) in Ha'. rewrite Ha'. f_equal.
    apply invert_map_elem, (dict_elem_get _ _ _ Hwf) in Ha'.
    by apply (Hinj a' a b).
  - intros Hba. by apply invert_map_elem, (dict_elem_get _ _ _ Hwf) in Hba.
Qed.

Lemma demo_hand_maps_inverse : maps_inverse demo_hand.
Proof.
  intros joint m. change (motor_to_joint_map demo_hand)
    with (invert_map (joint_to_motor_map demo_hand)).
  apply invert_map_inverse; [exact demo_hand_map_wf|].
  intros a1 a2 b. simpl. repeat case_decide; congruence.
Qed.

Lemma round_trip_joint_motor_joint_witness :
  ∃ motor_pos w' joint_pos',
    _joint_to_motor_pos demo_hand [("thumb", Q2Qc 0.785)] demo_world
    = (Ok motor_pos, w')
    ∧ _motor_to_joint_pos demo_hand motor_pos = Ok joint_pos'
    ∧ ∀ joint pos, (joint, pos) ∈ [("thumb", Q2Qc 0.785)] →
        dict_get (Some joint) joint_pos' = Some (Some (Finite pos)).
Proof.
  apply round_trip_joint_motor_joint.
  - exact demo_hand_maps_inverse.
  - apply (bool_decide_unpack _). reflexivity.
  - exact demo_hand_tables_ready.
  - intros joint pos Hin. apply list_elem_of_singleton in Hin as [= -> ->].
    eexists 1%Z, _, _, _, _.
    split; [reflexivity|]. split; [simpl; lia|].
    do 3 (split; [reflexivity|]).
    intros Hzero. discriminate Hzero.
Defined.

(** * Further properties of the code *)

(** ** What a constructed hand can be relied on for *)

Lemma check_joint_to_motor_map_spec self items :
  (check_joint_to_motor_map self items = Ok tt
   ↔ ∀ joint motor_id, (joint, motor_id) ∈ items →
       joint ∈ joint_ids self ∧ joint ∈ dict_keys (joint_roms self)
       ∧ motor_id ∈ motor_ids self)
  ∧ (check_joint_to_motor_map self items = Ok tt
     ∨ ∃ msg, check_joint_to_motor_map self items = Raise (ValueError msg)).
Proof.
  induction items as [|[joint0 m0] rest [IHiff IHor]]; simpl.
  - split; [|by left]. split; [|done]. intros _ ? ? Hin.
    by apply elem_of_nil in Hin.
  - unfold dict_mem.
    destruct (bool_decide (joint0 ∈ joint_ids self)) eqn:Hj; simpl.
    2:{ apply bool_decide_eq_false in Hj. split; [|right; eauto].
        split; [done|]. intros H. destruct (H joint0 m0) as [? _]; [left|done]. }
    destruct (bool_decide (joint0 ∈ dict_keys (joint_roms self))) eqn:Hr; simpl.
    2:{ apply bool_decide_eq_false in Hr. split; [|right; eauto].
        split; [done|]. intros H.
        destruct (H joint0 m0) as (_ & ? & _); [left|done]. }
    destruct (bool_decide (m0 ∈ motor_ids self)) eqn:Hm; simpl.
    2:{ apply bool_decide_eq_false in Hm. split; [|right; eauto].
        split; [done|]. intros H.
        destruct (H joint0 m0) as (_ & _ & ?); [left|done]. }
    apply bool_decide_eq_true in Hj, Hr, Hm. split; [|done].
    rewrite IHiff. split.
    + intros H joint m Hin. apply elem_of_cons in Hin as [[= -> ->]|Hin];
        [done | by apply H].
    + intros H joint m Hin. apply H. by right.
Qed.

Lemma check_joint_roms_spec self items :
  (check_joint_roms self items = Ok tt
   ↔ ∀ joint rom, (joint, rom) ∈ items →
       (rom.1 < rom.2)%Qc ∧ joint ∈ joint_ids self)
  ∧ (check_joint_roms self items = Ok tt
     ∨ ∃ msg, check_joint_roms self items = Raise (ValueError msg)).
Proof.
  assert (Hwidth : ∀ rom : Qc * Qc,
            (rom.2 - rom.1 ≤ 0)%Qc ↔ ¬ (rom.1 < rom.2)%Qc).
  { intros rom. rewrite (Qclt_minus_iff rom.1 rom.2). split.
    - intros Hle Hlt. by apply (Qcle_not_lt _ _ Hle).
    - apply Qcnot_lt_le. }
  induction items as [|[joint0 rom0] rest [IHiff IHor]]; simpl.
  - split; [|by left]. split; [|done]. intros _ ? ? Hin.
    by apply elem_of_nil in Hin.
  - destruct (bool_decide (rom0.2 - rom0.1 ≤ 0)%Qc) eqn:Hw; simpl.
    { apply bool_decide_eq_true, Hwidth in Hw. split; [|right; eauto].
      split; [done|]. intros H. destruct (H joint0 rom0) as [? _]; [left|done]. }
    apply bool_decide_eq_false in Hw. rewrite Hwidth in Hw.
    apply dec_stable in Hw.
    destruct (bool_decide (joint0 ∈ joint_ids self)) eqn:Hj; simpl.
    2:{ apply bool_decide_eq_false in Hj. split; [|right; eauto].
        split; [done|]. intros H.
        destruct (H joint0 rom0) as [_ ?]; [left|done]. }
    apply bool_decide_eq_true in Hj. split; [|done].
    rewrite IHiff. split.
    + intros H joint rom Hin. apply elem_of_cons in Hin as [[= -> ->]|Hin];
        [done | by apply H].
    + intros H joint rom Hin. apply H. by right.
Qed.

Lemma check_step_spec self items :
  (check_step self items = Ok tt
   ↔ ∀ joint direction, (joint, direction) ∈ items →
       joint ∈ joint_ids self ∧ direction ∈ ["flex"; "extend"])
  ∧ (check_step self items = Ok tt
     ∨ ∃ msg, check_step self items = Raise (ValueError msg)).
Proof.
  induction items as [|[joint0 d0] rest [IHiff IHor]]; simpl.
  - split; [|by left]. split; [|done]. intros _ ? ? Hin.
    by apply elem_of_nil in Hin.
  - destruct (bool_decide (joint0 ∈ joint_ids self)) eqn:Hj; simpl.
    2:{ apply bool_decide_eq_false in Hj. split; [|right; eauto].
        split; [done|]. intros H. destruct (H joint0 d0) as [? _]; [left|done]. }
    destruct (bool_decide (d0 ∈ ["flex"; "extend"])) eqn:Hd; simpl.
    2:{ apply bool_decide_eq_false in Hd. split; [|right; eauto].
        split; [done|]. intros H. destruct (H joint0 d0) as [_ ?]; [left|done]. }
    apply bool_decide_eq_true in Hj, Hd. split; [|done].
    rewrite IHiff. split.
    + intros H joint d Hin. apply elem_of_cons in Hin as [[= -> ->]|Hin];
        [done | by apply H].
    + intros H joint d Hin. apply H. by right.
Qed.

Lemma check_calib_sequence_spec self steps :
  (check_calib_sequence self steps = Ok tt
   ↔ ∀ step joint direction,
       step ∈ steps → (joint, direction) ∈ joints step →
       joint ∈ joint_ids self ∧ direction ∈ ["flex"; "extend"])
  ∧ (check_calib_sequence self steps = Ok tt
     ∨ ∃ msg, check_calib_sequence self steps = Raise (ValueError msg)).
Proof.
  induction steps as [|step0 rest [IHiff IHor]]; simpl.
  - split; [|by left]. split; [|done]. intros _ ? ? ? Hin.
    by apply elem_of_nil in Hin.
  - destruct (check_step_spec self (joints step0)) as [Hiff Hor].
    destruct (check_step self (joints step0)) as [e|[]] eqn:Hstep; simpl.
    + destruct Hor as [?|[msg Hmsg]]; [done|]. split; [|right; eauto].
      split; [done|]. intros H. exfalso.
      assert (Hok : inl e = Ok tt); [|done].
      apply Hiff. intros joint d Hin. apply (H step0); [left | done].
    + split; [|done]. rewrite IHiff. split.
      * intros H step joint d Hin Hjd.
        apply elem_of_cons in Hin as [->|Hin]; [|by eapply H].
        by apply (proj1 Hiff eq_refl).
      * intros H step joint d Hin. apply H. by right.
Qed.

Lemma sanity_checks_spec self :
  (sanity_checks self = Ok tt ↔ sane self)
  ∧ (sanity_checks self = Ok tt
     ∨ ∃ msg, sanity_checks self = Raise (ValueError msg)).
Proof.
  unfold sanity_checks, sane.
  destruct (check_joint_to_motor_map_spec self (joint_to_motor_map self))
    as [Hmap Hmap'].
  destruct (check_joint_roms_spec self (joint_roms self)) as [Hrom Hrom'].
  destruct (check_calib_sequence_spec self (calib_sequence self))
    as [Hseq Hseq'].
  case_bool_decide as H1; simpl; [|split; [split; [done|tauto] | right; eauto]].
  case_bool_decide as H2; simpl; [|split; [split; [done|tauto] | right; eauto]].
  case_bool_decide as H3; simpl; [|split; [split; [done|tauto] | right; eauto]].
  case_bool_decide as H4; simpl.
  { split; [|right; eauto]. split; [done|]. intros (_ & _ & _ & ? & _). lia. }
  destruct (check_joint_to_motor_map self (joint_to_motor_map self))
    as [e|[]]; simpl.
  { destruct Hmap' as [?|[msg ->]]; [done|]. split; [|right; eauto].
    split; [done|]. intros (_ & _ & _ & _ & H & _). by apply Hmap in H. }
  destruct (check_joint_roms self (joint_roms self)) as [e|[]]; simpl.
  { destruct Hrom' as [?|[msg ->]]; [done|]. split; [|right; eauto].
    split; [done|]. intros (_ & _ & _ & _ & _ & H & _). by apply Hrom in H. }
  split; [|done]. rewrite Hseq. split.
  - intros H. split_and!; try done; [lia | by apply Hmap | by apply Hrom].
  - by intros (_ & _ & _ & _ & _ & _ & H).
Qed.

(** X1.  [_sanity_check] returns exactly for the objects that pass every
    one of its checks (equal counts, a known control mode, an operating
    current not below the calibration current, map entries over declared
    joints with a range of motion and declared motors, ranges of positive
    width over declared joints, calibration steps over declared joints
    with direction [flex] or [extend]); for any other object it raises a
    [ValueError] and leaves the transport and the calibration file as
    they were. *)
Theorem sanity_check_returns_iff_sane (self : OrcaHand) (w : World) :
  (sanity_checks self = Ok tt ↔ sane self)
  ∧ (sane self → ∃ self' w', _sanity_check self w = (Ok self', w'))
  ∧ (¬ sane self →
     ∃ msg, _sanity_check self w = (Raise (ValueError msg), w)).
Proof.
  destruct (sanity_checks_spec self) as [Hiff Hor]. split; [done|]. split.
  - intros Hsane. apply Hiff in Hsane.
    unfold _sanity_check, mbind, mlift. rewrite Hsane.
    destruct (clear_calibrated_loop_spec (dict_values (motor_limits self))
                self w) as (self' & w' & Hrun & _). eauto.
  - intros Hnot. destruct Hor as [Hok|[msg Hmsg]]; [by apply Hiff in Hok|].
    exists msg. unfold _sanity_check, mbind, mlift. by rewrite Hmsg.
Qed.

Lemma sanity_check_returns_iff_sane_witness :
  (∃ self' w', _sanity_check demo_hand demo_world = (Ok self', w'))
  ∧ ∃ msg, _sanity_check weak_hand demo_world
           = (Raise (ValueError msg), demo_world).
Proof.
  split.
  - apply (proj1 (proj2 (sanity_check_returns_iff_sane demo_hand demo_world))).
    apply (proj1 (sanity_check_returns_iff_sane demo_hand demo_world)).
    reflexivity.
  - apply (proj2 (proj2 (sanity_check_returns_iff_sane weak_hand demo_world))).
    intros (_ & _ & _ & Hcurrent & _). simpl in Hcurrent. lia.
Defined.

Lemma dict_set_idemp {K V} `{EqDecision K} (k : K) (v : V) (d : dict K V) :
  dict_set k v (dict_set k v d) = dict_set k v d.
Proof.
  induction d as [|[k' v'] d IH]; simpl.
  - by rewrite decide_True.
  - destruct (decide (k = k')) as [->|Hne]; simpl.
    + by rewrite decide_True.
    + rewrite decide_False by done. by rewrite IH.
Qed.

(** The world after the last loop of [_sanity_check]. *)
Lemma clear_calibrated_loop_world values : ∀ self w self' w',
  clear_calibrated_loop self values w = (Ok self', w') →
  w' = (if is_calibrated_loop values then w
        else {| sensed := sensed w; reads := reads w; writes := writes w;
                calib_file :=
                  dict_set "calibrated" (YBool false) (calib_file w) |}).
Proof.
  induction values as [|motor_limit rest IH]; intros self w self' w'; simpl.
  - by intros [= _ <-].
  - destruct (any_limit_None motor_limit); [|apply IH].
    unfold mbind, update_yaml. simpl. intros Hrun. apply IH in Hrun.
    rewrite Hrun. destruct (is_calibrated_loop rest); [done|]. simpl.
    by rewrite dict_set_idemp.
Qed.

(** X2.  Construction never turns the flag on.  The flag of a constructed
    object is the flag of the calibration file and-ed with the
    completeness of the limit table; with a complete table nothing is
    written at all, so a file that says [calibrated: false] over a complete
    table yields an object with [calibrated = False] whose
    [is_calibrated()] is [True]; otherwise the only change to the world is
    the key [calibrated] of the file, set to false. *)
Theorem construction_keeps_or_clears_flag
    (config : Config) (w w' : World) (self : OrcaHand) :
  __init__ config w = (Ok self, w') →
  calibrated self = calib_get_calibrated (calib_file w) && is_calibrated self
  ∧ motor_limits self = calib_get_motor_limits (calib_file w)
  ∧ w' = (if is_calibrated self then w
          else {| sensed := sensed w; reads := reads w; writes := writes w;
                  calib_file :=
                    dict_set "calibrated" (YBool false) (calib_file w) |}).
Proof.
  unfold __init__, _sanity_check, mbind, mlift.
  destruct (sanity_checks _) as [e|[]]; [done|]. cbn [motor_limits].
  intros Hrun.
  pose proof (clear_calibrated_loop_world _ _ _ _ _ Hrun) as Hw.
  match type of Hrun with
  | clear_calibrated_loop ?s ?v _ = _ =>
      destruct (clear_calibrated_loop_spec v s w)
        as (s1 & w1 & Hrun' & Hlim & _ & Hex & Hall)
  end.
  rewrite Hrun in Hrun'. injection Hrun' as <- <-.
  cbn [motor_limits] in Hlim. unfold is_calibrated. rewrite Hlim.
  split_and!; [|done|done].
  destruct (is_calibrated_loop _) eqn:Hcal.
  - apply is_calibrated_loop_Forall in Hcal. destruct (Hall Hcal) as [-> _].
    simpl. by rewrite andb_true_r.
  - rewrite andb_false_r. apply Hex.
    apply not_Forall_Exists; [apply _|]. intros Hf.
    apply is_calibrated_loop_Forall in Hf. congruence.
Qed.

Lemma construction_keeps_or_clears_flag_witness :
  ∃ self w',
    __init__ demo_config stale_world = (Ok self, w')
    ∧ calibrated self
      = calib_get_calibrated (calib_file stale_world) && is_calibrated self
    ∧ calibrated self = false.
Proof.
  assert (Hinit : ∃ self w', __init__ demo_config stale_world = (Ok self, w'))
    by (eexists _, _; vm_compute; reflexivity).
  destruct Hinit as (self & w' & Hinit). exists self, w'.
  destruct (construction_keeps_or_clears_flag _ _ _ _ Hinit)
    as (Hflag & Hlim & _).
  split; [done|]. split; [done|].
  rewrite Hflag. unfold is_calibrated. rewrite Hlim. reflexivity.
Defined.

(** X3.  When the declared joint names are distinct, an object that
    passed [_sanity_check] gives every declared joint a motor and a range
    of motion, and the map has no other keys; so the first loop of a
    calibration step never meets an unknown joint.  When moreover the
    motor ids are distinct and no two joints share a motor, every declared
    motor drives a joint. *)
Theorem sane_map_covers_declared_joints (self : OrcaHand) :
  sane self →
  dict_wf (joint_to_motor_map self) →
  NoDup (joint_ids self) →
  (∀ joint, joint ∈ joint_ids self
            ↔ is_Some (dict_get joint (joint_to_motor_map self)))
  ∧ (∀ joint, joint ∈ joint_ids self →
              is_Some (dict_get joint (joint_roms self)))
  ∧ (∀ step st, step ∈ calib_sequence self →
                ∃ st', init_step self (joints step) st = Ok st')
  ∧ (NoDup (motor_ids self) →
     NoDup (dict_values (joint_to_motor_map self)) →
     ∀ motor_id, motor_id ∈ motor_ids self
                 ↔ ∃ joint, dict_get joint (joint_to_motor_map self)
                            = Some motor_id).
Proof.
  intros (Hcount1 & Hcount2 & _ & _ & Hmap & _ & Hseq) Hwf Hnd.
  assert (Hkeys : dict_keys (joint_to_motor_map self) ≡ₚ joint_ids self).
  { apply submseteq_length_Permutation.
    - apply NoDup_submseteq; [done|]. intros joint Hin.
      apply list_elem_of_fmap in Hin as ([j m] & -> & Hin).
      by apply (Hmap j m).
    - unfold dict_keys. rewrite length_fmap. lia. }
  assert (Hjoint : ∀ joint, joint ∈ joint_ids self
                   ↔ is_Some (dict_get joint (joint_to_motor_map self))).
  { intros joint. rewrite <- Hkeys, <- not_eq_None_Some, dict_get_None_keys.
    split; [by intros ? ?|]. apply dec_stable. }
  split_and!; [done | | |].
  - intros joint Hin. apply Hjoint in Hin as [m Hm].
    apply dict_get_Some_elem, Hmap in Hm as (_ & Hrom & _).
    apply not_eq_None_Some. rewrite dict_get_None_keys.
    intros Hn. by apply Hn.
  - intros step st Hstep.
    assert (Hknown : ∀ joint d, (joint, d) ∈ joints step →
              is_Some (dict_get joint (joint_to_motor_map self))).
    { intros joint d Hin. apply Hjoint. by apply (Hseq step joint d). }
    clear Hstep. revert st.
    induction (joints step) as [|[joint d] rest IH]; intros st; [by eexists|].
    simpl. destruct (Hknown joint d) as [m Hm]; [left|].
    unfold dict_item. rewrite Hm. simpl. apply IH.
    intros j' d' Hin. apply (Hknown j' d'). by right.
  - intros Hndm Hndv.
    assert (Hvals : dict_values (joint_to_motor_map self) ≡ₚ motor_ids self).
    { apply submseteq_length_Permutation.
      - apply NoDup_submseteq; [done|]. intros m Hin.
        apply list_elem_of_fmap in Hin as ([j m'] & -> & Hin).
        by apply (Hmap j m').
      - unfold dict_values. rewrite length_fmap. lia. }
    intros m. rewrite <- Hvals. split.
    + intros Hin. apply list_elem_of_fmap in Hin as ([j m'] & -> & Hin).
      exists j. by apply dict_elem_get.
    + intros [j Hj]. apply dict_get_Some_elem in Hj.
      apply list_elem_of_fmap. by exists (j, m).
Qed.

Lemma demo_hand_sane : sane demo_hand.
Proof. apply (proj1 (sanity_checks_spec demo_hand)). reflexivity. Qed.

Lemma sane_map_covers_declared_joints_witness :
  (∀ joint, joint ∈ joint_ids demo_hand
            ↔ is_Some (dict_get joint (joint_to_motor_map demo_hand)))
  ∧ (∀ st, ∃ st', init_step demo_hand [("thumb", "flex")] st = Ok st')
  ∧ ∀ motor_id, motor_id ∈ motor_ids demo_hand
                ↔ ∃ joint, dict_get joint (joint_to_motor_map demo_hand)
                           = Some motor_id.
Proof.
  destruct (sane_map_covers_declared_joints demo_hand)
    as (Hjoints & _ & Hstep & Hmotors).
  - exact demo_hand_sane.
  - exact demo_hand_map_wf.
  - apply (bool_decide_unpack _). reflexivity.
  - split; [exact Hjoints|]. split.
    + intros st. apply (Hstep {| joints := [("thumb", "flex")] |}). left.
    + apply Hmotors; apply (bool_decide_unpack _); reflexivity.
Defined.

(** ** [_set_motor_pos] *)

Lemma dict_positions_length desired rel current_pos ids : ∀ res,
  dict_positions desired rel current_pos ids = Ok res →
  length res = length ids.
Proof.
  induction ids as [|m ids IH]; intros res; simpl.
  - by intros [= <-].
  - intros H. apply rbind_Ok in H as (default & _ & H).
    apply rbind_Ok in H as (tl & Htl & H). injection H as <-.
    simpl. f_equal. by apply IH.
Qed.

Lemma np_iadd_length dt a b res :
  np_iadd dt a b = Ok res → length res = length a.
Proof.
  unfold np_iadd. destruct dt; [done|]. case_decide as Hlen.
  - intros [= <-]. rewrite length_zip_with. lia.
  - destruct b as [|x [|]]; try done. intros [= <-]. by rewrite length_fmap.
Qed.

Lemma desired_array_length self desired rel_to_current current_pos arr :
  desired_array self desired rel_to_current current_pos = Ok arr →
  length arr.2 = length (motor_ids self).
Proof.
  unfold desired_array. destruct desired as [d|dt a|l].
  - intros H. apply rbind_Ok in H as (entries & Hentries & H).
    injection H as <-. simpl. rewrite length_fmap.
    by apply dict_positions_length in Hentries.
  - case_decide; [|done]. by intros [= <-].
  - case_decide; [|done]. intros [= <-]. simpl. by rewrite length_fmap.
Qed.

Lemma set_motor_pos_run self desired rel_to_current w :
  _set_motor_pos self desired rel_to_current w
  = match commanded_positions self desired rel_to_current
            (sensed w (reads w)) with
    | inl e => (Raise e, after_read w)
    | inr v => (Ok tt, after_write (motor_ids self) v (after_read w))
    end.
Proof.
  unfold _set_motor_pos, commanded_positions, mbind, mlift, get_motor_pos,
    read_pos, write_desired_pos, rbind, after_read, after_write, Ok, Raise.
  cbn [sensed reads writes calib_file].
  destruct (desired_array self desired rel_to_current _) as [e|[dt v]];
    [done|].
  cbn [fst snd].
  destruct rel_to_current; [destruct (np_iadd _ _ _)|]; done.
Qed.

Lemma commanded_positions_length self desired rel_to_current current_pos v :
  commanded_positions self desired rel_to_current current_pos = Ok v →
  length v = length (motor_ids self).
Proof.
  unfold commanded_positions. intros H.
  apply rbind_Ok in H as (arr & Harr & H).
  apply desired_array_length in Harr.
  destruct rel_to_current.
  - apply np_iadd_length in H. congruence.
  - injection H as <-. done.
Qed.

(** X4.  Every call of [_set_motor_pos] reads the transport exactly once
    and leaves the calibration file alone.  If it raises, nothing was
    written; if it returns, exactly one write was added to the log, it is
    addressed to [motor_ids] and carries one position per declared motor,
    whatever the form of the argument and whether the move is relative. *)
Theorem set_motor_pos_one_read_one_full_write
    (self : OrcaHand) (desired : desired_pos) (rel_to_current : bool)
    (w : World) :
  ∃ w',
    reads w' = S (reads w) ∧ sensed w' = sensed w
    ∧ calib_file w' = calib_file w
    ∧ ((∃ e, _set_motor_pos self desired rel_to_current w = (Raise e, w')
             ∧ writes w' = writes w)
       ∨ (_set_motor_pos self desired rel_to_current w = (Ok tt, w')
          ∧ ∃ v, writes w' = writes w ++ [(motor_ids self, v)]
                 ∧ length v = length (motor_ids self))).
Proof.
  rewrite set_motor_pos_run.
  destruct (commanded_positions self desired rel_to_current _) as [e|v] eqn:Hv.
  - exists (after_read w). split_and!; [done..|]. left. by exists e.
  - exists (after_write (motor_ids self) v (after_read w)).
    split_and!; [done..|]. right. split; [done|]. exists v.
    split; [done|]. by eapply commanded_positions_length.
Qed.

Lemma dict_positions_relative desired current_pos ids :
  dict_positions desired true current_pos ids
  = Ok ((λ m, default (PyInt 0) (dict_get m desired)) <$> ids).
Proof.
  induction ids as [|m ids IH]; [done|]. simpl. rewrite IH. simpl.
  by destruct (dict_get m desired).
Qed.

(** Which sequences of numbers make a vector of floats. *)
Lemma array_dtype_Float64 (l : list pynum) :
  array_dtype l = Float64 ↔ l = [] ∨ ∃ x, PyFloat x ∈ l.
Proof.
  unfold array_dtype. destruct l as [|v l]; [by split; [left|]|].
  destruct (forallb is_int (v :: l)) eqn:Hall.
  - split; [done|]. intros [?|[x Hx]]; [done|].
    apply Is_true_eq_left, forallb_True in Hall.
    rewrite Forall_forall in Hall. by specialize (Hall _ Hx).
  - split; [|done]. intros _. right.
    assert (Hex : Exists (λ v, ¬ is_int v) (v :: l)).
    { apply not_Forall_Exists; [apply _|]. intros Hf.
      apply forallb_True, Is_true_eq_true in Hf. congruence. }
    apply Exists_exists in Hex as ([n|x] & Hin & Hv); [by destruct Hv|].
    by exists x.
Qed.

Lemma array_dtype_cases (l : list pynum) :
  array_dtype l = Int64 ∨ array_dtype l = Float64.
Proof. destruct (array_dtype l); [by left | by right]. Qed.

(** The write of a relative move given as a dictionary whose
    comprehension is a vector of floats. *)
Lemma set_motor_pos_relative_floats self desired w :
  length (sensed w (reads w)) = length (motor_ids self) →
  array_dtype ((λ m, default (PyInt 0) (dict_get m desired))
                 <$> motor_ids self) = Float64 →
  ∃ v,
    _set_motor_pos self (PosDict desired) true w
    = (Ok tt, after_write (motor_ids self) v (after_read w))
    ∧ ∀ i motor_id x,
        motor_ids self !! i = Some motor_id →
        sensed w (reads w) !! i = Some x →
        v !! i
        = Some (num_value (default (PyInt 0) (dict_get motor_id desired))
                + x)%Qc.
Proof.
  intros Hlen Hfloat. rewrite set_motor_pos_run.
  unfold commanded_positions, desired_array.
  rewrite dict_positions_relative. cbn [rbind Ok fst snd].
  rewrite Hfloat. unfold np_iadd.
  rewrite decide_True by (by rewrite !length_fmap).
  eexists. split; [done|]. intros i m x Hm Hx.
  by rewrite lookup_zip_with, !list_lookup_fmap, Hm, Hx.
Qed.

(** X5.  A relative move given as a dictionary is aligned by place in
    [motor_ids], not by [motor_id - 1].  The comprehension holds the
    number given for each declared motor, and the [int] 0 for a motor
    that is not mentioned.  When one of them is a float, or no motor is
    declared, and the transport reports as many positions as there are
    motors, the call returns whatever the ids are: the motor at place [i]
    is commanded to the position reported at place [i] plus its
    increment, and a motor that the dictionary does not mention to the
    position it has.  When every one is an [int], as for a dictionary
    that mentions no declared motor, the vector is an [int64] vector, the
    addition of the reported positions raises [UFuncTypeError], and
    nothing is written. *)
Theorem relative_move_is_aligned_by_place
    (self : OrcaHand) (desired : dict Z pynum) (w : World) :
  let entries :=
    (λ m, default (PyInt 0) (dict_get m desired)) <$> motor_ids self in
  (array_dtype entries = Float64
   ↔ motor_ids self = []
     ∨ ∃ motor_id x, motor_id ∈ motor_ids self
                     ∧ dict_get motor_id desired = Some (PyFloat x))
  ∧ (array_dtype entries = Float64 →
     length (sensed w (reads w)) = length (motor_ids self) →
     ∃ v,
       _set_motor_pos self (PosDict desired) true w
       = (Ok tt, after_write (motor_ids self) v (after_read w))
       ∧ (∀ i motor_id x,
            motor_ids self !! i = Some motor_id →
            sensed w (reads w) !! i = Some x →
            v !! i
            = Some (num_value (default (PyInt 0) (dict_get motor_id desired))
                    + x)%Qc)
       ∧ (∀ i motor_id x,
            motor_ids self !! i = Some motor_id →
            sensed w (reads w) !! i = Some x →
            dict_get motor_id desired = None →
            v !! i = Some x))
  ∧ (array_dtype entries = Int64 →
     _set_motor_pos self (PosDict desired) true w
     = (Raise UFuncTypeError, after_read w)).
Proof.
  intros entries. split; [|split].
  - rewrite array_dtype_Float64. unfold entries. split.
    + intros [Hnil|[x Hx]].
      * left. by apply fmap_nil_inv in Hnil.
      * right. apply list_elem_of_fmap in Hx as (m & Hv & Hm).
        exists m, x. split; [done|].
        destruct (dict_get m desired) as [v|]; simpl in Hv; [|done].
        by rewrite Hv.
    + intros [Hnil|(m & x & Hm & Hget)].
      * left. by rewrite Hnil.
      * right. exists x. apply list_elem_of_fmap. exists m.
        by rewrite Hget.
  - intros Hfloat Hlen.
    destruct (set_motor_pos_relative_floats self desired w Hlen Hfloat)
      as (v & Hrun & Hplace).
    exists v. split; [done|]. split; [done|].
    intros i m x Hm Hx Hnone. rewrite (Hplace i m x Hm Hx), Hnone.
    cbn [default num_value]. f_equal. rewrite Z2Qc_inj_0. ring.
  - intros Hint. rewrite set_motor_pos_run.
    unfold commanded_positions, desired_array.
    rewrite dict_positions_relative. cbn [rbind Ok fst snd].
    fold entries. by rewrite Hint.
Qed.

Lemma relative_move_is_aligned_by_place_witness :
  (∃ v,
     _set_motor_pos sparse_hand (PosDict [(7%Z, PyFloat (Q2Qc 0.1))]) true
       demo_world
     = (Ok tt, after_write [5; 7]%Z v (after_read demo_world))
     ∧ v !! 0 = Some (Q2Qc 0.25) ∧ v !! 1 = Some (Q2Qc 0.1 + Q2Qc 0.5)%Qc)
  ∧ _set_motor_pos sparse_hand (PosDict [(1%Z, PyFloat (Q2Qc 0.1))]) true
      demo_world
    = (Raise UFuncTypeError, after_read demo_world).
Proof.
  split.
  - destruct (relative_move_is_aligned_by_place sparse_hand
                [(7%Z, PyFloat (Q2Qc 0.1))] demo_world)
      as (_ & Hfloat & _).
    destruct (Hfloat eq_refl eq_refl) as (v & Hrun & Hplace & Hrest).
    exists v. split; [exact Hrun|]. split.
    + apply (Hrest 0 5%Z); reflexivity.
    + apply (Hplace 1 7%Z (Q2Qc 0.5)); reflexivity.
  - destruct (relative_move_is_aligned_by_place sparse_hand
                [(1%Z, PyFloat (Q2Qc 0.1))] demo_world)
      as (_ & _ & Hint).
    apply Hint. reflexivity.
Defined.

Lemma dict_positions_absolute desired current_pos ids :
  (Forall (λ m, is_Some (py_index (length current_pos) (m - 1))) ids →
   ∃ v, dict_positions desired false current_pos ids = Ok v)
  ∧ (¬ Forall (λ m, is_Some (py_index (length current_pos) (m - 1))) ids →
     dict_positions desired false current_pos ids = Raise IndexError).
Proof.
  assert (Hitem : ∀ m, (is_Some (py_index (length current_pos) (m - 1)) →
                        ∃ x, seq_item current_pos (m - 1) = Ok x)
                       ∧ (¬ is_Some (py_index (length current_pos) (m - 1)) →
                          seq_item current_pos (m - 1) = Raise IndexError)).
  { intros m. unfold seq_item.
    destruct (py_index (length current_pos) (m - 1)) as [i|] eqn:Hi.
    - split; [|by intros []]. intros _.
      destruct (lookup_lt_is_Some_2 current_pos i) as [x ->]; [|by eexists].
      by eapply py_index_lt.
    - split; [by intros [? [=]] | done]. }
  induction ids as [|m ids [IHok IHerr]]; simpl.
  - split; [by eexists | intros H; by destruct H].
  - split.
    + intros Hall. apply Forall_cons in Hall as [Hm Hall].
      destruct (proj1 (Hitem m) Hm) as [x ->].
      destruct (IHok Hall) as [v ->]. by eexists.
    + intros Hnot.
      destruct (decide (is_Some (py_index (length current_pos) (m - 1))))
        as [Hm|Hm].
      * destruct (proj1 (Hitem m) Hm) as [x ->]. simpl.
        rewrite IHerr; [done|]. intros Hall. apply Hnot. by constructor.
      * by rewrite (proj2 (Hitem m) Hm).
Qed.

(** X6.  An absolute move given as a dictionary evaluates the default
    [current_pos[motor_id - 1]] for every declared motor before it looks
    the motor up, so it returns exactly when every declared id has a slot
    in the reported vector; if one id has none, the call raises
    [IndexError] and writes nothing, even for a dictionary that gives
    every motor a target. *)
Theorem absolute_dict_move_needs_every_slot
    (self : OrcaHand) (desired : dict Z pynum) (w : World) :
  let n := length (sensed w (reads w)) in
  (Forall (λ m, is_Some (py_index n (m - 1))) (motor_ids self) →
   ∃ v, _set_motor_pos self (PosDict desired) false w
        = (Ok tt, after_write (motor_ids self) v (after_read w)))
  ∧ (¬ Forall (λ m, is_Some (py_index n (m - 1))) (motor_ids self) →
     _set_motor_pos self (PosDict desired) false w
     = (Raise IndexError, after_read w)).
Proof.
  intros n. rewrite set_motor_pos_run.
  unfold commanded_positions, desired_array.
  destruct (dict_positions_absolute desired (sensed w (reads w))
              (motor_ids self)) as [Hok Herr].
  split.
  - intros Hall. destruct (Hok Hall) as [v ->]. by eexists.
  - intros Hnot. by rewrite (Herr Hnot).
Qed.

Lemma absolute_dict_move_needs_every_slot_witness :
  (∃ v, _set_motor_pos demo_hand (PosDict [(1%Z, PyFloat (Q2Qc 0.1))]) false
          demo_world
        = (Ok tt, after_write [1; 2]%Z v (after_read demo_world)))
  ∧ _set_motor_pos sparse_hand
      (PosDict [(5%Z, PyFloat (Q2Qc 0.1)); (7%Z, PyFloat (Q2Qc 0.2))]) false
      demo_world
    = (Raise IndexError, after_read demo_world).
Proof.
  split.
  - apply (proj1 (absolute_dict_move_needs_every_slot demo_hand
                    [(1%Z, PyFloat (Q2Qc 0.1))] demo_world)).
    apply (bool_decide_unpack _). reflexivity.
  - apply (proj2 (absolute_dict_move_needs_every_slot sparse_hand
                    [(5%Z, PyFloat (Q2Qc 0.1)); (7%Z, PyFloat (Q2Qc 0.2))]
                    demo_world)).
    intros Hall. apply Forall_cons in Hall as [[i Hi] _].
    vm_compute in Hi. discriminate Hi.
Defined.

(** ** Order facts on exact rationals *)

Lemma Qcinv_pos (x : Qc) : (0 < x → 0 < / x)%Qc.
Proof.
  intros Hx. destruct (Qclt_le_dec 0 (/ x)) as [|Hle]; [done|]. exfalso.
  assert (Hne : x ≠ 0%Qc) by (intros ->; by apply (Qclt_not_eq 0 0)).
  pose proof (Qcmult_le_compat_r _ _ x Hle (Qclt_le_weak _ _ Hx)) as H.
  rewrite Qcmult_0_l, Qcmult_inv_l in H by done.
  revert H. by apply Qclt_not_le.
Qed.

Lemma Qcmult_pos_pos (x y : Qc) : (0 < x → 0 < y → 0 < x * y)%Qc.
Proof.
  intros Hx Hy. rewrite <- (Qcmult_0_l y). by apply Qcmult_lt_compat_r.
Qed.

Lemma Qcmult_nonneg_nonneg (x y : Qc) : (0 ≤ x → 0 ≤ y → 0 ≤ x * y)%Qc.
Proof.
  intros Hx Hy. rewrite <- (Qcmult_0_l y). by apply Qcmult_le_compat_r.
Qed.

Lemma Qcle_by_difference (x y d : Qc) : (y - x = d → 0 ≤ d → x ≤ y)%Qc.
Proof. intros <- Hd. by apply Qcle_minus_iff. Qed.

Lemma Qclt_by_difference (x y d : Qc) : (y - x = d → 0 < d → x < y)%Qc.
Proof. intros <- Hd. by apply Qclt_minus_iff. Qed.

Lemma Qcminus_nonneg (x y : Qc) : (x ≤ y → 0 ≤ y - x)%Qc.
Proof. apply Qcle_minus_iff. Qed.

Lemma Qcminus_pos (x y : Qc) : (x < y → 0 < y - x)%Qc.
Proof. apply Qclt_minus_iff. Qed.

(** The ratio of a motor travel over a range of motion of positive width
    has the sign of the travel. *)
Lemma ratio_sign (lo hi rom_min rom_max : Qc) :
  (rom_min < rom_max)%Qc →
  let ratio := ((hi - lo) / (rom_max - rom_min))%Qc in
  ((lo < hi → 0 < ratio) ∧ (lo ≤ hi → 0 ≤ ratio)
   ∧ (hi < lo → ratio < 0) ∧ (hi = lo → ratio = 0))%Qc.
Proof.
  intros Hrom ratio. subst ratio. unfold Qcdiv.
  pose proof (Qcinv_pos _ (Qcminus_pos _ _ Hrom)) as Hinv.
  split_and!.
  - intros H. apply Qcmult_pos_pos; [by apply Qcminus_pos | done].
  - intros H. apply Qcmult_nonneg_nonneg;
      [by apply Qcminus_nonneg | by apply Qclt_le_weak].
  - intros H. apply Qclt_minus_iff.
    replace (0 + - ((hi - lo) * / (rom_max - rom_min)))%Qc
      with ((lo - hi) * / (rom_max - rom_min))%Qc by ring.
    apply Qcmult_pos_pos; [by apply Qcminus_pos | done].
  - intros ->. ring.
Qed.

(** The affine image of a joint position under a ratio taken from the
    bounds. *)
Lemma affine_image_bounds (lo hi rom_min rom_max pos : Qc) :
  (rom_min < rom_max)%Qc → (lo ≤ hi)%Qc →
  let v := (lo + (pos - rom_min) * ((hi - lo) / (rom_max - rom_min)))%Qc in
  ((rom_min ≤ pos → lo ≤ v) ∧ (pos ≤ rom_max → v ≤ hi)
   ∧ (pos = rom_min → v = lo) ∧ (pos = rom_max → v = hi)
   ∧ (lo < hi → rom_max < pos → hi < v)
   ∧ (lo < hi → pos < rom_min → v < lo))%Qc.
Proof.
  intros Hrom Hlim v. subst v.
  destruct (ratio_sign lo hi rom_min rom_max Hrom) as (Hpos & Hnn & _ & _).
  assert (Hw : (rom_max - rom_min)%Qc ≠ 0%Qc).
  { intros Hz. apply Qcminus_pos in Hrom. rewrite Hz in Hrom.
    by apply (Qclt_not_eq 0 0). }
  set (ratio := ((hi - lo) / (rom_max - rom_min))%Qc) in *.
  assert (Htop : (hi - (lo + (pos - rom_min) * ratio)
                  = (rom_max - pos) * ratio)%Qc).
  { subst ratio. field. done. }
  split_and!.
  - intros Hp. eapply (Qcle_by_difference _ _ ((pos - rom_min) * ratio));
      [ring|]. apply Qcmult_nonneg_nonneg; [by apply Qcminus_nonneg | auto].
  - intros Hp. eapply Qcle_by_difference; [exact Htop|].
    apply Qcmult_nonneg_nonneg; [by apply Qcminus_nonneg | auto].
  - intros ->. ring.
  - intros ->. subst ratio. field. done.
  - intros Hlt Hp.
    eapply (Qclt_by_difference _ _ ((pos - rom_max) * ratio)).
    + replace (lo + (pos - rom_min) * ratio - hi)%Qc
        with (- (hi - (lo + (pos - rom_min) * ratio)))%Qc by ring.
      rewrite Htop. ring.
    + apply Qcmult_pos_pos; [by apply Qcminus_pos | auto].
  - intros Hlt Hp.
    eapply (Qclt_by_difference _ _ ((rom_min - pos) * ratio)); [ring|].
    apply Qcmult_pos_pos; [by apply Qcminus_pos | auto].
Qed.

(** ** Ratios and commanded positions of a calibrated joint *)

(** X7.  The ratio that the ratio loop of [calibrate] stores for a motor
    of a checked object has the sign of the travel between the two
    recorded bounds: positive when the upper bound is above the lower one,
    zero when the motor did not move, negative when a step drove the motor
    the wrong way round. *)
Theorem calibrated_ratio_has_sign_of_travel
    (self : OrcaHand) (table : dict Z (option Qc * option Qc))
    (ratios ratios' : dict Z Qc) (zeroed zeroed' : dict string Qc)
    (motor_id : Z) (lo hi : Qc) (joint : string) :
  sane self →
  dict_wf table →
  calib_ratios self table ratios zeroed = Ok (ratios', zeroed') →
  dict_get motor_id table = Some (Some lo, Some hi) →
  dict_get motor_id (motor_to_joint_map self) = Some joint →
  ∃ ratio,
    dict_get motor_id ratios' = Some ratio
    ∧ ((lo < hi → 0 < ratio) ∧ (hi < lo → ratio < 0)
       ∧ (hi = lo → ratio = 0))%Qc.
Proof.
  intros (_ & _ & _ & _ & _ & Hroms & _) Hwf Hrun Hlim Hj.
  destruct (dict_get joint (joint_roms self)) as [rom|] eqn:Hrom.
  - destruct (calib_ratios_value _ _ _ _ _ _ motor_id lo hi joint rom
                Hrun Hwf (dict_get_Some_elem _ _ _ Hlim) Hj Hrom)
      as [Hratio _].
    destruct (Hroms joint rom (dict_get_Some_elem _ _ _ Hrom)) as [Hwidth _].
    destruct (ratio_sign lo hi rom.1 rom.2 Hwidth) as (H1 & _ & H2 & H3).
    eexists. split; [exact Hratio|]. by split_and!.
  - exfalso. clear -Hrun Hlim Hj Hrom.
    revert ratios zeroed Hrun.
    induction table as [|[m0 limit0] rest IH]; intros ratios zeroed Hrun;
      [done|].
    simpl in Hlim. destruct (decide (motor_id = m0)) as [<-|Hne].
    + injection Hlim as ->. simpl in Hrun. unfold dict_item in Hrun.
      rewrite Hj in Hrun. simpl in Hrun. by rewrite Hrom in Hrun.
    + destruct limit0 as [[lo0|] [hi0|]]; simpl in Hrun;
        try by eapply IH.
      apply rbind_Ok in Hrun as (joint0 & _ & Hrun).
      apply rbind_Ok in Hrun as (rom0 & _ & Hrun).
      case_decide; [done|]. by eapply IH.
Qed.

Lemma calibrated_ratio_has_sign_of_travel_witness :
  ∃ ratio,
    dict_get 1%Z [(1%Z, (Q2Qc 2 / Q2Qc 1.57)%Qc)] = Some ratio
    ∧ (0 < ratio)%Qc.
Proof.
  destruct (calibrated_ratio_has_sign_of_travel scenario_hand
              (motor_limits scenario_hand) [] [(1%Z, (Q2Qc 2 / Q2Qc 1.57)%Qc)]
              [] [("thumb", 0%Qc)] 1%Z (Q2Qc (-1)) (Q2Qc 1) "thumb")
    as (ratio & Hratio & Hpos & _).
  - apply (proj1 (sanity_checks_spec scenario_hand)). reflexivity.
  - apply (bool_decide_unpack _). reflexivity.
  - vm_compute. reflexivity.
  - reflexivity.
  - reflexivity.
  - exists ratio. split; [exact Hratio|]. apply Hpos.
    apply (bool_decide_unpack _). reflexivity.
Defined.

(** X8.  In exact arithmetic, with the ratio that [calibrate] computes
    and bounds in the right order, [_joint_to_motor_pos] sends the ends of
    a joint's range of motion to the two motor limits and every position
    of the range to a motor position between the limits.  It does not
    clamp: when the motor has travel, a position beyond the range is sent
    beyond the limit.  The numbers are the rationals of this development:
    the binary64 results of the code can differ from them by rounding, so
    that the command for the end of the range can land an ulp beyond the
    limit. *)
Theorem joint_command_within_limits
    (self : OrcaHand) (joint_pos : dict string Qc) (motor_pos res : list Qc)
    (joint : string) (pos : Qc) (motor_id : Z) (lo hi : Qc) (rom : Qc * Qc)
    (i : nat) :
  joint_to_motor_loop self joint_pos motor_pos = Ok res →
  (joint, pos) ∈ joint_pos →
  dict_get joint (joint_to_motor_map self) = Some motor_id →
  dict_get motor_id (motor_limits self) = Some (Some lo, Some hi) →
  dict_get joint (joint_roms self) = Some rom →
  dict_get motor_id (joint_to_motor_ratios self)
  = Some ((hi - lo) / (rom.2 - rom.1))%Qc →
  py_index (length motor_pos) (motor_id - 1) = Some i →
  (∀ joint' pos' motor_id',
     (joint', pos') ∈ joint_pos →
     dict_get joint' (joint_to_motor_map self) = Some motor_id' →
     py_index (length motor_pos) (motor_id' - 1) = Some i →
     joint' = joint ∧ pos' = pos) →
  (rom.1 < rom.2)%Qc → (lo ≤ hi)%Qc →
  ∃ v,
    res !! i = Some v
    ∧ ((rom.1 ≤ pos ≤ rom.2 → lo ≤ v ≤ hi)
       ∧ (pos = rom.1 → v = lo) ∧ (pos = rom.2 → v = hi)
       ∧ (lo < hi → rom.2 < pos → hi < v)
       ∧ (lo < hi → pos < rom.1 → v < lo))%Qc.
Proof.
  intros Hrun Hin Hm Hlim Hrom Hratio Hi Huniq Hwidth Horder.
  eexists. split.
  - eapply joint_to_motor_loop_value; eauto.
  - destruct (affine_image_bounds lo hi rom.1 rom.2 pos Hwidth Horder)
      as (H1 & H2 & H3 & H4 & H5 & H6).
    split_and!; try done. intros [? ?]. split; auto.
Qed.

Lemma joint_command_within_limits_witness :
  ∃ v,
    [Q2Qc 0; Q2Qc 0.5] !! 0 = Some v ∧ (Q2Qc (-1) ≤ v ≤ Q2Qc 1)%Qc.
Proof.
  destruct (joint_command_within_limits demo_hand [("thumb", Q2Qc 0.785)]
              [Q2Qc 0.25; Q2Qc 0.5] [Q2Qc 0; Q2Qc 0.5] "thumb" (Q2Qc 0.785)
              1%Z (Q2Qc (-1)) (Q2Qc 1) (Q2Qc 0, Q2Qc 1.57) 0)
    as (v & Hv & Hin & _).
  - vm_compute. reflexivity.
  - left.
  - reflexivity.
  - reflexivity.
  - reflexivity.
  - reflexivity.
  - reflexivity.
  - intros joint' pos' motor_id' Hin _ _.
    by apply list_elem_of_singleton in Hin as [= -> ->].
  - apply (bool_decide_unpack _). reflexivity.
  - apply (bool_decide_unpack _). reflexivity.
  - exists v. split; [exact Hv|]. apply Hin.
    split; apply (bool_decide_unpack _); reflexivity.
Defined.

(** ** Sampling during a calibration step *)

Lemma deque_append_length maxlen buf x :
  length buf < maxlen →
  deque_append maxlen buf x = buf ++ [x].
Proof.
  intros Hlen. unfold deque_append. rewrite decide_False; [done|].
  rewrite length_app. simpl. lia.
Qed.

(** One sample into a window that it does not fill. *)
Lemma calib_observe_short_window self curr_pos motor_id st buf x :
  dict_get motor_id (motor_reached_limit st) = Some false →
  dict_get motor_id (position_buffers st) = Some buf →
  seq_item curr_pos (motor_id - 1) = Ok x →
  S (length buf) < calib_num_stable self →
  ∃ st',
    calib_observe self curr_pos motor_id st = Ok st'
    ∧ dict_get motor_id (motor_reached_limit st') = Some false
    ∧ dict_get motor_id (position_buffers st') = Some (buf ++ [x])
    ∧ limits st' = limits st.
Proof.
  intros Hreached Hbuf Hx Hlen.
  unfold calib_observe, dict_item. rewrite Hreached. simpl.
  rewrite Hbuf. simpl. rewrite Hx. simpl.
  rewrite deque_append_length by lia.
  unfold at_limit. rewrite decide_False; [|rewrite length_app; simpl; lia].
  simpl. eexists. split; [done|]. simpl.
  by rewrite dict_get_set_eq.
Qed.

(** X9.  No bound is recorded before the window could fill: starting a
    step with an empty window, a motor that has been sampled fewer than
    [calib_num_stable] times is not marked as having reached its limit and
    the limit table is what it was, whatever the samples were.  With
    [calib_num_stable = 0] the very first sample raises [IndexError],
    because the window stays empty and its first element is read. *)
Theorem no_limit_before_window_fills
    (self : OrcaHand) (motor_id : Z) (st : calib_state) :
  dict_get motor_id (motor_reached_limit st) = Some false →
  dict_get motor_id (position_buffers st) = Some [] →
  (∀ polls,
     length polls < calib_num_stable self →
     Forall (λ curr_pos,
               is_Some (py_index (length curr_pos) (motor_id - 1))) polls →
     ∃ st',
       calib_observe_rounds self polls motor_id st = Ok st'
       ∧ dict_get motor_id (motor_reached_limit st') = Some false
       ∧ length <$> dict_get motor_id (position_buffers st')
         = Some (length polls)
       ∧ limits st' = limits st)
  ∧ (calib_num_stable self = 0 →
     ∀ curr_pos,
       is_Some (py_index (length curr_pos) (motor_id - 1)) →
       calib_observe self curr_pos motor_id st = Raise IndexError).
Proof.
  intros Hreached Hbuf. split.
  - intros polls Hlen Hslots.
    assert (Hgen : ∀ buf st0,
      dict_get motor_id (motor_reached_limit st0) = Some false →
      dict_get motor_id (position_buffers st0) = Some buf →
      length buf + length polls < calib_num_stable self →
      ∃ st',
        calib_observe_rounds self polls motor_id st0 = Ok st'
        ∧ dict_get motor_id (motor_reached_limit st') = Some false
        ∧ length <$> dict_get motor_id (position_buffers st')
          = Some (length buf + length polls)
        ∧ limits st' = limits st0).
    { clear Hreached Hbuf Hlen.
      induction polls as [|curr_pos later IH]; intros buf st0 Hr Hb Hl.
      - exists st0. simpl. rewrite Hb. simpl. split_and!; try done.
        f_equal. lia.
      - apply Forall_cons in Hslots as [[i Hi] Hslots]. simpl in Hl.
        destruct (lookup_lt_is_Some_2 curr_pos i) as [x Hx];
          [by eapply py_index_lt|].
        destruct (calib_observe_short_window self curr_pos motor_id st0 buf x)
          as (st1 & Hrun & Hr1 & Hb1 & Hl1); [done | done | | lia |].
        { unfold seq_item. by rewrite Hi, Hx. }
        destruct (IH Hslots (buf ++ [x]) st1 Hr1 Hb1) as
          (st' & Hrun' & Hr' & Hb' & Hl').
        { rewrite length_app. simpl. lia. }
        exists st'. simpl. rewrite Hrun. simpl.
        split_and!; [done | done | | congruence].
        rewrite Hb'. f_equal. rewrite length_app. simpl. lia. }
    destruct (Hgen [] st Hreached Hbuf) as (st' & ? & ? & ? & ?);
      [simpl; lia|]. by exists st'.
  - intros Hzero curr_pos [i Hi].
    destruct (lookup_lt_is_Some_2 curr_pos i) as [x Hx];
      [by eapply py_index_lt|].
    unfold calib_observe, dict_item. rewrite Hreached. simpl.
    rewrite Hbuf. simpl. unfold seq_item at 1. rewrite Hi, Hx. simpl.
    rewrite Hzero. change (deque_append 0 [] x) with (@nil Qc).
    unfold at_limit. rewrite Hzero. reflexivity.
Qed.

Lemma fresh_step_state_is_init_step :
  init_step demo_hand [("thumb", "flex")]
    {| directions := []; position_buffers := []; motor_reached_limit := [];
       desired_increment := []; limits := empty_limits demo_hand |}
  = Ok fresh_step_state.
Proof. reflexivity. Qed.

Lemma no_limit_before_window_fills_witness :
  (∃ st',
     calib_observe_rounds demo_hand
       [[Q2Qc 0.5; Q2Qc 0]; [Q2Qc 0.5; Q2Qc 0]; [Q2Qc 0.5; Q2Qc 0];
        [Q2Qc 0.5; Q2Qc 0]] 1 fresh_step_state = Ok st'
     ∧ dict_get 1%Z (motor_reached_limit st') = Some false
     ∧ limits st' = limits fresh_step_state)
  ∧ calib_observe windowless_hand [Q2Qc 0.5; Q2Qc 0] 1 fresh_step_state
    = Raise IndexError.
Proof.
  split.
  - destruct (no_limit_before_window_fills demo_hand 1 fresh_step_state
                eq_refl eq_refl) as [Hrounds _].
    destruct (Hrounds [[Q2Qc 0.5; Q2Qc 0]; [Q2Qc 0.5; Q2Qc 0];
                       [Q2Qc 0.5; Q2Qc 0]; [Q2Qc 0.5; Q2Qc 0]])
      as (st' & Hrun & Hflag & _ & Hlim).
    + simpl. lia.
    + repeat constructor; by eexists.
    + by exists st'.
  - apply (proj2 (no_limit_before_window_fills windowless_hand 1
                    fresh_step_state eq_refl eq_refl)); [reflexivity|].
    by eexists.
Defined.

Lemma record_limit_spec motor_id d avg lims lims' :
  record_limit motor_id d avg lims = Ok lims' →
  (∀ m, m ≠ motor_id → dict_get m lims' = dict_get m lims)
  ∧ (∀ lo hi, dict_get motor_id lims = Some (lo, hi) →
       ∃ lo' hi', dict_get motor_id lims' = Some (lo', hi')
                  ∧ (lo' = lo ∨ hi' = hi)).
Proof.
  unfold record_limit. intros H.
  apply rbind_Ok in H as (lims1 & H1 & H2).
  assert (Hstep1 : (∀ m, m ≠ motor_id → dict_get m lims1 = dict_get m lims)
            ∧ (∀ lo hi, dict_get motor_id lims = Some (lo, hi) →
                 (d = 1%Z ∧ ∃ hi', dict_get motor_id lims1 = Some (lo, hi'))
                 ∨ (d ≠ 1%Z ∧ lims1 = lims))).
  { destruct (decide (d = 1%Z)) as [->|Hd].
    - apply rbind_Ok in H1 as (pair & Hpair & H1). injection H1 as <-.
      apply dict_item_Ok in Hpair. split.
      + intros m Hm. by apply dict_get_set_ne.
      + intros lo hi Hl. left. split; [done|]. rewrite dict_get_set_eq.
        assert (pair = (lo, hi)) as -> by congruence. eauto.
    - injection H1 as <-. split; [done|]. intros. by right. }
  destruct Hstep1 as [Hother1 Hself1].
  destruct (decide (d = (-1)%Z)) as [->|Hd].
  - apply rbind_Ok in H2 as (pair & Hpair & H2). injection H2 as <-.
    apply dict_item_Ok in Hpair. split.
    + intros m Hm. rewrite dict_get_set_ne by done. by apply Hother1.
    + intros lo hi Hl. rewrite dict_get_set_eq.
      destruct (Hself1 lo hi Hl) as [[? _]|[_ ->]]; [done|].
      assert (pair = (lo, hi)) as -> by congruence. simpl. eauto.
  - injection H2 as <-. split; [done|]. intros lo hi Hl.
    destruct (Hself1 lo hi Hl) as [[_ [hi' ?]]|[_ ->]]; eauto.
Qed.

(** X10.  The body of the sampling loop, run for one motor, changes
    nothing that belongs to another motor: its window, its mark and its
    pair of bounds stay, as do all directions and increments.  A motor
    already marked is left exactly as it is, and a sample never changes
    both bounds of the sampled motor: a run towards one limit cannot
    overwrite the other. *)
Theorem calib_observe_touches_one_motor
    (self : OrcaHand) (curr_pos : list Qc) (motor_id : Z)
    (st st' : calib_state) :
  calib_observe self curr_pos motor_id st = Ok st' →
  directions st' = directions st
  ∧ desired_increment st' = desired_increment st
  ∧ (∀ m, m ≠ motor_id →
       dict_get m (position_buffers st') = dict_get m (position_buffers st)
       ∧ dict_get m (motor_reached_limit st')
         = dict_get m (motor_reached_limit st)
       ∧ dict_get m (limits st') = dict_get m (limits st))
  ∧ (dict_get motor_id (motor_reached_limit st) = Some true → st' = st)
  ∧ (∀ lo hi, dict_get motor_id (limits st) = Some (lo, hi) →
       ∃ lo' hi', dict_get motor_id (limits st') = Some (lo', hi')
                  ∧ (lo' = lo ∨ hi' = hi)).
Proof.
  unfold calib_observe. intros H.
  apply rbind_Ok in H as (reached & Hreached & H).
  apply dict_item_Ok in Hreached. destruct reached.
  { injection H as <-. split_and!; try done. intros lo hi Hl. eauto. }
  apply rbind_Ok in H as (buf & Hbuf & H).
  apply rbind_Ok in H as (x & Hx & H).
  apply rbind_Ok in H as (stable & Hstable & H).
  destruct stable.
  - apply rbind_Ok in H as (joint & _ & H).
    apply rbind_Ok in H as (d & _ & H).
    apply rbind_Ok in H as (lims & Hlims & H). injection H as <-.
    apply record_limit_spec in Hlims as [Hother Hself]. simpl.
    split_and!; try done.
    + intros m Hm. rewrite !dict_get_set_ne by done. auto.
    + congruence.
  - injection H as <-. simpl. split_and!; try done.
    + intros m Hm. by rewrite dict_get_set_ne.
    + congruence.
    + intros lo hi ->. eauto.
Qed.

Lemma calib_observe_touches_one_motor_witness :
  ∃ st',
    calib_observe demo_hand [Q2Qc 0.499; Q2Qc 0.5] 1 scenario_state = Ok st'
    ∧ dict_get 2%Z (limits st') = Some (None, None)
    ∧ ∃ lo' hi', dict_get 1%Z (limits st') = Some (lo', hi')
                 ∧ (lo' = None ∨ hi' = None).
Proof.
  assert (Hrun : ∃ st', calib_observe demo_hand [Q2Qc 0.499; Q2Qc 0.5] 1
                          scenario_state = Ok st')
    by (eexists; vm_compute; reflexivity).
  destruct Hrun as [st' Hrun]. exists st'. split; [exact Hrun|].
  destruct (calib_observe_touches_one_motor _ _ _ _ _ Hrun)
    as (_ & _ & Hother & _ & Hself).
  split.
  - destruct (Hother 2%Z) as (_ & _ & ->); [lia | reflexivity].
  - apply (Hself None None). reflexivity.
Defined.

(** ** Increments of a calibration round *)

Lemma plan_increments_spec self dirs items : ∀ incr incr',
  plan_increments self dirs items incr = Ok incr' →
  NoDup items.*1 →
  ∀ m,
    (∀ d, (m, false) ∈ items → dict_get m dirs = Some d →
          dict_get m incr' = Some (Qc_of_Z d * calib_step_size self)%Qc)
    ∧ ((m, false) ∉ items → dict_get m incr' = dict_get m incr).
Proof.
  induction items as [|[m0 reached0] rest IH]; intros incr incr' Hrun Hnd m.
  - injection Hrun as <-. split; [|done]. intros d Hin.
    by apply elem_of_nil in Hin.
  - rewrite fmap_cons in Hnd. apply NoDup_cons in Hnd as [Hfresh Hnd].
    simpl in Hrun. destruct reached0.
    + destruct (IH _ _ Hrun Hnd m) as [Hset Hkeep]. split.
      * intros d Hin. apply elem_of_cons in Hin as [[=]|Hin]. by apply Hset.
      * intros Hnotin. apply Hkeep. intros Hin. apply Hnotin. by right.
    + apply rbind_Ok in Hrun as (d0 & Hd0 & Hrun).
      apply dict_item_Ok in Hd0.
      destruct (IH _ _ Hrun Hnd m) as [Hset Hkeep]. split.
      * intros d Hin Hd. apply elem_of_cons in Hin as [[= ->]|Hin];
          [|by apply Hset].
        rewrite Hkeep.
        -- rewrite dict_get_set_eq. congruence.
        -- intros Hin. apply Hfresh. apply list_elem_of_fmap.
           by exists (m0, false).
      * intros Hnotin. rewrite Hkeep.
        -- apply dict_get_set_ne. intros ->. apply Hnotin. left.
        -- intros Hin. apply Hnotin. by right.
Qed.

Lemma as_floats_get (d : dict Z Qc) m :
  dict_get m (as_floats d) = PyFloat <$> dict_get m d.
Proof.
  unfold as_floats. induction d as [|[k v] d IH]; [done|].
  cbn [fmap list_fmap dict_get fst snd]. by destruct (decide (m = k)).
Qed.

(** The write of the increments of a round, a dictionary of floats. *)
Lemma set_motor_pos_relative_dict self incr w :
  length (sensed w (reads w)) = length (motor_ids self) →
  motor_ids self = []
  ∨ (∃ m, m ∈ motor_ids self ∧ is_Some (dict_get m incr)) →
  ∃ v,
    _set_motor_pos self (PosDict (as_floats incr)) true w
    = (Ok tt, after_write (motor_ids self) v (after_read w))
    ∧ ∀ i motor_id x,
        motor_ids self !! i = Some motor_id →
        sensed w (reads w) !! i = Some x →
        v !! i = Some (default 0 (dict_get motor_id incr) + x)%Qc.
Proof.
  intros Hlen Hfloat.
  destruct (set_motor_pos_relative_floats self (as_floats incr) w Hlen)
    as (v & Hrun & Hplace).
  { apply array_dtype_Float64. destruct Hfloat as [->|(m & Hm & [x Hx])].
    - by left.
    - right. exists x. apply list_elem_of_fmap. exists m.
      by rewrite as_floats_get, Hx. }
  exists v. split; [done|]. intros i m x Hm Hx.
  rewrite (Hplace i m x Hm Hx), as_floats_get.
  destruct (dict_get m incr) as [y|]; cbn [fmap option_fmap option_map
    default num_value]; [done|].
  by rewrite Z2Qc_inj_0.
Qed.

(** X11.  The increments of a round are set for the motors that have not
    reached their limit, to direction times [calib_step_size]; the entry
    of a motor that has reached its limit is not withdrawn.  The round
    then commands every entry of the dictionary relative to the current
    position; the write goes through when the dictionary has an entry for
    a declared motor, as it has in every round for a motor of the step
    that has not reached its limit.  So a motor is still driven one
    increment further in every round that follows its own arrival, until
    the whole step is done. *)
Theorem reached_motor_is_still_driven
    (self : OrcaHand) (st : calib_state) (incr : dict Z Qc) (w : World) :
  plan_increments self (directions st) (motor_reached_limit st)
    (desired_increment st) = Ok incr →
  dict_wf (motor_reached_limit st) →
  length (sensed w (reads w)) = length (motor_ids self) →
  (∀ m d, dict_get m (motor_reached_limit st) = Some false →
          dict_get m (directions st) = Some d →
          dict_get m incr = Some (Qc_of_Z d * calib_step_size self)%Qc)
  ∧ (∀ m, dict_get m (motor_reached_limit st) = Some true →
          dict_get m incr = dict_get m (desired_increment st))
  ∧ (motor_ids self = []
     ∨ (∃ m, m ∈ motor_ids self ∧ is_Some (dict_get m incr)) →
     ∃ v,
       _set_motor_pos self (PosDict (as_floats incr)) true w
       = (Ok tt, after_write (motor_ids self) v (after_read w))
       ∧ ∀ i m step x,
           motor_ids self !! i = Some m →
           dict_get m (motor_reached_limit st) = Some true →
           dict_get m (desired_increment st) = Some step →
           sensed w (reads w) !! i = Some x →
           v !! i = Some (step + x)%Qc).
Proof.
  intros Hplan Hwf Hlen.
  pose proof (plan_increments_spec _ _ _ _ _ Hplan Hwf) as Hspec.
  assert (Hkept : ∀ m, dict_get m (motor_reached_limit st) = Some true →
                       dict_get m incr = dict_get m (desired_increment st)).
  { intros m Hm. apply (proj2 (Hspec m)). intros Hin.
    apply (dict_elem_get _ _ _ Hwf) in Hin. congruence. }
  split_and!; [|done|].
  - intros m d Hm Hd. apply (proj1 (Hspec m) d); [|done].
    by apply dict_get_Some_elem.
  - intros Hfloat.
    destruct (set_motor_pos_relative_dict self incr w Hlen Hfloat)
      as (v & Hrun & Hplace).
    exists v. split; [done|]. intros i m step x Hi Hm Hstep Hx.
    rewrite (Hplace i m x Hi Hx), (Hkept m Hm), Hstep. done.
Qed.

Lemma reached_motor_is_still_driven_witness :
  ∃ incr v,
    plan_increments demo_hand (directions settled_state)
      (motor_reached_limit settled_state) (desired_increment settled_state)
    = Ok incr
    ∧ _set_motor_pos demo_hand (PosDict (as_floats incr)) true demo_world
      = (Ok tt, after_write [1; 2]%Z v (after_read demo_world))
    ∧ v !! 0 = Some (Q2Qc 0.1 + Q2Qc 0.25)%Qc.
Proof.
  destruct (reached_motor_is_still_driven demo_hand settled_state
              [(1%Z, Q2Qc 0.1)] demo_world)
    as (_ & _ & Hwrite).
  - reflexivity.
  - apply (bool_decide_unpack _). reflexivity.
  - reflexivity.
  - destruct Hwrite as (v & Hrun & Hdriven).
    { right. exists 1%Z. split; [left | by eexists]. }
    exists [(1%Z, Q2Qc 0.1)], v. split; [reflexivity|].
    split; [exact Hrun|].
    apply (Hdriven 0 1%Z (Q2Qc 0.1) (Q2Qc 0.25)); reflexivity.
Defined.

(** ** The end of a calibration step *)

Lemma dict_set_elem {K V} `{EqDecision K} (k k' : K) (v v' : V) (d : dict K V) :
  (k', v') ∈ dict_set k v d → (k', v') = (k, v) ∨ (k', v') ∈ d.
Proof.
  induction d as [|[k0 v0] d IH]; simpl.
  - intros Hin. apply list_elem_of_singleton in Hin. by left.
  - destruct (decide (k = k0)) as [->|Hne]; intros Hin;
      apply elem_of_cons in Hin as [Heq|Hin].
    + by left.
    + right. by right.
    + right. rewrite Heq. left.
    + destruct (IH Hin) as [?|?]; [by left | right; by right].
Qed.

(** What the ratio loop needs of a motor with both bounds. *)
Lemma calib_ratios_complete self items : ∀ ratios cj ratios' cj' m lo hi,
  calib_ratios self items ratios cj = Ok (ratios', cj') →
  (m, (Some lo, Some hi)) ∈ items →
  ∃ joint rom,
    dict_get m (motor_to_joint_map self) = Some joint
    ∧ dict_get joint (joint_roms self) = Some rom
    ∧ dict_get joint cj' = Some 0%Qc.
Proof.
  assert (Hmono : ∀ items ratios cj ratios' cj' joint,
    calib_ratios self items ratios cj = Ok (ratios', cj') →
    dict_get joint cj = Some 0%Qc → dict_get joint cj' = Some 0%Qc).
  { clear. intros items. induction items as [|[m0 [[lo0|] [hi0|]]] rest IH];
      intros ratios cj ratios' cj' joint Hrun Hcj; simpl in Hrun;
      try (by eapply IH).
    - by injection Hrun as <- <-.
    - apply rbind_Ok in Hrun as (joint0 & _ & Hrun).
      apply rbind_Ok in Hrun as (rom0 & _ & Hrun).
      case_decide; [done|]. eapply IH; [done|].
      destruct (decide (joint0 = joint)) as [->|Hne].
      + apply dict_get_set_eq.
      + by rewrite dict_get_set_ne. }
  induction items as [|[m0 limit0] rest IH];
    intros ratios cj ratios' cj' m lo hi Hrun Hin.
  - by apply elem_of_nil in Hin.
  - apply elem_of_cons in Hin as [[= <- <-]|Hin].
    + simpl in Hrun. apply rbind_Ok in Hrun as (joint & Hj & Hrun).
      apply rbind_Ok in Hrun as (rom & Hrom & Hrun).
      apply dict_item_Ok in Hj, Hrom. case_decide; [done|].
      exists joint, rom. split_and!; [done..|].
      eapply Hmono; [done|]. apply dict_get_set_eq.
    + destruct limit0 as [[lo0|] [hi0|]]; simpl in Hrun;
        try by eapply IH.
      apply rbind_Ok in Hrun as (joint0 & _ & Hrun).
      apply rbind_Ok in Hrun as (rom0 & _ & Hrun).
      case_decide; [done|]. by eapply IH.
Qed.

(** Where the entries of the re-zeroing dictionary come from. *)
Lemma calib_ratios_zeroed_origin self items : ∀ ratios cj ratios' cj' joint pos,
  calib_ratios self items ratios cj = Ok (ratios', cj') →
  (joint, pos) ∈ cj' →
  (pos = 0%Qc
   ∧ ∃ m lo hi, (m, (Some lo, Some hi)) ∈ items
                ∧ dict_get m (motor_to_joint_map self) = Some joint)
  ∨ (joint, pos) ∈ cj.
Proof.
  induction items as [|[m0 limit0] rest IH];
    intros ratios cj ratios' cj' joint pos Hrun Hin.
  - injection Hrun as <- <-. by right.
  - assert (Hrest : ∀ ratios1,
      calib_ratios self rest ratios1 cj = Ok (ratios', cj') →
      (pos = 0%Qc
       ∧ ∃ m lo hi, (m, (Some lo, Some hi)) ∈ (m0, limit0) :: rest
                    ∧ dict_get m (motor_to_joint_map self) = Some joint)
      ∨ (joint, pos) ∈ cj).
    { intros ratios1 Hrun1.
      destruct (IH _ _ _ _ _ _ Hrun1 Hin) as [(-> & m & lo & hi & ? & ?)|?];
        [left | by right].
      split; [done|]. exists m, lo, hi. split; [by right | done]. }
    destruct limit0 as [[lo0|] [hi0|]]; simpl in Hrun; try by eapply Hrest.
    apply rbind_Ok in Hrun as (joint0 & Hj0 & Hrun).
    apply rbind_Ok in Hrun as (rom0 & _ & Hrun).
    apply dict_item_Ok in Hj0. case_decide; [done|].
    destruct (IH _ _ _ _ _ _ Hrun Hin) as [(-> & m & lo & hi & ? & ?)|Hin'].
    + left. split; [done|]. exists m, lo, hi. split; [by right | done].
    + apply dict_set_elem in Hin' as [[= -> ->]|?]; [|by right].
      left. split; [done|]. exists m0, lo0, hi0. split; [left | done].
Qed.

Lemma calib_ratios_stale self items : ∀ ratios cj ratios' cj' m,
  calib_ratios self items ratios cj = Ok (ratios', cj') →
  (∀ lo hi, (m, (Some lo, Some hi)) ∉ items) →
  dict_get m ratios' = dict_get m ratios.
Proof.
  induction items as [|[m0 limit0] rest IH];
    intros ratios cj ratios' cj' m Hrun Hnot.
  - by injection Hrun as <- <-.
  - assert (Hnot' : ∀ lo hi, (m, (Some lo, Some hi)) ∉ rest).
    { intros lo hi Hin. apply (Hnot lo hi). by right. }
    destruct limit0 as [[lo0|] [hi0|]]; simpl in Hrun; try by eapply IH.
    apply rbind_Ok in Hrun as (joint0 & _ & Hrun).
    apply rbind_Ok in Hrun as (rom0 & _ & Hrun).
    case_decide; [done|]. rewrite (IH _ _ _ _ m Hrun Hnot').
    apply dict_get_set_ne. intros ->. apply (Hnot lo0 hi0). left.
Qed.

(** X12.  At the end of a step the joints staged for re-zeroing are the
    joints of the motors that have both bounds, each staged at position
    0, and no other; and a motor that still lacks a bound keeps whatever
    ratio was stored for it before, be it from an earlier calibration. *)
Theorem step_stages_calibrated_joints_only
    (self : OrcaHand) (table : dict Z (option Qc * option Qc))
    (ratios ratios' : dict Z Qc) (zeroed : dict string Qc) :
  calib_ratios self table ratios [] = Ok (ratios', zeroed) →
  (∀ joint pos, (joint, pos) ∈ zeroed →
     pos = 0%Qc
     ∧ ∃ m lo hi, (m, (Some lo, Some hi)) ∈ table
                  ∧ dict_get m (motor_to_joint_map self) = Some joint)
  ∧ (∀ m lo hi, (m, (Some lo, Some hi)) ∈ table →
       ∃ joint, dict_get m (motor_to_joint_map self) = Some joint
                ∧ dict_get joint zeroed = Some 0%Qc)
  ∧ (∀ m, (∀ lo hi, (m, (Some lo, Some hi)) ∉ table) →
          dict_get m ratios' = dict_get m ratios).
Proof.
  intros Hrun. split_and!.
  - intros joint pos Hin.
    destruct (calib_ratios_zeroed_origin _ _ _ _ _ _ _ _ Hrun Hin)
      as [?|Hnil]; [done|]. by apply elem_of_nil in Hnil.
  - intros m lo hi Hin.
    destruct (calib_ratios_complete _ _ _ _ _ _ _ _ _ Hrun Hin)
      as (joint & rom & ? & _ & ?). eauto.
  - intros m. by apply (calib_ratios_stale _ _ _ _ _ _ _ Hrun).
Qed.

Lemma step_stages_calibrated_joints_only_witness :
  ∃ ratios' zeroed,
    calib_ratios demo_hand (motor_limits demo_hand) [(2%Z, Q2Qc 3)] []
    = Ok (ratios', zeroed)
    ∧ dict_get "thumb" zeroed = Some 0%Qc
    ∧ dict_get 2%Z ratios' = Some (Q2Qc 3).
Proof.
  assert (Hrun : ∃ ratios' zeroed,
            calib_ratios demo_hand (motor_limits demo_hand) [(2%Z, Q2Qc 3)] []
            = Ok (ratios', zeroed))
    by (eexists _, _; vm_compute; reflexivity).
  destruct Hrun as (ratios' & zeroed & Hrun). exists ratios', zeroed.
  destruct (step_stages_calibrated_joints_only _ _ _ _ _ Hrun)
    as (_ & Hstaged & Hstale).
  split; [exact Hrun|]. split.
  - destruct (Hstaged 1%Z (Q2Qc (-1)) (Q2Qc 1)) as (joint & Hj & Hz); [left|].
    vm_compute in Hj. injection Hj as <-. exact Hz.
  - rewrite Hstale; [reflexivity|]. intros lo hi Hin.
    apply elem_of_cons in Hin as [[=]|Hin].
    apply list_elem_of_singleton in Hin. discriminate Hin.
Defined.

(** A conversion in which every mentioned joint is calibrated returns,
    whatever the ratios are. *)
Lemma joint_to_motor_loop_returns self joint_pos : ∀ motor_pos,
  (∀ joint pos, (joint, pos) ∈ joint_pos →
     ∃ m lo hi,
       dict_get joint (joint_to_motor_map self) = Some m
       ∧ (1 ≤ m ≤ Z.of_nat (length motor_pos))%Z
       ∧ dict_get m (motor_limits self) = Some (Some lo, Some hi)
       ∧ is_Some (dict_get joint (joint_roms self))
       ∧ is_Some (dict_get m (joint_to_motor_ratios self))) →
  ∃ res, joint_to_motor_loop self joint_pos motor_pos = Ok res.
Proof.
  induction joint_pos as [|[joint pos] rest IH]; intros motor_pos Hcal.
  - by eexists.
  - destruct (Hcal joint pos) as
      (m & lo & hi & Hm & Hrange & Hlim & [rom Hrom] & [ratio Hratio]); [left|].
    simpl. rewrite Hm. unfold dict_item. rewrite Hlim. simpl.
    rewrite Hrom. simpl. rewrite Hratio. simpl.
    unfold seq_store. rewrite py_index_pos by done. simpl.
    apply IH. intros joint' pos' Hin. rewrite length_insert.
    apply (Hcal joint' pos'). by right.
Qed.

(** X13.  The command that ends a calibration step goes through.  When
    the two maps of the object are inverse to each other and the motors of
    the limit table have ids within 1..N for a transport that reports N
    positions, N being the number of declared motors, the call
    [set_joint_pos(calibrated_joints)] on the object that the step leaves
    behind returns and writes one vector: no staged joint is found
    uncalibrated, without a ratio or out of range. *)
Theorem step_end_command_goes_through
    (self : OrcaHand) (table : dict Z (option Qc * option Qc))
    (ratios' : dict Z Qc) (zeroed : dict string Qc) (w : World) :
  maps_inverse self →
  dict_wf table →
  calib_ratios self table (joint_to_motor_ratios self) []
  = Ok (ratios', zeroed) →
  (∀ m limit, (m, limit) ∈ table →
              (1 ≤ m ≤ Z.of_nat (length (motor_ids self)))%Z) →
  length (sensed w (reads w)) = length (motor_ids self) →
  ∃ v w',
    set_joint_pos (after_step self table ratios') zeroed w = (Ok tt, w')
    ∧ writes w' = writes w ++ [(motor_ids self, v)]
    ∧ length v = length (motor_ids self).
Proof.
  intros Hinv Hwf Hrun Hrange Hlen.
  destruct (joint_to_motor_loop_returns (after_step self table ratios') zeroed
              (sensed w (reads w))) as [v Hv].
  { intros joint pos Hin.
    destruct (calib_ratios_zeroed_origin _ _ _ _ _ _ _ _ Hrun Hin)
      as [(_ & m & lo & hi & Hm & Hj)|Hnil]; [|by apply elem_of_nil in Hnil].
    destruct (calib_ratios_complete _ _ _ _ _ _ _ _ _ Hrun Hm)
      as (joint' & rom & Hj' & Hrom & _).
    assert (joint' = joint) as -> by congruence.
    destruct (calib_ratios_value _ _ _ _ _ _ m lo hi joint rom
                Hrun Hwf Hm Hj Hrom) as [Hratio _].
    exists m, lo, hi. cbn [after_step set_motor_limits set_ratios
      joint_to_motor_map motor_limits joint_roms joint_to_motor_ratios].
    split_and!; [by apply Hinv | | | by apply dict_elem_get | eauto | eauto].
    - apply (Hrange m _ Hm). 
    - rewrite Hlen. apply (Hrange m _ Hm). }
  pose proof (joint_to_motor_loop_length _ _ _ _ Hv) as Hlenv.
  rewrite (set_joint_pos_return _ _ _ _ Hv).
  cbn [after_step set_motor_limits set_ratios motor_ids].
  rewrite decide_True by congruence.
  eexists v, _. split; [done|]. split; [done | congruence].
Qed.

Lemma step_end_command_goes_through_witness :
  ∃ v w',
    set_joint_pos
      (after_step scenario_hand (motor_limits scenario_hand)
         [(1%Z, (Q2Qc 2 / Q2Qc 1.57)%Qc)])
      [("thumb", 0%Qc)] demo_world
    = (Ok tt, w')
    ∧ writes w' = writes demo_world ++ [([1; 2]%Z, v)]
    ∧ length v = 2.
Proof.
  apply (step_end_command_goes_through scenario_hand
           (motor_limits scenario_hand) [(1%Z, (Q2Qc 2 / Q2Qc 1.57)%Qc)]
           [("thumb", 0%Qc)] demo_world).
  - exact demo_hand_maps_inverse.
  - apply (bool_decide_unpack _). reflexivity.
  - vm_compute. reflexivity.
  - intros m limit Hin.
    apply elem_of_cons in Hin as [[= -> _]|Hin]; [simpl; lia|].
    apply list_elem_of_singleton in Hin as [= -> _]. simpl. lia.
  - reflexivity.
Defined.

(** ** Torque, mode and current *)

Lemma rbindR_Returns {A B} (m : R A) (k : A → R B) r b r' :
  rbindR m k r = (Returns b, r') →
  ∃ a r1, m r = (Returns a, r1) ∧ k a r1 = (Returns b, r').
Proof.
  unfold rbindR. destruct (m r) as [[a|e|] r1]; try done. eauto.
Qed.

Lemma sent_sent c1 c2 r : sent c2 (sent c1 r) = sent (c1 ++ c2) r.
Proof. unfold sent. simpl. by rewrite app_assoc. Qed.

Lemma send_run c r : send c r = (Returns tt, sent [c] r).
Proof. reflexivity. Qed.

(** X14.  [set_control_mode] knows the five names of its table and
    refuses every other name with a [ValueError] before it sends anything;
    two of the five modes that [_sanity_check] accepts, among them the
    default [current_position], are not in the table.  The modes accepted
    by both are [position], [multi_turn_position] and
    [current_based_position]; for an object configured with one of the
    other two, [init_joints] enables the torque and then raises, having
    neither read nor written a position. *)
Theorem configured_mode_can_be_refused (self : OrcaHand) :
  (∀ mode, mode ∈ control_modes ∧ is_Some (dict_get mode mode_map)
           ↔ mode ∈ ["position"; "multi_turn_position";
                     "current_based_position"])
  ∧ (∀ mode ids r,
       dict_get mode mode_map = None →
       set_control_mode self mode ids r
       = (Raises (Exn (ValueError "Invalid control mode.")), r))
  ∧ (control_mode self ∈ ["current_position"; "current_velocity"] →
     control_mode self ∈ control_modes
     ∧ ∀ fuel force r,
         init_joints fuel self force r
         = (Raises (Exn (ValueError "Invalid control mode.")),
            sent [TorqueEnabled (motor_ids self) true] r)).
Proof.
  split_and!.
  - intros mode. split.
    + intros [Hin Hsome]. unfold control_modes in Hin.
      rewrite !elem_of_cons, elem_of_nil in Hin.
      destruct Hin as [->|[->|[->|[->|[->|[]]]]]];
        try (by destruct Hsome as [? [=]]);
        apply (bool_decide_unpack _); reflexivity.
    + intros Hin. rewrite !elem_of_cons, elem_of_nil in Hin.
      destruct Hin as [->|[->|[->|[]]]];
        (split; [apply (bool_decide_unpack _); reflexivity | by eexists]).
  - intros mode ids r Hnone. unfold set_control_mode. by rewrite Hnone.
  - intros Hmode.
    assert (Hcases : control_mode self = "current_position"
                     ∨ control_mode self = "current_velocity").
    { rewrite !elem_of_cons, elem_of_nil in Hmode. tauto. }
    split.
    + unfold control_modes. destruct Hcases as [-> | ->];
        rewrite !elem_of_cons; tauto.
    + intros fuel force r. unfold init_joints, rbindR, enable_torque.
      rewrite send_run. unfold set_control_mode. simpl.
      by destruct Hcases as [-> | ->].
Qed.

Lemma configured_mode_can_be_refused_witness :
  init_joints 0 demo_hand false demo_rig
  = (Raises (Exn (ValueError "Invalid control mode.")),
     sent [TorqueEnabled [1; 2]%Z true] demo_rig).
Proof.
  apply (proj2 (proj2 (configured_mode_can_be_refused demo_hand))).
  left.
Defined.

(** X15.  [set_max_current] either refuses a list whose length is not the
    number of declared motors, with a [ValueError] and nothing sent, or
    sends one command that carries exactly one current per declared motor:
    the list itself, or the scalar repeated. *)
Theorem set_max_current_one_value_per_motor
    (self : OrcaHand) (current : current_arg) (r : Rig) :
  (∃ l, current = CurrentList l ∧ length l ≠ length (motor_ids self)
        ∧ set_max_current self current r
          = (Raises (Exn (ValueError current_count_msg)), r))
  ∨ (∃ currents,
       set_max_current self current r
       = (Returns tt, sent [DesiredCurrent (motor_ids self) currents] r)
       ∧ length currents = length (motor_ids self)
       ∧ (∀ l, current = CurrentList l → currents = l)
       ∧ (∀ c, current = CurrentScalar c → Forall (λ x, x = c) currents)).
Proof.
  destruct current as [l|c]; simpl.
  - case_decide as Hlen.
    + left. by exists l.
    + right. exists l.
      split_and!; [done | done | by intros ? [= ->] | done].
  - right. exists (replicate (length (motor_ids self)) c).
    split_and!; [done | by rewrite length_replicate | done |].
    intros c' [= ->]. apply Forall_replicate. done.
Qed.

Lemma set_max_current_one_value_per_motor_witness :
  ∃ currents,
    set_max_current demo_hand (CurrentScalar (Q2Qc 300)) demo_rig
    = (Returns tt, sent [DesiredCurrent [1; 2]%Z currents] demo_rig)
    ∧ Forall (λ x, x = Q2Qc 300) currents.
Proof.
  destruct (set_max_current_one_value_per_motor demo_hand
              (CurrentScalar (Q2Qc 300)) demo_rig)
    as [(l & [=] & _)|(currents & Hrun & _ & _ & Hscalar)].
  exists currents. split; [exact Hrun | by apply Hscalar].
Defined.

(** ** [calibrate] *)

(** X16.  With an empty [calib_sequence], the default of a configuration
    that names none, [calibrate] raises [UnboundLocalError]: it reads
    [calibrated_joints], which only a step assigns.  By then it has set
    the mode, lowered the current to [calib_current] and enabled the
    torque, has recomputed the flag from the limit table it started with
    and rewritten it in the calibration file, and it has neither read nor
    written a position; the current is not raised back to
    [max_current].  On a hand whose limit table is empty the flag written
    is [true]. *)
Theorem calibrate_without_steps_raises
    (self : OrcaHand) (fuel : nat) (r : Rig) :
  calib_sequence self = [] →
  ∃ r',
    calibrate fuel self r
    = (Raises (UnboundLocalError "calibrated_joints"), r')
    ∧ commands r'
      = commands r
        ++ [OperatingMode (motor_ids self) 5;
            DesiredCurrent (motor_ids self)
              (replicate (length (motor_ids self))
                 (Qc_of_Z (calib_current self)));
            TorqueEnabled (motor_ids self) true]
    ∧ calib_file (world r')
      = dict_set "calibrated" (YBool (is_calibrated self))
          (calib_file (world r))
    ∧ reads (world r') = reads (world r)
    ∧ writes (world r') = writes (world r)
    ∧ (motor_limits self = [] →
       dict_get "calibrated" (calib_file (world r')) = Some (YBool true)).
Proof.
  intros Hseq. unfold calibrate, rbindR. simpl. rewrite Hseq. simpl.
  eexists. split; [reflexivity|]. simpl.
  split_and!; try done.
  - by rewrite <- !app_assoc.
  - intros Hnil. unfold is_calibrated. rewrite Hnil. simpl.
    apply dict_get_set_eq.
Qed.

Lemma calibrate_without_steps_raises_witness :
  ∃ r',
    calibrate 0 unsequenced_hand demo_rig
    = (Raises (UnboundLocalError "calibrated_joints"), r')
    ∧ dict_get "calibrated" (calib_file (world r')) = Some (YBool true).
Proof.
  destruct (calibrate_without_steps_raises unsequenced_hand 0 demo_rig eq_refl)
    as (r' & Hrun & _ & _ & _ & _ & Hflag).
  exists r'. split; [exact Hrun|]. apply Hflag. reflexivity.
Defined.

(** *** What a run of [calibrate] that returns has established *)

Lemma on_world_Returns {A} (m : M A) r a r' :
  on_world m r = (Returns a, r') →
  ∃ w', m (world r) = (Ok a, w') ∧ r' = with_world w' r.
Proof.
  unfold on_world. destruct (m (world r)) as [[e|a'] w'] eqn:Hm; [done|].
  intros [= -> <-]. eauto.
Qed.

Lemma of_result_Returns {A} (x : result A) r a r' :
  of_result x r = (Returns a, r') → x = Ok a ∧ r' = r.
Proof. unfold of_result. destruct x; [done|]. by intros [= -> ->]. Qed.

Lemma set_joint_pos_calib_file self joint_pos w x w' :
  set_joint_pos self joint_pos w = (x, w') → calib_file w' = calib_file w.
Proof.
  destruct (joint_to_motor_loop self joint_pos (sensed w (reads w)))
    as [e|v] eqn:Hv.
  - rewrite (set_joint_pos_raise _ _ _ _ Hv). by intros [= _ <-].
  - rewrite (set_joint_pos_return _ _ _ _ Hv).
    case_decide; by intros [= _ <-].
Qed.

Lemma set_motor_pos_calib_file self desired rel w x w' :
  _set_motor_pos self desired rel w = (x, w') → calib_file w' = calib_file w.
Proof.
  rewrite set_motor_pos_run.
  destruct (commanded_positions _ _ _ _); by intros [= _ <-].
Qed.

Lemma dict_keys_set_present {K V} `{EqDecision K} (k : K) (v : V) d :
  is_Some (dict_get k d) → dict_keys (dict_set k v d) = dict_keys d.
Proof.
  intros Hk. rewrite dict_keys_set. rewrite bool_decide_true; [done|].
  apply dec_stable. intros Hn. apply dict_get_None_keys in Hn.
  rewrite Hn in Hk. by destruct Hk.
Qed.

Lemma record_limit_keys motor_id d avg lims lims' :
  record_limit motor_id d avg lims = Ok lims' →
  dict_keys lims' = dict_keys lims.
Proof.
  unfold record_limit. intros H.
  apply rbind_Ok in H as (lims1 & H1 & H2).
  assert (dict_keys lims1 = dict_keys lims) as Hk1.
  { destruct (decide (d = 1%Z)); [|by injection H1 as <-].
    apply rbind_Ok in H1 as (pair & Hpair & H1). injection H1 as <-.
    apply dict_item_Ok in Hpair. apply dict_keys_set_present. eauto. }
  destruct (decide (d = (-1)%Z)); [|injection H2 as <-; done].
  apply rbind_Ok in H2 as (pair & Hpair & H2). injection H2 as <-.
  apply dict_item_Ok in Hpair. rewrite dict_keys_set_present; eauto.
Qed.

Lemma calib_observe_keys self curr_pos motor_id st st' :
  calib_observe self curr_pos motor_id st = Ok st' →
  dict_keys (limits st') = dict_keys (limits st).
Proof.
  unfold calib_observe. intros H.
  apply rbind_Ok in H as (reached & _ & H). destruct reached.
  { by injection H as <-. }
  apply rbind_Ok in H as (buf & _ & H).
  apply rbind_Ok in H as (x & _ & H).
  apply rbind_Ok in H as (stable & _ & H). destruct stable.
  - apply rbind_Ok in H as (joint & _ & H).
    apply rbind_Ok in H as (d & _ & H).
    apply rbind_Ok in H as (lims & Hlims & H). injection H as <-. simpl.
    by apply record_limit_keys in Hlims.
  - by injection H as <-.
Qed.

Lemma calib_sample_frame self curr_pos motor_id st r st' r' :
  calib_sample self curr_pos motor_id st r = (Returns st', r') →
  step_frame st st' r r'.
Proof.
  unfold calib_sample, step_frame.
  destruct (dict_item motor_id (motor_reached_limit st)) as [e|[]]; [done| |].
  { by intros [= <- <-]. }
  intros H.
  apply rbindR_Returns in H as (? & r1 & H1 & H).
  apply of_result_Returns in H1 as [_ ->].
  apply rbindR_Returns in H as (? & r1 & H1 & H).
  apply of_result_Returns in H1 as [_ ->].
  apply rbindR_Returns in H as (currents & r1 & H1 & H).
  injection H1 as _ <-.
  apply rbindR_Returns in H as (? & r2 & H1 & H).
  apply of_result_Returns in H1 as [_ ->].
  apply of_result_Returns in H as [Hobs ->]. simpl.
  split_and!; [done..|]. by apply calib_observe_keys in Hobs.
Qed.

Lemma calib_sample_all_frame self curr_pos ids : ∀ st r st' r',
  calib_sample_all self curr_pos ids st r = (Returns st', r') →
  step_frame st st' r r'.
Proof.
  induction ids as [|m ids IH]; intros st r st' r'; simpl.
  - by intros [= <- <-].
  - intros H. apply rbindR_Returns in H as (st1 & r1 & H1 & H).
    apply calib_sample_frame in H1 as (? & ? & ?).
    apply IH in H as (? & ? & ?). unfold step_frame. split_and!; congruence.
Qed.

Lemma drive_frame fuel self : ∀ st r st' r',
  drive fuel self st r = (Returns st', r') → step_frame st st' r r'.
Proof.
  induction fuel as [|fuel IH]; intros st r st' r'; simpl;
    destruct (forallb id (dict_values (motor_reached_limit st)));
    try (by intros [= <- <-]).
  intros H.
  apply rbindR_Returns in H as (incr & r1 & H1 & H).
  apply of_result_Returns in H1 as [_ ->].
  apply rbindR_Returns in H as ([] & r1 & H1 & H).
  apply on_world_Returns in H1 as (w1 & Hw1 & ->).
  apply set_motor_pos_calib_file in Hw1.
  apply rbindR_Returns in H as (curr_pos & r2 & H1 & H).
  apply on_world_Returns in H1 as (w2 & Hw2 & ->). injection Hw2 as _ <-.
  apply rbindR_Returns in H as (st1 & r3 & H1 & H).
  apply calib_sample_all_frame in H1 as (Hf1 & Hc1 & Hk1).
  apply IH in H as (Hf & Hc & Hk). simpl in *.
  unfold step_frame. split_and!; congruence.
Qed.

Lemma init_step_limits self items : ∀ st st',
  init_step self items st = Ok st' → limits st' = limits st.
Proof.
  induction items as [|[joint d] rest IH]; intros st st'; simpl.
  - by intros [= <-].
  - intros H. apply rbind_Ok in H as (m & _ & H). by apply IH in H.
Qed.

Lemma empty_limits_keys self m :
  m ∈ dict_keys (empty_limits self) ↔ m ∈ motor_ids self.
Proof.
  unfold empty_limits.
  assert (Hgen : ∀ ids (acc : dict Z (option Qc * option Qc)),
    m ∈ dict_keys (fold_left (λ acc motor_id, dict_set motor_id (None, None) acc)
                     ids acc)
    ↔ m ∈ ids ∨ m ∈ dict_keys acc).
  { induction ids as [|m0 ids IH]; intros acc; simpl.
    - rewrite elem_of_nil. tauto.
    - rewrite IH, dict_keys_set, elem_of_cons.
      destruct (bool_decide (m0 ∈ dict_keys acc)) eqn:Hb.
      + apply bool_decide_eq_true in Hb. split; [tauto|].
        intros [[->|?]|?]; tauto.
      + rewrite elem_of_app, list_elem_of_singleton. tauto. }
  rewrite Hgen. unfold dict_keys. simpl. rewrite elem_of_nil. tauto.
Qed.

Lemma calibrate_step_post fuel self table step r self' table' zeroed r' :
  calibrate_step fuel self table step r = (Returns (self', table', zeroed), r') →
  ∃ ratios',
    self' = after_step self table' ratios'
    ∧ dict_keys table' = dict_keys table
    ∧ commands r' = commands r
    ∧ calib_file (world r')
      = dict_set "motor_limits" (YLimits table')
          (dict_set "joint_to_motor_ratios" (YRatios ratios')
             (calib_file (world r))).
Proof.
  unfold calibrate_step. intros H.
  apply rbindR_Returns in H as (st & r1 & H1 & H).
  apply of_result_Returns in H1 as [Hinit ->].
  apply init_step_limits in Hinit. simpl in Hinit.
  apply rbindR_Returns in H as (st' & r1 & H1 & H).
  apply drive_frame in H1 as (Hfile & Hcmd & Hkeys).
  apply rbindR_Returns in H as ([ratios' zeroed'] & r2 & H1 & H).
  apply of_result_Returns in H1 as [_ ->].
  apply rbindR_Returns in H as ([] & r2 & H1 & H).
  apply on_world_Returns in H1 as (w2 & Hw2 & ->). injection Hw2 as <-.
  apply rbindR_Returns in H as ([] & r3 & H1 & H).
  apply on_world_Returns in H1 as (w3 & Hw3 & ->). injection Hw3 as <-.
  apply rbindR_Returns in H as ([] & r4 & H1 & H).
  apply on_world_Returns in H1 as (w4 & Hw4 & ->).
  apply set_joint_pos_calib_file in Hw4.
  injection H as <- <- <- <-. exists ratios'. simpl in *.
  split_and!; [done | congruence | done | congruence].
Qed.

Lemma calibrate_steps_post fuel steps : ∀ self table cj r self' cj' r',
  calibrate_steps fuel self table cj steps r = (Returns (self', cj'), r') →
  commands r' = commands r
  ∧ motor_ids self' = motor_ids self
  ∧ max_current self' = max_current self
  ∧ match steps with
    | [] => self' = self ∧ cj' = cj ∧ r' = r
    | _ :: _ =>
        is_Some cj'
        ∧ dict_keys (motor_limits self') = dict_keys table
        ∧ dict_get "motor_limits" (calib_file (world r'))
          = Some (YLimits (motor_limits self'))
        ∧ dict_get "joint_to_motor_ratios" (calib_file (world r'))
          = Some (YRatios (joint_to_motor_ratios self'))
    end.
Proof.
  induction steps as [|step later IH]; intros self table cj r self' cj' r'.
  - simpl. by intros [= <- <- <-].
  - simpl. intros H.
    apply rbindR_Returns in H as ([[self1 table1] zeroed] & r1 & H1 & H).
    apply calibrate_step_post in H1
      as (ratios1 & -> & Hkeys1 & Hcmd1 & Hfile1).
    simpl in H. apply IH in H as (Hcmd & Hids & Hmax & Hlater).
    split; [congruence|]. split; [done|]. split; [done|].
    destruct later as [|step2 later].
    + destruct Hlater as (-> & -> & ->). simpl.
      split_and!; [by eexists | done | |].
      * rewrite Hfile1. apply dict_get_set_eq.
      * rewrite Hfile1, dict_get_set_ne by done. apply dict_get_set_eq.
    + destruct Hlater as (? & Hk & ? & ?). split_and!; try done.
      by rewrite Hk.
Qed.

(** X17.  A call of [calibrate] that returns leaves the flag of the object
    equal to what [is_calibrated] computes, and the calibration file in
    step with the object: its keys [calibrated], [motor_limits] and
    [joint_to_motor_ratios] hold the object's flag, limit table and ratio
    table.  The limit table then has an entry for every declared motor and
    for nothing else, the sequence had at least one step, and the last
    command sent restores [max_current] on every motor. *)
Theorem calibrate_leaves_object_and_file_in_step
    (fuel : nat) (self self' : OrcaHand) (r r' : Rig) :
  calibrate fuel self r = (Returns self', r') →
  calibrated self' = is_calibrated self'
  ∧ dict_get "calibrated" (calib_file (world r'))
    = Some (YBool (calibrated self'))
  ∧ dict_get "motor_limits" (calib_file (world r'))
    = Some (YLimits (motor_limits self'))
  ∧ dict_get "joint_to_motor_ratios" (calib_file (world r'))
    = Some (YRatios (joint_to_motor_ratios self'))
  ∧ (∀ m, is_Some (dict_get m (motor_limits self')) ↔ m ∈ motor_ids self)
  ∧ calib_sequence self ≠ []
  ∧ ∃ before,
      commands r'
      = before ++ [DesiredCurrent (motor_ids self)
                     (replicate (length (motor_ids self))
                        (Qc_of_Z (max_current self)))].
Proof.
  unfold calibrate. intros H.
  apply rbindR_Returns in H as ([] & r1 & _ & H).
  apply rbindR_Returns in H as ([] & r2 & _ & H).
  apply rbindR_Returns in H as ([] & r3 & _ & H).
  apply rbindR_Returns in H as ([self1 cj] & r4 & Hsteps & H).
  apply calibrate_steps_post in Hsteps as (_ & Hids & Hmax & Hpost).
  apply rbindR_Returns in H as ([] & r5 & H1 & H).
  apply on_world_Returns in H1 as (w5 & Hw5 & ->). injection Hw5 as <-.
  apply rbindR_Returns in H as (joints & r6 & H1 & H).
  simpl in H1. destruct cj as [cj|]; [|done]. injection H1 as -> <-.
  apply rbindR_Returns in H as ([] & r7 & H1 & H).
  apply on_world_Returns in H1 as (w7 & Hw7 & ->).
  apply set_joint_pos_calib_file in Hw7.
  apply rbindR_Returns in H as ([] & r8 & H1 & H).
  simpl in H1. injection H1 as <-. injection H as <- <-.
  destruct (calib_sequence self) as [|step later] eqn:Hseq.
  { by destruct Hpost as (_ & [=] & _). }
  destruct Hpost as (_ & Hkeys & Hlim & Hratio).
  simpl in *. rewrite Hw7. simpl.
  split; [done|]. split; [apply dict_get_set_eq|].
  split; [by rewrite dict_get_set_ne|].
  split; [by rewrite dict_get_set_ne|]. split; [|split; [done|]].
  - intros m. rewrite <- empty_limits_keys, <- Hkeys.
    rewrite <- not_eq_None_Some, dict_get_None_keys.
    split; [apply dec_stable | by intros ? ?].
  - eexists. rewrite Hids, Hmax. reflexivity.
Qed.

Lemma calibrate_leaves_object_and_file_in_step_witness :
  ∃ self' r',
    calibrate 10 demo_hand demo_rig = (Returns self', r')
    ∧ calibrated self' = is_calibrated self'
    ∧ dict_get "motor_limits" (calib_file (world r'))
      = Some (YLimits (motor_limits self'))
    ∧ is_Some (dict_get 2%Z (motor_limits self')).
Proof.
  assert (Hrun : ∃ self' r', calibrate 10 demo_hand demo_rig
                             = (Returns self', r'))
    by (eexists _, _; vm_compute; reflexivity).
  destruct Hrun as (self' & r' & Hrun). exists self', r'.
  destruct (calibrate_leaves_object_and_file_in_step _ _ _ _ _ Hrun)
    as (Hflag & _ & Hlimits & _ & Hkeys & _).
  split; [exact Hrun|]. split; [exact Hflag|]. split; [exact Hlimits|].
  apply Hkeys. right. left.
Defined.

(** ** [calibrate_manual] *)

Lemma get_motor_pos_run r :
  on_world get_motor_pos r
  = (Returns (sensed (world r) (reads (world r))),
     with_world (after_read (world r)) r).
Proof. reflexivity. Qed.

Lemma get_joint_pos_Returns self r joint_pos r' :
  on_world (get_joint_pos self) r = (Returns joint_pos, r') →
  r' = with_world (after_read (world r)) r.
Proof.
  unfold on_world, get_joint_pos, mbind, mlift, get_motor_pos, read_pos.
  simpl. destruct (_motor_to_joint_pos _ _); [done|]. by intros [= _ <-].
Qed.

(** What a run of reads leaves alone. *)
Lemma manual_display_Returns rounds self joint motor_id : ∀ r r',
  manual_display rounds self joint motor_id r = (Returns tt, r') →
  commands r' = commands r ∧ sensed_current r' = sensed_current r
  ∧ sensed (world r') = sensed (world r)
  ∧ reads (world r') = reads (world r) + 2 * rounds
  ∧ writes (world r') = writes (world r)
  ∧ calib_file (world r') = calib_file (world r).
Proof.
  induction rounds as [|rounds IH]; intros r r'; simpl.
  - intros [= <-]. split_and!; try done; lia.
  - intros H.
    apply rbindR_Returns in H as (pos & r1 & H1 & H).
    rewrite get_motor_pos_run in H1. injection H1 as _ <-.
    apply rbindR_Returns in H as (? & r1 & H1 & H).
    apply of_result_Returns in H1 as [_ ->].
    apply rbindR_Returns in H as (jp & r2 & H1 & H).
    apply get_joint_pos_Returns in H1 as ->.
    apply rbindR_Returns in H as (? & r3 & H1 & H).
    apply of_result_Returns in H1 as [_ ->].
    apply IH in H as (-> & -> & -> & -> & -> & ->). simpl.
    split_and!; try done; lia.
Qed.

Lemma store_bound_Ok motor_id upper x table table' :
  store_bound motor_id upper x table = Ok table' →
  ∃ pair, dict_get motor_id table = Some pair
          ∧ table' = dict_set motor_id
                       (if upper then (pair.1, Some x) else (Some x, pair.2))
                       table.
Proof.
  unfold store_bound, dict_item, rbind, Ok, Raise.
  destruct (dict_get motor_id table) as [pair|]; [|done].
  intros [= <-]. eauto.
Qed.

(** One pass of the body for a joint that returns: the motor of the joint
    has the first reading as its upper and the second as its lower bound,
    the entries of the other motors are what they were, and twelve reads
    were made. *)
Lemma manual_joint_Returns self joint cj r self' cj' r' :
  manual_joint self joint cj r = (Returns (self', cj'), r') →
  ∃ motor_id table ratios lo hi,
    dict_get joint (joint_to_motor_map self) = Some motor_id
    ∧ self' = after_step self table ratios
    ∧ dict_keys table = dict_keys (motor_limits self)
    ∧ seq_item (sensed (world r) (reads (world r))) (motor_id - 1) = Ok hi
    ∧ seq_item (sensed (world r) (S (reads (world r)))) (motor_id - 1) = Ok lo
    ∧ dict_get motor_id table = Some (Some lo, Some hi)
    ∧ (∀ m, m ≠ motor_id →
         dict_get m table = dict_get m (motor_limits self)
         ∧ dict_get m ratios = dict_get m (joint_to_motor_ratios self))
    ∧ commands r' = commands r ∧ sensed_current r' = sensed_current r
    ∧ sensed (world r') = sensed (world r)
    ∧ reads (world r') = reads (world r) + 12
    ∧ writes (world r') = writes (world r).
Proof.
  unfold manual_joint. intros H.
  apply rbindR_Returns in H as (motor_id & r1 & H1 & H).
  apply of_result_Returns in H1 as [Hm ->].
  apply rbindR_Returns in H as (pos & r1 & H1 & H).
  rewrite get_motor_pos_run in H1. injection H1 as <- <-.
  apply rbindR_Returns in H as (hi & r1 & H1 & H).
  apply of_result_Returns in H1 as [Hhi ->].
  apply rbindR_Returns in H as (table1 & r1 & H1 & H).
  apply of_result_Returns in H1 as [Ht1 ->].
  apply store_bound_Ok in Ht1 as (pair & Hpair & ->).
  apply rbindR_Returns in H as (pos & r1 & H1 & H).
  rewrite get_motor_pos_run in H1. injection H1 as <- <-.
  apply rbindR_Returns in H as (lo & r1 & H1 & H).
  apply of_result_Returns in H1 as [Hlo ->].
  apply rbindR_Returns in H as (table2 & r1 & H1 & H).
  apply of_result_Returns in H1 as [Ht2 ->].
  apply store_bound_Ok in Ht2 as (pair2 & Hpair2 & ->).
  rewrite dict_get_set_eq in Hpair2. injection Hpair2 as <-.
  apply rbindR_Returns in H as (name & r1 & H1 & H).
  apply of_result_Returns in H1 as [_ ->].
  apply rbindR_Returns in H as (rom & r1 & H1 & H).
  apply of_result_Returns in H1 as [_ ->].
  destruct (decide ((rom.2 - rom.1)%Qc = 0%Qc)); [done|].
  apply rbindR_Returns in H as ([] & r1 & H1 & H).
  apply on_world_Returns in H1 as (w1 & Hw1 & ->). injection Hw1 as <-.
  apply rbindR_Returns in H as ([] & r2 & H1 & H).
  apply on_world_Returns in H1 as (w2 & Hw2 & ->). injection Hw2 as <-.
  apply rbindR_Returns in H as ([] & r3 & H1 & H).
  apply manual_display_Returns in H1 as (Hc & Hsc & Hs & Hr & Hw & _).
  injection H as <- <- <-. simpl in *.
  eexists motor_id, _, _, lo, hi.
  split; [by apply dict_item_Ok|].
  split; [reflexivity|].
  split.
  { rewrite !dict_keys_set_present; [done | by rewrite Hpair |].
    by rewrite dict_get_set_eq. }
  split; [done|]. split; [done|].
  split; [apply dict_get_set_eq|].
  split.
  { intros m Hne. by rewrite !dict_get_set_ne. }
  split_and!; try done. rewrite Hr. lia.
Qed.

Lemma manual_progress_nil self r : manual_progress [] self self r r.
Proof.
  unfold manual_progress. split_and!; try done; try (simpl; lia); eauto.
  intros joint Hin. by apply elem_of_nil in Hin.
Qed.

Lemma manual_progress_app l1 l2 a b c ra rb rc :
  manual_progress l1 a b ra rb → manual_progress l2 b c rb rc →
  manual_progress (l1 ++ l2) a c ra rc.
Proof.
  intros ((Hj1 & Hi1 & Hx1) & Hk1 & Hn1 & Hb1 & Ho1 & Hc1 & Hsc1 & Hs1 & Hr1 & Hw1)
         ((Hj2 & Hi2 & Hx2) & Hk2 & Hn2 & Hb2 & Ho2 & Hc2 & Hsc2 & Hs2 & Hr2 & Hw2).
  unfold manual_progress. split_and!; try congruence.
  - intros joint Hin. apply elem_of_app in Hin as [Hin|Hin].
    + destruct (Hn1 joint Hin) as (m & lo & hi & Hm & Hl).
      destruct (Hb2 m lo hi Hl) as (lo' & hi' & Hl'). eauto 6.
    + destruct (Hn2 joint Hin) as (m & lo & hi & Hm & Hl).
      rewrite Hj1 in Hm. eauto 6.
  - intros m lo hi Hl. destruct (Hb1 m lo hi Hl) as (lo' & hi' & Hl'). eauto.
  - intros m Hfree.
    destruct (Ho1 m) as [E1 E2].
    { intros joint Hin. apply Hfree, elem_of_app. by left. }
    destruct (Ho2 m) as [E3 E4]; [|split; congruence].
    intros joint Hin. rewrite Hj1. apply Hfree, elem_of_app. by right.
  - rewrite Hr2, Hr1, length_app. lia.
Qed.

Lemma manual_joint_progress self joint cj r self' cj' r' :
  manual_joint self joint cj r = (Returns (self', cj'), r') →
  manual_progress [joint] self self' r r'.
Proof.
  intros H. apply manual_joint_Returns in H
    as (motor_id & table & ratios & lo & hi & Hm & -> & Hk & _ & _ & Hl & Ho
        & Hc & Hsc & Hs & Hr & Hw).
  unfold manual_progress. simpl. split_and!; try done.
  - intros joint' Hin. apply list_elem_of_singleton in Hin as ->. eauto 6.
  - intros m lo' hi' Hl'. destruct (decide (m = motor_id)) as [->|Hne]; [eauto|].
    destruct (Ho m Hne) as [-> _]. eauto.
  - intros m Hfree. apply Ho. intros ->. eapply Hfree; [|done].
    by apply list_elem_of_singleton.
Qed.

Lemma manual_joints_progress items : ∀ self cj r self' cj' r',
  manual_joints self items cj r = (Returns (self', cj'), r') →
  manual_progress (dict_keys items) self self' r r'.
Proof.
  induction items as [|[joint d] rest IH]; intros self cj r self' cj' r'; simpl.
  - intros [= <- <- <-]. apply manual_progress_nil.
  - intros H. apply rbindR_Returns in H as ([self1 cj1] & r1 & H1 & H).
    apply manual_joint_progress in H1. apply IH in H.
    apply (manual_progress_app [joint] _ _ _ _ _ _ _ H1 H).
Qed.

Lemma manual_steps_progress steps : ∀ self cj r self' cj' r',
  manual_steps self steps cj r = (Returns (self', cj'), r') →
  manual_progress (concat ((λ step, dict_keys (joints step)) <$> steps))
    self self' r r'.
Proof.
  induction steps as [|step later IH]; intros self cj r self' cj' r'; simpl.
  - intros [= <- <- <-]. apply manual_progress_nil.
  - intros H. apply rbindR_Returns in H as ([self1 cj1] & r1 & H1 & H).
    apply manual_joints_progress in H1. apply IH in H.
    apply (manual_progress_app _ _ _ _ _ _ _ _ H1 H).
Qed.

Lemma set_joint_pos_Ok self joint_pos w w' :
  set_joint_pos self joint_pos w = (Ok tt, w') →
  ∃ v, w' = after_write (motor_ids self) v (after_read (after_read w))
       ∧ length v = length (motor_ids self).
Proof.
  destruct (joint_to_motor_loop self joint_pos (sensed w (reads w)))
    as [e|v] eqn:Hv.
  - by rewrite (set_joint_pos_raise _ _ _ _ Hv).
  - rewrite (set_joint_pos_return _ _ _ _ Hv).
    case_decide; [|done]. intros [= <-]. eauto.
Qed.

Lemma rbindR_run {A B} (m : R A) (k : A → R B) r a r1 :
  m r = (Returns a, r1) → rbindR m k r = k a r1.
Proof. unfold rbindR. by intros ->. Qed.

Lemma rbindR_raise {A B} (m : R A) (k : A → R B) r e r1 :
  m r = (Raises e, r1) → rbindR m k r = (Raises e, r1).
Proof. unfold rbindR. by intros ->. Qed.

(** X18.  [calibrate_manual] stores into the pairs of [self.motor_limits]
    and never creates one.  When the limit table has no entry for the
    motor of the first joint of the sequence, as on a hand whose
    calibration file has no limits yet, the call raises [KeyError] at the
    first store: the torque has been disabled and is not enabled again,
    one position was read, nothing was written to the motors or to the
    calibration file. *)
Theorem manual_calibration_needs_limit_entries
    (self : OrcaHand) (r : Rig) (step : calib_step) (later : list calib_step)
    (joint direction : string) (rest : dict string string) (motor_id : Z) :
  calib_sequence self = step :: later →
  joints step = (joint, direction) :: rest →
  dict_get joint (joint_to_motor_map self) = Some motor_id →
  dict_get motor_id (motor_limits self) = None →
  is_Some (py_index (length (sensed (world r) (reads (world r))))
             (motor_id - 1)) →
  calibrate_manual self r
  = (Raises (Exn KeyError),
     with_world (after_read (world r))
       (sent [TorqueEnabled (motor_ids self) false] r)).
Proof.
  intros Hseq Hjoints Hm Hnone [i Hi].
  assert (Hlt : i < length (sensed (world r) (reads (world r)))).
  { unfold py_index in Hi. repeat case_decide; simplify_eq; lia. }
  apply lookup_lt_is_Some in Hlt as [x Hx].
  unfold calibrate_manual, disable_torque.
  rewrite (rbindR_run _ _ _ _ _ (send_run _ r)).
  apply rbindR_raise. rewrite Hseq. cbn [manual_steps].
  apply rbindR_raise. rewrite Hjoints. cbn [manual_joints].
  apply rbindR_raise. unfold manual_joint.
  erewrite rbindR_run
    by (unfold of_result, dict_item; rewrite Hm; reflexivity).
  erewrite rbindR_run by apply get_motor_pos_run.
  erewrite rbindR_run
    by (unfold of_result, seq_item; cbn [world sent]; rewrite Hi, Hx;
        reflexivity).
  apply rbindR_raise. unfold of_result, store_bound, dict_item.
  by rewrite Hnone.
Qed.

Lemma manual_calibration_needs_limit_entries_witness :
  calibrate_manual (set_motor_limits [] demo_hand) demo_rig
  = (Raises (Exn KeyError),
     with_world (after_read demo_world)
       (sent [TorqueEnabled [1%Z; 2%Z] false] demo_rig)).
Proof.
  apply (manual_calibration_needs_limit_entries
           (set_motor_limits [] demo_hand) demo_rig
           {| joints := [("thumb", "flex")] |}
           [ {| joints := [("thumb", "extend")] |} ]
           "thumb" "flex" [] 1%Z); try reflexivity.
  by eexists.
Defined.

(** X19.  What a call of [calibrate_manual] that returns has done to the
    transport and to the calibration file.  It has sent three commands:
    torque off, torque on, and the operating current [max_current]; it
    sets neither a control mode nor the calibration current.  It has read
    the transport twelve times for every joint that the sequence names,
    and twice more for the final command; it has written positions once,
    one per declared motor.  The flag of the object is what
    [is_calibrated] computes, and the three keys of the calibration file
    hold the flag, the limit table and the ratio table of the object. *)
Theorem manual_calibration_protocol (self self' : OrcaHand) (r r' : Rig) :
  calibrate_manual self r = (Returns self', r') →
  commands r'
  = commands r
    ++ [TorqueEnabled (motor_ids self) false;
        TorqueEnabled (motor_ids self) true;
        DesiredCurrent (motor_ids self)
          (replicate (length (motor_ids self)) (Qc_of_Z (max_current self)))]
  ∧ reads (world r')
    = reads (world r) + 12 * length (sequenced_joints self) + 2
  ∧ (∃ v, writes (world r') = writes (world r) ++ [(motor_ids self, v)]
          ∧ length v = length (motor_ids self))
  ∧ calibrated self' = is_calibrated self'
  ∧ dict_get "calibrated" (calib_file (world r'))
    = Some (YBool (calibrated self'))
  ∧ dict_get "motor_limits" (calib_file (world r'))
    = Some (YLimits (motor_limits self'))
  ∧ dict_get "joint_to_motor_ratios" (calib_file (world r'))
    = Some (YRatios (joint_to_motor_ratios self')).
Proof.
  unfold calibrate_manual. intros H.
  apply rbindR_Returns in H as ([] & r1 & H1 & H).
  unfold disable_torque in H1. rewrite send_run in H1. injection H1 as <-.
  apply rbindR_Returns in H as ([ran cj] & r2 & Hsteps & H).
  apply manual_steps_progress in Hsteps
    as ((_ & Hids & Hmax) & _ & _ & _ & _ & Hc & _ & _ & Hr & Hw).
  fold (sequenced_joints self) in Hr.
  apply rbindR_Returns in H as ([] & r3 & H1 & H).
  unfold enable_torque in H1. rewrite send_run in H1. injection H1 as <-.
  apply rbindR_Returns in H as ([] & r4 & H1 & H).
  apply on_world_Returns in H1 as (w4 & Hw4 & ->). injection Hw4 as <-.
  apply rbindR_Returns in H as ([] & r5 & H1 & H).
  apply on_world_Returns in H1 as (w5 & Hw5 & ->). injection Hw5 as <-.
  apply rbindR_Returns in H as ([] & r6 & H1 & H).
  apply on_world_Returns in H1 as (w6 & Hw6 & ->). injection Hw6 as <-.
  apply rbindR_Returns in H as ([] & r7 & H1 & H).
  apply on_world_Returns in H1 as (w7 & Hw7 & ->).
  apply set_joint_pos_Ok in Hw7 as (v & -> & Hlen).
  apply rbindR_Returns in H as ([] & r8 & H1 & H).
  simpl in H1. injection H1 as <-. injection H as <- <-.
  simpl in *. rewrite Hids, Hmax in *.
  split_and!.
  - rewrite Hc. by rewrite <- !app_assoc.
  - rewrite Hr. lia.
  - exists v. by rewrite Hw.
  - done.
  - apply dict_get_set_eq.
  - rewrite dict_get_set_ne by done. apply dict_get_set_eq.
  - rewrite !dict_get_set_ne by done. apply dict_get_set_eq.
Qed.

Lemma manual_calibration_protocol_witness :
  ∃ self' r',
    calibrate_manual demo_hand demo_rig = (Returns self', r')
    ∧ reads (world r') = 26
    ∧ commands r'
      = [TorqueEnabled [1%Z; 2%Z] false; TorqueEnabled [1%Z; 2%Z] true;
         DesiredCurrent [1%Z; 2%Z] [Qc_of_Z 300; Qc_of_Z 300]].
Proof.
  assert (Hrun : ∃ self' r',
            calibrate_manual demo_hand demo_rig = (Returns self', r')).
  { eexists _, _. vm_compute. reflexivity. }
  destruct Hrun as (self' & r' & Hrun). exists self', r'.
  destruct (manual_calibration_protocol demo_hand self' demo_rig r' Hrun)
    as (Hc & Hr & _).
  split; [exact Hrun|]. split; [exact Hr | exact Hc].
Defined.

(** X20.  What a call of [calibrate_manual] that returns has done to the
    limit table.  The table has the keys it had.  The motor of every joint
    that the sequence names has both bounds, whatever the direction that
    the step gives; the motors that no named joint drives keep their pair
    and their ratio, so that, unlike [calibrate], the call does not start
    from an empty table.  When the table has no duplicate key and each of
    its motors had both bounds or drives a named joint, the object is
    marked calibrated. *)
Theorem manual_calibration_completes_named_joints
    (self self' : OrcaHand) (r r' : Rig) :
  calibrate_manual self r = (Returns self', r') →
  dict_keys (motor_limits self') = dict_keys (motor_limits self)
  ∧ (∀ joint, joint ∈ sequenced_joints self →
       ∃ motor_id lo hi,
         dict_get joint (joint_to_motor_map self) = Some motor_id
         ∧ dict_get motor_id (motor_limits self') = Some (Some lo, Some hi))
  ∧ (∀ m, (∀ joint, joint ∈ sequenced_joints self →
             dict_get joint (joint_to_motor_map self) ≠ Some m) →
       dict_get m (motor_limits self') = dict_get m (motor_limits self)
       ∧ dict_get m (joint_to_motor_ratios self')
         = dict_get m (joint_to_motor_ratios self))
  ∧ (dict_wf (motor_limits self) →
     (∀ m pair, dict_get m (motor_limits self) = Some pair →
        both_defined pair
        ∨ ∃ joint, joint ∈ sequenced_joints self
                   ∧ dict_get joint (joint_to_motor_map self) = Some m) →
     calibrated self' = true).
Proof.
  unfold calibrate_manual. intros H.
  apply rbindR_Returns in H as ([] & r1 & _ & H).
  apply rbindR_Returns in H as ([ran cj] & r2 & Hsteps & H).
  apply manual_steps_progress in Hsteps as (_ & Hk & Hn & Hb & Ho & _).
  fold (sequenced_joints self) in Hn, Ho.
  apply rbindR_Returns in H as ([] & r3 & _ & H).
  apply rbindR_Returns in H as ([] & r4 & _ & H).
  apply rbindR_Returns in H as ([] & r5 & _ & H).
  apply rbindR_Returns in H as ([] & r6 & _ & H).
  apply rbindR_Returns in H as ([] & r7 & _ & H).
  apply rbindR_Returns in H as ([] & r8 & _ & H).
  injection H as <- _. simpl in *.
  split; [done|]. split; [done|]. split; [done|].
  intros Hwf Hcover. unfold is_calibrated.
  apply is_calibrated_loop_Forall, Forall_forall. intros pair Hin.
  apply list_elem_of_fmap in Hin as ([m pair'] & -> & Hin). simpl.
  assert (Hkey : m ∈ dict_keys (motor_limits self)).
  { rewrite <- Hk. apply list_elem_of_fmap. by exists (m, pair'). }
  destruct (dict_get m (motor_limits self)) as [pair0|] eqn:Hget.
  2: { by apply dict_get_None_keys in Hget. }
  assert (Hboth : ∃ lo hi,
            dict_get m (motor_limits ran) = Some (Some lo, Some hi)).
  { destruct (Hcover m pair0 Hget) as [Hdef|(joint & Hj & Hm)].
    - destruct pair0 as [[lo|] [hi|]];
        try (by destruct Hdef as [[? [=]] [? [=]]]).
      eapply Hb, Hget.
    - destruct (Hn joint Hj) as (m' & lo & hi & Hm' & Hl).
      rewrite Hm in Hm'. injection Hm' as <-. eauto. }
  destruct Hboth as (lo & hi & Hl).
  apply dict_elem_get in Hin; [|unfold dict_wf; by rewrite Hk].
  rewrite Hl in Hin. injection Hin as <-. split; simpl; eauto.
Qed.

Lemma manual_calibration_completes_named_joints_witness :
  ∃ self' r',
    calibrate_manual demo_hand demo_rig = (Returns self', r')
    ∧ dict_get 2%Z (motor_limits self') = Some (None, Some (Q2Qc 1))
    ∧ ∃ lo hi, dict_get 1%Z (motor_limits self') = Some (Some lo, Some hi).
Proof.
  assert (Hrun : ∃ self' r',
            calibrate_manual demo_hand demo_rig = (Returns self', r')).
  { eexists _, _. vm_compute. reflexivity. }
  destruct Hrun as (self' & r' & Hrun). exists self', r'.
  destruct (manual_calibration_completes_named_joints
              demo_hand self' demo_rig r' Hrun) as (_ & Hn & Ho & _).
  split; [exact Hrun|]. clear Hrun. split.
  - destruct (Ho 2%Z) as [-> _]; [|reflexivity].
    clear Hn Ho. intros joint Hin Hm.
    assert (Hj : joint = "thumb").
    { vm_compute in Hin.
      apply elem_of_cons in Hin as [->|Hin]; [reflexivity|].
      apply elem_of_cons in Hin as [->|Hin]; [reflexivity|].
      apply elem_of_nil in Hin. destruct Hin. }
    subst joint. vm_compute in Hm. discriminate Hm.
  - destruct (Hn "thumb") as (m & lo & hi & Hm & Hl).
    { vm_compute. left. }
    injection Hm as <-. exists lo, hi. exact Hl.
Defined.

Lemma on_world_set_joint_pos_nil self r :
  on_world (set_joint_pos self []) r
  = let pos := sensed (world r) (reads (world r)) in
    if decide (length pos = length (motor_ids self))
    then (Returns tt,
          with_world (after_write (motor_ids self) pos
                        (after_read (after_read (world r)))) r)
    else (Raises (Exn (AssertionError count_mismatch_msg)),
          with_world (after_read (after_read (world r))) r).
Proof.
  unfold on_world. rewrite (set_joint_pos_return self [] (world r) _ eq_refl).
  simpl. by case_decide.
Qed.

(** X21.  With an empty [calib_sequence], [calibrate_manual] prompts for
    nothing and, unlike [calibrate], does not fail on
    [calibrated_joints], which it binds before the loop.  When the
    transport reports one position per declared motor the call returns:
    the flag is recomputed from the limit table that the object had, and
    the motors are commanded to the positions they report.  Otherwise the
    assertion of [_set_motor_pos] fails after the torque was enabled, and
    the operating current is not set. *)
Theorem manual_calibration_without_steps (self : OrcaHand) (r : Rig) :
  calib_sequence self = [] →
  let pos := sensed (world r) (reads (world r)) in
  (length pos = length (motor_ids self) →
   ∃ r',
     calibrate_manual self r
     = (Returns (set_calibrated (is_calibrated self) self), r')
     ∧ writes (world r') = writes (world r) ++ [(motor_ids self, pos)]
     ∧ commands r'
       = commands r
         ++ [TorqueEnabled (motor_ids self) false;
             TorqueEnabled (motor_ids self) true;
             DesiredCurrent (motor_ids self)
               (replicate (length (motor_ids self))
                  (Qc_of_Z (max_current self)))])
  ∧ (length pos ≠ length (motor_ids self) →
     ∃ r',
       calibrate_manual self r
       = (Raises (Exn (AssertionError count_mismatch_msg)), r')
       ∧ writes (world r') = writes (world r)
       ∧ commands r'
         = commands r
           ++ [TorqueEnabled (motor_ids self) false;
               TorqueEnabled (motor_ids self) true]).
Proof.
  intros Hseq pos.
  unfold calibrate_manual, disable_torque, enable_torque.
  rewrite (rbindR_run _ _ r _ _ (send_run _ r)). rewrite Hseq.
  cbn [manual_steps].
  rewrite (rbindR_run (rret _) _ _ _ _ eq_refl). cbn [fst snd default].
  rewrite (rbindR_run _ _ _ _ _ (send_run _ _)).
  rewrite !(rbindR_run (on_world (update_yaml _ _)) _ _ _ _ eq_refl).
  match goal with
  | |- context [rbindR (on_world (set_joint_pos ?s [])) _ ?r5] =>
      pose proof (on_world_set_joint_pos_nil s r5) as Hset
  end.
  cbn [world with_world sent reads sensed update_yaml motor_ids
       set_calibrated] in Hset.
  split; intros Hlen.
  - rewrite decide_True in Hset by exact Hlen.
    rewrite (rbindR_run _ _ _ _ _ Hset).
    eexists. split; [reflexivity|]. cbn. split; [done|].
    by rewrite <- !app_assoc.
  - rewrite decide_False in Hset by exact Hlen.
    rewrite (rbindR_raise _ _ _ _ _ Hset).
    eexists. split; [reflexivity|]. cbn. split; [done|].
    by rewrite <- !app_assoc.
Qed.

Lemma manual_calibration_without_steps_witness :
  ∃ r',
    calibrate_manual unsequenced_hand demo_rig
    = (Returns (set_calibrated true unsequenced_hand), r')
    ∧ writes (world r') = [([1%Z; 2%Z], [Q2Qc 0.25; Q2Qc 0.5])].
Proof.
  destruct (manual_calibration_without_steps unsequenced_hand demo_rig eq_refl)
    as [Hret _].
  destruct (Hret eq_refl) as (r' & Hrun & Hw & _).
  exists r'. split; [exact Hrun | exact Hw].
Defined.

(** ** What [calibrate] does to the motors it does not drive *)

Lemma calib_observe_frame self curr_pos motor_id st st' :
  calib_observe self curr_pos motor_id st = Ok st' →
  dict_keys (motor_reached_limit st') = dict_keys (motor_reached_limit st)
  ∧ is_Some (dict_get motor_id (motor_reached_limit st))
  ∧ ∀ m, m ≠ motor_id → dict_get m (limits st') = dict_get m (limits st).
Proof.
  unfold calib_observe. intros H.
  apply rbind_Ok in H as (reached & Hreached & H).
  apply dict_item_Ok in Hreached.
  split_and!; [|eauto|]; destruct reached;
    try (by injection H as <-);
    apply rbind_Ok in H as (buf & _ & H);
    apply rbind_Ok in H as (x & _ & H);
    apply rbind_Ok in H as (stable & _ & H); destruct stable;
    try (by injection H as <-);
    apply rbind_Ok in H as (joint & _ & H);
    apply rbind_Ok in H as (d & _ & H);
    apply rbind_Ok in H as (lims & Hlims & H); injection H as <-; simpl.
  - apply dict_keys_set_present. eauto.
  - by apply record_limit_spec in Hlims as [Hother _].
Qed.

Lemma calib_sample_Returns self curr_pos motor_id st r st' r' :
  calib_sample self curr_pos motor_id st r = (Returns st', r') →
  calib_observe self curr_pos motor_id st = Ok st'.
Proof.
  unfold calib_sample, calib_observe.
  destruct (dict_item motor_id (motor_reached_limit st)) as [e|[]]; [done| |].
  { by intros [= <- <-]. }
  intros H.
  apply rbindR_Returns in H as (? & r1 & H1 & H).
  apply of_result_Returns in H1 as [_ ->].
  apply rbindR_Returns in H as (? & r1 & H1 & H).
  apply of_result_Returns in H1 as [_ ->].
  apply rbindR_Returns in H as (currents & r1 & H1 & H).
  apply rbindR_Returns in H as (? & r2 & H1' & H).
  apply of_result_Returns in H as [Hobs _].
  unfold calib_observe in Hobs.
  destruct (dict_item motor_id (motor_reached_limit st)) as [e|[]]; done.
Qed.

Lemma calib_sample_all_undriven self curr_pos ids : ∀ st r st' r',
  calib_sample_all self curr_pos ids st r = (Returns st', r') →
  undriven_frame st st'.
Proof.
  induction ids as [|mid ids IH]; intros st r st' r'; simpl.
  - by intros [= <- <-].
  - intros H. apply rbindR_Returns in H as (st1 & r1 & H1 & H).
    apply calib_sample_Returns, calib_observe_frame in H1
      as (Hk1 & Hin1 & Ho1).
    apply IH in H as (Hk & Ho). split; [congruence|].
    intros m Hm. rewrite Ho by (by rewrite Hk1). apply Ho1.
    intros ->. apply dict_get_None_keys in Hm. rewrite Hm in Hin1.
    by destruct Hin1.
Qed.

Lemma drive_undriven fuel self : ∀ st r st' r',
  drive fuel self st r = (Returns st', r') → undriven_frame st st'.
Proof.
  induction fuel as [|fuel IH]; intros st r st' r'; simpl;
    destruct (forallb id (dict_values (motor_reached_limit st)));
    try (by intros [= <- <-]).
  intros H.
  apply rbindR_Returns in H as (incr & r1 & _ & H).
  apply rbindR_Returns in H as ([] & r2 & _ & H).
  apply rbindR_Returns in H as (curr_pos & r3 & _ & H).
  apply rbindR_Returns in H as (st1 & r4 & H1 & H).
  apply calib_sample_all_undriven in H1 as (Hk1 & Ho1).
  apply IH in H as (Hk & Ho). simpl in *. split; [congruence|].
  intros m Hm. rewrite Ho by (by rewrite Hk1). by apply Ho1.
Qed.

Lemma init_step_motors self items : ∀ st st' m,
  init_step self items st = Ok st' →
  m ∈ dict_keys (motor_reached_limit st') →
  m ∈ dict_keys (motor_reached_limit st)
  ∨ ∃ joint, joint ∈ dict_keys items
             ∧ dict_get joint (joint_to_motor_map self) = Some m.
Proof.
  induction items as [|[joint d] rest IH]; intros st st' m; simpl.
  - intros [= <-]. by left.
  - intros H Hin. apply rbind_Ok in H as (m0 & Hm0 & H).
    apply dict_item_Ok in Hm0.
    destruct (IH _ _ m H Hin) as [Hold|(joint' & Hj' & Hm')].
    + simpl in Hold. rewrite dict_keys_set in Hold.
      destruct (bool_decide _); [by left|].
      apply elem_of_app in Hold as [?|Hnew]; [by left|].
      apply list_elem_of_singleton in Hnew as ->.
      right. exists joint. split; [left | done].
    + right. exists joint'. split; [by right | done].
Qed.

Lemma calibrate_step_undriven fuel self table step r self' table' zeroed r' m :
  calibrate_step fuel self table step r = (Returns (self', table', zeroed), r') →
  (∀ joint, joint ∈ dict_keys (joints step) →
            dict_get joint (joint_to_motor_map self) ≠ Some m) →
  dict_get m table' = dict_get m table.
Proof.
  unfold calibrate_step. intros H Hfree.
  apply rbindR_Returns in H as (st & r1 & H1 & H).
  apply of_result_Returns in H1 as [Hinit ->].
  pose proof (init_step_limits _ _ _ _ Hinit) as Hlim. simpl in Hlim.
  apply rbindR_Returns in H as (st' & r1 & H1 & H).
  apply drive_undriven in H1 as (_ & Ho).
  apply rbindR_Returns in H as (computed & r2 & _ & H).
  apply rbindR_Returns in H as ([] & r3 & _ & H).
  apply rbindR_Returns in H as ([] & r4 & _ & H).
  apply rbindR_Returns in H as ([] & r5 & _ & H).
  injection H as _ <- _ _. rewrite Ho, Hlim; [done|].
  intros Hin.
  destruct (init_step_motors _ _ _ _ m Hinit Hin) as [Hnil|(joint & Hj & Hm)].
  - by apply elem_of_nil in Hnil.
  - by apply (Hfree joint).
Qed.

Lemma calibrate_steps_undriven fuel steps : ∀ self table cj r self' cj' r' m,
  calibrate_steps fuel self table cj steps r = (Returns (self', cj'), r') →
  steps ≠ [] →
  (∀ joint,
     joint ∈ concat ((λ step, dict_keys (joints step)) <$> steps) →
     dict_get joint (joint_to_motor_map self) ≠ Some m) →
  dict_get m (motor_limits self') = dict_get m table.
Proof.
  induction steps as [|step later IH];
    intros self table cj r self' cj' r' m H Hne Hfree; [done|].
  simpl in H, Hfree.
  apply rbindR_Returns in H as ([[self1 table1] zeroed] & r1 & H1 & H).
  pose proof (calibrate_step_post _ _ _ _ _ _ _ _ _ H1)
    as (ratios1 & -> & _).
  apply calibrate_step_undriven with (m := m) in H1.
  2: { intros joint Hin. apply Hfree, elem_of_app. by left. }
  simpl in H. destruct later as [|step2 later].
  - simpl in H. injection H as <- _ _. by simpl.
  - rewrite <- H1. eapply IH; [exact H | done |].
    intros joint Hin. apply Hfree, elem_of_app. by right.
Qed.

Lemma empty_limits_get self m :
  m ∈ motor_ids self → dict_get m (empty_limits self) = Some (None, None).
Proof.
  unfold empty_limits.
  assert (Hgen : ∀ ids (acc : dict Z (option Qc * option Qc)),
    m ∈ ids ∨ dict_get m acc = Some (None, None) →
    dict_get m (fold_left (λ acc motor_id, dict_set motor_id (None, None) acc)
                  ids acc) = Some (None, None)).
  { induction ids as [|m0 ids IH]; intros acc Hm; simpl.
    - destruct Hm as [Hin|Hm]; [by apply elem_of_nil in Hin | done].
    - apply IH. destruct (decide (m = m0)) as [->|Hne].
      + right. apply dict_get_set_eq.
      + destruct Hm as [Hin|Hm].
        * left. by apply elem_of_cons in Hin as [?|?].
        * right. by rewrite dict_get_set_ne. }
  intros Hin. apply Hgen. by left.
Qed.

(** X22.  [calibrate] starts from an empty limit table whatever the
    object held.  When it returns, a declared motor that drives no joint
    named in a step of the calibration sequence has the pair
    [[None, None]], also if it had both bounds before the call, and the
    object is marked as not calibrated. *)
Theorem calibrate_forgets_undriven_motors
    (fuel : nat) (self self' : OrcaHand) (r r' : Rig) (m : Z) :
  calibrate fuel self r = (Returns self', r') →
  m ∈ motor_ids self →
  (∀ joint, joint ∈ sequenced_joints self →
            dict_get joint (joint_to_motor_map self) ≠ Some m) →
  dict_get m (motor_limits self') = Some (None, None)
  ∧ calibrated self' = false.
Proof.
  unfold calibrate. intros H Hm Hfree.
  apply rbindR_Returns in H as ([] & r1 & _ & H).
  apply rbindR_Returns in H as ([] & r2 & _ & H).
  apply rbindR_Returns in H as ([] & r3 & _ & H).
  apply rbindR_Returns in H as ([self1 cj] & r4 & Hsteps & H).
  apply rbindR_Returns in H as ([] & r5 & _ & H).
  apply rbindR_Returns in H as (joints & r6 & H1 & H).
  simpl in H1. destruct cj as [cj|]; [|done].
  apply rbindR_Returns in H as ([] & r7 & _ & H).
  apply rbindR_Returns in H as ([] & r8 & _ & H).
  injection H as <- _.
  assert (Hseq : calib_sequence self ≠ []).
  { intros Hnil. rewrite Hnil in Hsteps. simpl in Hsteps.
    by injection Hsteps. }
  apply calibrate_steps_undriven with (m := m) in Hsteps; [|done..].
  rewrite empty_limits_get in Hsteps by done. simpl.
  split; [done|].
  apply not_true_is_false. intros Hcal.
  apply is_calibrated_loop_Forall in Hcal.
  apply dict_get_Some_elem in Hsteps.
  assert (Hin : (None, None) ∈ dict_values (motor_limits self1)).
  { apply list_elem_of_fmap. by exists (m, (None, None)). }
  rewrite Forall_forall in Hcal. destruct (Hcal _ Hin) as [[? [=]] _].
Qed.

Lemma calibrate_forgets_undriven_motors_witness :
  ∃ self' r',
    calibrate 10 demo_hand demo_rig = (Returns self', r')
    ∧ dict_get 2%Z (motor_limits demo_hand) = Some (None, Some (Q2Qc 1))
    ∧ dict_get 2%Z (motor_limits self') = Some (None, None)
    ∧ calibrated self' = false.
Proof.
  assert (Hfree : ∀ joint, joint ∈ sequenced_joints demo_hand →
            dict_get joint (joint_to_motor_map demo_hand) ≠ Some 2%Z).
  { intros joint Hin Hm.
    assert (Hj : joint = "thumb").
    { vm_compute in Hin.
      apply elem_of_cons in Hin as [->|Hin]; [reflexivity|].
      apply elem_of_cons in Hin as [->|Hin]; [reflexivity|].
      apply elem_of_nil in Hin. destruct Hin. }
    subst joint. vm_compute in Hm. discriminate Hm. }
  assert (Hid : 2%Z ∈ motor_ids demo_hand) by (right; left).
  assert (Hrun : ∃ self' r', calibrate 10 demo_hand demo_rig
                             = (Returns self', r'))
    by (eexists _, _; vm_compute; reflexivity).
  destruct Hrun as (self' & r' & Hrun). exists self', r'.
  destruct (calibrate_forgets_undriven_motors 10 demo_hand self' demo_rig r'
              2%Z Hrun Hid Hfree) as [Hpair Hflag].
  split; [exact Hrun|]. split; [reflexivity|].
  split; [exact Hpair | exact Hflag].
Defined.

(** ** Reading a calibrated joint *)

(** X24.  In exact arithmetic, [get_joint_pos] on a motor with both
    bounds, with the ratio that [calibrate] computes.  When the two
    bounds differ the joint is reported as a number; the reading is the
    inverse of the command, in that the motor position that
    [_joint_to_motor_pos] computes for it is the position that was read,
    and the bounds themselves are reported as the ends of the range of
    motion.  When the lower bound is below the upper one, a motor
    position between the bounds is reported within the range and a
    position beyond a bound beyond the range.  When the two bounds are
    equal the ratio is 0 and the joint is reported as the non-finite
    result of a division by zero, whatever the position.  The numbers are
    the rationals of this development: the binary64 results of the code
    can differ from them by rounding, so that a motor at a bound can be
    read an ulp outside the range. *)
Theorem joint_reading_within_range
    (self : OrcaHand) (w w' : World)
    (joint_pos : dict (option string) (option npfloat))
    (m : Z) (joint : string) (lo hi x : Qc) (rom : Qc * Qc) :
  get_joint_pos self w = (Ok joint_pos, w') →
  (1 ≤ m)%Z →
  sensed w (reads w) !! Z.to_nat (m - 1) = Some x →
  dict_get m (motor_to_joint_map self) = Some joint →
  (∀ m', dict_get m' (motor_to_joint_map self) = Some joint → m' = m) →
  dict_get m (motor_limits self) = Some (Some lo, Some hi) →
  dict_get joint (joint_roms self) = Some rom →
  dict_get m (joint_to_motor_ratios self)
  = Some ((hi - lo) / (rom.2 - rom.1))%Qc →
  (rom.1 < rom.2)%Qc →
  (lo ≠ hi →
   ∃ q, dict_get (Some joint) joint_pos = Some (Some (Finite q))
        ∧ (lo + (q - rom.1) * ((hi - lo) / (rom.2 - rom.1)) = x
           ∧ (x = lo → q = rom.1) ∧ (x = hi → q = rom.2)
           ∧ (lo < hi →
              (lo ≤ x ≤ hi → rom.1 ≤ q ≤ rom.2)
              ∧ (hi < x → rom.2 < q) ∧ (x < lo → q < rom.1)))%Qc)
  ∧ (lo = hi → dict_get (Some joint) joint_pos = Some (Some NotFinite)).
Proof.
  intros Hrun Hm Hx Hj Hinj Hlim Hrom Hratio Hwidth.
  unfold get_joint_pos, mbind, get_motor_pos, read_pos, mlift in Hrun.
  injection Hrun as Hrun _. unfold _motor_to_joint_pos in Hrun.
  pose proof (motor_to_joint_loop_calibrated self _ 1 [] joint_pos m joint
                lo hi rom _ x Hrun Hm Hx Hj Hinj Hlim Hrom Hratio) as Hget.
  assert (Hw : (rom.2 - rom.1)%Qc ≠ 0%Qc).
  { intros Hz. apply Qcminus_pos in Hwidth. rewrite Hz in Hwidth.
    by apply (Qclt_not_eq 0 0). }
  split.
  - intros Hdiffer.
    assert (Ht : (hi - lo)%Qc ≠ 0%Qc).
    { intros Hz. apply Hdiffer. symmetry.
      replace hi with (hi - lo + lo)%Qc by ring. rewrite Hz. ring. }
    assert (Hne : ((hi - lo) / (rom.2 - rom.1))%Qc ≠ 0%Qc).
    { intros Hz. apply Ht.
      replace (hi - lo)%Qc
        with ((hi - lo) / (rom.2 - rom.1) * (rom.2 - rom.1))%Qc
        by (by field).
      rewrite Hz. ring. }
    unfold np_div in Hget. rewrite decide_False in Hget by done.
    simpl in Hget.
    assert (Hq : (rom.1 + (x - lo) / ((hi - lo) / (rom.2 - rom.1))
                  = rom.1 + (x - lo) * ((rom.2 - rom.1) / (hi - lo)))%Qc)
      by (by field).
    rewrite Hq in Hget. eexists. split; [exact Hget|].
    split; [by field|].
    split; [intros ->; unfold Qcdiv; ring|].
    split; [intros ->; by field|].
    intros Htravel.
    destruct (affine_image_bounds rom.1 rom.2 lo hi x Htravel
                (Qclt_le_weak _ _ Hwidth))
      as (Hge & Hle & Hlo & Hhi & Habove & Hbelow).
    split; [intros [? ?]; split; auto|].
    split; [by apply Habove | by apply Hbelow].
  - intros ->. unfold np_div in Hget. rewrite decide_True in Hget; [done|].
    unfold Qcdiv. ring.
Qed.

Lemma joint_reading_within_range_witness :
  ∃ joint_pos w' q,
    get_joint_pos demo_hand demo_world = (Ok joint_pos, w')
    ∧ dict_get (Some "thumb") joint_pos = Some (Some (Finite q))
    ∧ (Q2Qc 0 ≤ q ≤ Q2Qc 1.57)%Qc.
Proof.
  assert (Hread : ∃ joint_pos w',
            get_joint_pos demo_hand demo_world = (Ok joint_pos, w'))
    by (eexists _, _; vm_compute; reflexivity).
  destruct Hread as (joint_pos & w' & Hread). exists joint_pos, w'.
  assert (Hinj : ∀ m', dict_get m' (motor_to_joint_map demo_hand)
                       = Some "thumb" → m' = 1%Z).
  { intros m' Hm'. cbn [demo_hand motor_to_joint_map dict_get] in Hm'.
    destruct (decide (m' = 1%Z)) as [|Hne1]; [done|].
    destruct (decide (m' = 2%Z)); discriminate Hm'. }
  assert (Hratio : dict_get 1%Z (joint_to_motor_ratios demo_hand)
                   = Some ((Q2Qc 1 - Q2Qc (-1)) / (Q2Qc 1.57 - Q2Qc 0))%Qc).
  { simpl. f_equal; apply Qc_is_canon; reflexivity. }
  destruct (joint_reading_within_range demo_hand demo_world w' joint_pos
              1%Z "thumb" (Q2Qc (-1)) (Q2Qc 1) (Q2Qc 0.25)
              (Q2Qc 0, Q2Qc 1.57) Hread ltac:(lia) eq_refl eq_refl Hinj
              eq_refl eq_refl Hratio)
    as [Hin _]; [by apply (bool_decide_unpack _)|].
  destruct Hin as (q & Hq & _ & _ & _ & Hrange);
    [by apply (bool_decide_unpack _)|].
  exists q. split; [exact Hread|]. split; [exact Hq|].
  apply Hrange; [|split]; by apply (bool_decide_unpack _).
Defined.

(** ** The flag [calibrated] *)

Lemma joint_to_motor_loop_flag flag self joint_pos : ∀ motor_pos,
  joint_to_motor_loop (set_calibrated flag self) joint_pos motor_pos
  = joint_to_motor_loop self joint_pos motor_pos.
Proof.
  induction joint_pos as [|[joint pos] rest IH]; intros motor_pos; [done|].
  cbn [joint_to_motor_loop set_calibrated joint_to_motor_map motor_limits
       joint_roms joint_to_motor_ratios].
  destruct (dict_get joint (joint_to_motor_map self)) as [m|]; [|apply IH].
  destruct (dict_item m (motor_limits self)) as [e|[[lo|] [hi|]]];
    cbn [rbind]; try done.
  destruct (dict_item joint (joint_roms self)) as [e|rom]; cbn [rbind];
    [done|].
  destruct (dict_item m (joint_to_motor_ratios self)) as [e|ratio];
    cbn [rbind]; [done|].
  destruct (seq_store motor_pos (m - 1) _) as [e|mp]; cbn [rbind]; [done|].
  apply IH.
Qed.

Lemma motor_to_joint_loop_flag flag self motor_pos : ∀ motor_id acc,
  motor_to_joint_loop (set_calibrated flag self) motor_id motor_pos acc
  = motor_to_joint_loop self motor_id motor_pos acc.
Proof.
  induction motor_pos as [|pos rest IH]; intros motor_id acc; [done|].
  cbn [motor_to_joint_loop set_calibrated motor_to_joint_map motor_limits].
  destruct (dict_item motor_id (motor_limits self)) as [e|[[lo|] [hi|]]];
    cbn [rbind]; try done; try apply IH.
  change (motor_to_joint_value (set_calibrated flag self))
    with (motor_to_joint_value self).
  destruct (motor_to_joint_value self motor_id _ lo pos) as [e|v];
    cbn [rbind]; [done|]. apply IH.
Qed.

(** X25.  The decorators [require_connection] and [require_calibration]
    are defined after the class and applied to no method, so the flag
    [calibrated] gates no command: [_set_motor_pos], [set_joint_pos] and
    [get_joint_pos] run the same whatever the flag says.  What decides is
    the limit table: [is_calibrated] does not read the flag either. *)
Theorem calibrated_flag_gates_no_command (self : OrcaHand) (flag : bool) :
  (∀ desired rel_to_current w,
     _set_motor_pos (set_calibrated flag self) desired rel_to_current w
     = _set_motor_pos self desired rel_to_current w)
  ∧ (∀ joint_pos w,
       set_joint_pos (set_calibrated flag self) joint_pos w
       = set_joint_pos self joint_pos w)
  ∧ (∀ w, get_joint_pos (set_calibrated flag self) w = get_joint_pos self w)
  ∧ is_calibrated (set_calibrated flag self) = is_calibrated self.
Proof.
  split; [done|]. split; [|split; [|done]].
  - intros joint_pos w.
    unfold set_joint_pos, _joint_to_motor_pos, mbind, mlift.
    destruct (get_motor_pos w) as [[e|motor_pos] w1]; [done|].
    rewrite joint_to_motor_loop_flag.
    by destruct (joint_to_motor_loop self joint_pos motor_pos).
  - intros w. unfold get_joint_pos, _motor_to_joint_pos, mbind, mlift.
    destruct (get_motor_pos w) as [[e|motor_pos] w1]; [done|].
    by rewrite motor_to_joint_loop_flag.
Qed.

(** ** [calibrate] on a transport that does not move *)

Lemma deque_append_replicate n j x :
  j < n → deque_append n (replicate j x) x = replicate (S j) x.
Proof.
  intros Hj. unfold deque_append.
  rewrite decide_False by (rewrite length_app, length_replicate; simpl; lia).
  induction j as [|j IH]; [done|]. simpl. f_equal. apply IH. lia.
Qed.

Lemma Qcabs_nonneg x : (0 ≤ Qcabs x)%Qc.
Proof.
  unfold Qcabs. case_decide as Hx; [done|].
  apply Qcnot_le_lt, Qclt_le_weak, Qcminus_nonneg in Hx.
  by replace (0 - x)%Qc with (- x)%Qc in Hx by ring.
Qed.

Lemma np_allclose_replicate n x atol :
  (0 ≤ atol)%Qc → np_allclose (replicate n x) x atol = true.
Proof.
  intros Hatol. unfold np_allclose.
  induction n as [|n IH]; [done|]. cbn [replicate forallb].
  rewrite IH, andb_true_r. apply bool_decide_eq_true.
  replace (x - x)%Qc with 0%Qc by ring.
  assert (H0 : Qcabs 0 = 0%Qc) by done. rewrite H0.
  replace 0%Qc with (0 + 0)%Qc at 1 by ring.
  apply Qcplus_le_compat; [done|].
  apply Qcmult_nonneg_nonneg; [done | apply Qcabs_nonneg].
Qed.

Lemma at_limit_replicate self j x :
  j < calib_num_stable self → (0 ≤ calib_threshold self)%Qc →
  at_limit self (replicate (S j) x)
  = Ok (bool_decide (S j = calib_num_stable self)).
Proof.
  intros Hj Hthr. unfold at_limit. rewrite length_replicate.
  case_decide as Hfull.
  - rewrite bool_decide_true by done. rewrite seq_item_0. simpl.
    unfold rbind, Ok. f_equal.
    apply (np_allclose_replicate (S j) x _ Hthr).
  - by rewrite bool_decide_false.
Qed.

Lemma bounds_reported_set self pos table m lo hi x :
  bounds_reported self pos table →
  dict_get m table = Some (lo, hi) →
  seq_item pos (m - 1) = Ok x →
  is_Some (dict_get m (motor_to_joint_map self)) →
  let v := np_mean (replicate (calib_num_stable self) x) in
  bounds_reported self pos (dict_set m (lo, Some v) table)
  ∧ bounds_reported self pos (dict_set m (Some v, hi) table).
Proof.
  intros Htable Hm Hx Hj v.
  split; intros m' lo' hi' y Hget Hy;
    (destruct (decide (m' = m)) as [->|Hne];
     [rewrite dict_get_set_eq in Hget; injection Hget as <- <-
     |rewrite dict_get_set_ne in Hget by done; by eapply Htable]).
  - destruct Hy as [->|[= <-]]; [|split; [by exists x | done]].
    eapply Htable; [exact Hm | by left].
  - destruct Hy as [[= <-]| ->]; [split; [by exists x | done]|].
    eapply Htable; [exact Hm | by right].
Qed.

(** One sample of a motor that does not move. *)
Lemma calib_observe_stalled self pos j st m :
  j < calib_num_stable self → (0 ≤ calib_threshold self)%Qc →
  motor_at self pos j st m false →
  bounds_reported self pos (limits st) →
  ∃ st',
    calib_observe self pos m st = Ok st'
    ∧ motor_at self pos (S j) st' m
        (bool_decide (S j = calib_num_stable self))
    ∧ (∀ m' j' b, m' ≠ m → motor_at self pos j' st m' b →
                  motor_at self pos j' st' m' b)
    ∧ dict_keys (motor_reached_limit st') = dict_keys (motor_reached_limit st)
    ∧ desired_increment st' = desired_increment st
    ∧ bounds_reported self pos (limits st')
    ∧ dict_keys (limits st') = dict_keys (limits st).
Proof.
  intros Hj Hthr
    (Hid & Hr & (x & Hx & Hbuf) & (d & Hd) & [[lo hi] Hl] & Hjoint) Htable.
  pose proof Hjoint as [joint Hjt].
  unfold calib_observe, dict_item. rewrite Hr. cbn [rbind Ok].
  rewrite Hbuf. cbn [rbind Ok]. rewrite Hx. cbn [rbind Ok].
  rewrite deque_append_replicate by done.
  rewrite at_limit_replicate by done. cbn [rbind Ok].
  destruct (bool_decide (S j = calib_num_stable self)) eqn:Hfull.
  - apply bool_decide_eq_true in Hfull.
    rewrite Hjt. cbn [rbind Ok]. rewrite Hd. cbn [rbind Ok].
    rewrite Hfull.
    pose proof (bounds_reported_set self pos (limits st) m lo hi x
                  Htable Hl Hx Hjoint) as Hset.
    destruct Hset as [Hup Hdown].
    unfold direction_sign at 1. destruct (decide (d = "flex")).
    + rewrite (record_limit_flex _ _ _ _ _ Hl). cbn [rbind Ok].
      eexists. split; [reflexivity|].
      split.
      { unfold motor_at. cbn [directions position_buffers
          motor_reached_limit desired_increment limits].
        rewrite !dict_get_set_eq, Hd. split; [done|]. split; [done|].
        split; [eauto|]. split; [eauto|]. split; [eauto | done]. }
      split.
      { intros m' j' b Hne. unfold motor_at. cbn [directions
          position_buffers motor_reached_limit desired_increment limits].
        by rewrite !dict_get_set_ne. }
      split; [apply dict_keys_set_present; eauto|].
      split; [done|]. split; [done|].
      apply dict_keys_set_present. eauto.
    + rewrite (record_limit_extend _ _ _ _ _ Hl). cbn [rbind Ok].
      eexists. split; [reflexivity|].
      split.
      { unfold motor_at. cbn [directions position_buffers
          motor_reached_limit desired_increment limits].
        rewrite !dict_get_set_eq, Hd. split; [done|]. split; [done|].
        split; [eauto|]. split; [eauto|]. split; [eauto | done]. }
      split.
      { intros m' j' b Hne. unfold motor_at. cbn [directions
          position_buffers motor_reached_limit desired_increment limits].
        by rewrite !dict_get_set_ne. }
      split; [apply dict_keys_set_present; eauto|].
      split; [done|]. split; [done|].
      apply dict_keys_set_present. eauto.
  - eexists. split; [reflexivity|].
    split.
    { unfold motor_at. cbn [directions position_buffers
        motor_reached_limit desired_increment limits].
      rewrite dict_get_set_eq. split; [done|]. split; [done|].
      split; [eauto|]. split; [eauto|]. split; [eauto | done]. }
    split.
    { intros m' j' b Hne. unfold motor_at. cbn [directions
        position_buffers motor_reached_limit desired_increment limits].
      by rewrite !dict_get_set_ne. }
    done.
Qed.

Lemma seq_item_same_length {A B} (a : list A) (b : list B) k x :
  length b = length a → seq_item a k = Ok x → ∃ y, seq_item b k = Ok y.
Proof.
  unfold seq_item. intros Hlen. rewrite Hlen.
  destruct (py_index (length a) k) as [i|] eqn:Hi; [|done].
  destruct (a !! i) as [x'|] eqn:Hx; [|done]. intros _.
  apply lookup_lt_Some in Hx.
  destruct (lookup_lt_is_Some_2 b i) as [y Hy]; [lia|].
  rewrite Hy. eauto.
Qed.

Lemma stalled_after_read pos r :
  stalled pos r → stalled pos (with_world (after_read (world r)) r).
Proof. by intros [? ?]. Qed.

(** The same with the read of the current that precedes the test. *)
Lemma calib_sample_stalled self pos j st m r :
  j < calib_num_stable self → (0 ≤ calib_threshold self)%Qc →
  motor_at self pos j st m false →
  bounds_reported self pos (limits st) →
  stalled pos r →
  ∃ st' r',
    calib_sample self pos m st r = (Returns st', r')
    ∧ stalled pos r'
    ∧ motor_at self pos (S j) st' m
        (bool_decide (S j = calib_num_stable self))
    ∧ (∀ m' j' b, m' ≠ m → motor_at self pos j' st m' b →
                  motor_at self pos j' st' m' b)
    ∧ dict_keys (motor_reached_limit st') = dict_keys (motor_reached_limit st)
    ∧ desired_increment st' = desired_increment st
    ∧ bounds_reported self pos (limits st')
    ∧ dict_keys (limits st') = dict_keys (limits st).
Proof.
  intros Hj Hthr Hat Htable Hst.
  destruct (calib_observe_stalled self pos j st m Hj Hthr Hat Htable)
    as (st' & Hobs & Hpost).
  destruct Hat as (_ & Hr & (x & Hx & Hbuf) & _).
  destruct (seq_item_same_length pos
              (sensed_current r (reads (world r))) (m - 1) x)
    as [y Hy]; [apply Hst | done |].
  exists st', (with_world (after_read (world r)) r).
  split; [|split; [by apply stalled_after_read | exact Hpost]].
  apply dict_item_Ok in Hr, Hbuf.
  unfold calib_sample. rewrite Hr. unfold Ok at 1. cbv iota.
  erewrite rbindR_run by (unfold of_result; rewrite Hbuf; reflexivity).
  erewrite rbindR_run by (unfold of_result; rewrite Hx; reflexivity).
  erewrite rbindR_run by reflexivity.
  erewrite rbindR_run by (unfold of_result; rewrite Hy; reflexivity).
  unfold of_result. by rewrite Hobs.
Qed.

(** One round of samples over the motors of the step. *)
Lemma calib_sample_all_stalled self pos j ids :
  j < calib_num_stable self → (0 ≤ calib_threshold self)%Qc →
  NoDup ids → ∀ st r,
  (∀ m, m ∈ ids → motor_at self pos j st m false) →
  bounds_reported self pos (limits st) →
  stalled pos r →
  ∃ st' r',
    calib_sample_all self pos ids st r = (Returns st', r')
    ∧ stalled pos r'
    ∧ (∀ m, m ∈ ids →
         motor_at self pos (S j) st' m
           (bool_decide (S j = calib_num_stable self)))
    ∧ (∀ m' j' b, m' ∉ ids → motor_at self pos j' st m' b →
                  motor_at self pos j' st' m' b)
    ∧ dict_keys (motor_reached_limit st') = dict_keys (motor_reached_limit st)
    ∧ desired_increment st' = desired_increment st
    ∧ bounds_reported self pos (limits st')
    ∧ dict_keys (limits st') = dict_keys (limits st).
Proof.
  intros Hj Hthr Hnd. induction Hnd as [|m0 ids Hfresh Hnd IH];
    intros st r Hat Htable Hst.
  - exists st, r. split; [done|]. split; [done|].
    split; [|done]. intros m Hin. by apply elem_of_nil in Hin.
  - destruct (calib_sample_stalled self pos j st m0 r Hj Hthr)
      as (st1 & r1 & Hrun1 & Hst1 & Hat1 & Hframe1 & Hk1 & Hinc1 & Htable1
          & Hlk1); [apply Hat; left | done | done |].
    destruct (IH st1 r1) as (st' & r' & Hrun & Hst' & Hat' & Hframe & Hk
                             & Hinc & Htable' & Hlk); [|done|done|].
    { intros m Hin. apply Hframe1; [|apply Hat; by right].
      intros ->. done. }
    exists st', r'. simpl. rewrite (rbindR_run _ _ _ _ _ Hrun1).
    split; [done|]. split; [done|]. split.
    { intros m Hin. apply elem_of_cons in Hin as [->|Hin]; [|by apply Hat'].
      by apply Hframe. }
    split.
    { intros m' j' b Hnotin Hm'. apply not_elem_of_cons in Hnotin as [Hne ?].
      apply Hframe; [done|]. by apply Hframe1. }
    split; [congruence|]. split; [congruence|]. split; [done | congruence].
Qed.

Lemma dict_get_is_Some_keys {K V} `{EqDecision K} (k : K) (d : dict K V) :
  is_Some (dict_get k d) ↔ k ∈ dict_keys d.
Proof.
  rewrite <- not_eq_None_Some, dict_get_None_keys.
  split; [apply dec_stable | by intros ? ?].
Qed.

Lemma plan_increments_returns self dirs items : ∀ incr,
  (∀ m, (m, false) ∈ items → is_Some (dict_get m dirs)) →
  ∃ incr', plan_increments self dirs items incr = Ok incr'.
Proof.
  induction items as [|[m0 reached0] rest IH]; intros incr Hdirs; simpl.
  - by eexists.
  - destruct reached0.
    + apply IH. intros m Hin. apply Hdirs. by right.
    + destruct (Hdirs m0) as [d Hd]; [left|].
      unfold dict_item. rewrite Hd. simpl.
      apply IH. intros m Hin. apply Hdirs. by right.
Qed.

Lemma plan_increments_wf self dirs items : ∀ incr incr',
  plan_increments self dirs items incr = Ok incr' →
  dict_wf incr → dict_wf incr'.
Proof.
  induction items as [|[m0 reached0] rest IH]; intros incr incr'; simpl.
  - by intros [= <-].
  - destruct reached0; [apply IH|].
    intros H Hwf. apply rbind_Ok in H as (d & _ & H).
    eapply IH; [exact H|]. by apply dict_wf_set.
Qed.

Lemma drive_unfold fuel self st :
  drive fuel self st
  = if forallb id (dict_values (motor_reached_limit st)) then rret st
    else
      match fuel with
      | 0 => λ r, (Running, r)
      | S fuel' =>
          (let* incr := of_result (plan_increments self (directions st)
                                (motor_reached_limit st)
                                (desired_increment st)) in
           let* _ := on_world (_set_motor_pos self
                              (PosDict (as_floats incr)) true) in
           let* curr_pos := on_world get_motor_pos in
           let* st' := calib_sample_all self curr_pos (dict_keys incr)
                         (with_increments incr st) in
           drive fuel' self st')%R
      end.
Proof. by destruct fuel. Qed.

Lemma forallb_marks (d : dict Z bool) :
  dict_wf d → (∀ m, m ∈ dict_keys d → dict_get m d = Some true) →
  forallb id (dict_values d) = true.
Proof.
  intros Hwf Hall. apply Is_true_eq_true, forallb_True, Forall_forall.
  intros b Hb.
  apply list_elem_of_fmap in Hb as ([m b'] & -> & Hin). simpl.
  assert (Hm : m ∈ dict_keys d).
  { apply list_elem_of_fmap. by exists (m, b'). }
  apply dict_elem_get in Hin; [|done].
  rewrite (Hall m Hm) in Hin. by injection Hin as <-.
Qed.

Lemma stalled_with_world pos r w :
  stalled pos r → sensed w = sensed (world r) → stalled pos (with_world w r).
Proof. intros [Hs Hc] Hw. split; [|done]. simpl. by rewrite Hw. Qed.

(** The polling loop of a step ends within [calib_num_stable] rounds when
    no motor moves. *)
Lemma drive_stalled self pos :
  0 < calib_num_stable self → (0 ≤ calib_threshold self)%Qc →
  length pos = length (motor_ids self) →
  ∀ k j fuel st r,
    j + k = calib_num_stable self → k ≤ fuel →
    lockstep self pos j st → stalled pos r →
    ∃ st' r',
      drive fuel self st r = (Returns st', r')
      ∧ stalled pos r'
      ∧ bounds_reported self pos (limits st')
      ∧ dict_keys (limits st') = dict_keys (limits st).
Proof.
  intros Hpos Hthr Hlen. induction k as [|k IH];
    intros j fuel st r Hjk Hfuel (Hwf & Hwfi & Hsub & Hat & Htable) Hst;
    rewrite drive_unfold;
    destruct (forallb id (dict_values (motor_reached_limit st))) eqn:Hall;
    try (by exists st, r).
  - rewrite forallb_marks in Hall; [done..|].
    intros m Hm. destruct (Hat m Hm) as (_ & Hmark & _).
    by rewrite bool_decide_true in Hmark by lia.
  - destruct fuel as [|fuel]; [lia|].
    assert (Hfalse : ∀ m, m ∈ dict_keys (motor_reached_limit st) →
              motor_at self pos j st m false).
    { intros m Hm. specialize (Hat m Hm).
      by rewrite bool_decide_false in Hat by lia. }
    destruct (plan_increments_returns self (directions st)
                (motor_reached_limit st) (desired_increment st))
      as [incr Hincr].
    { intros m Hin. apply dict_elem_get in Hin; [|done].
      destruct (Hfalse m) as (_ & _ & _ & [d Hd] & _); [|eauto].
      apply dict_get_is_Some_keys. eauto. }
    pose proof (plan_increments_wf _ _ _ _ _ Hincr Hwfi) as Hwf'.
    pose proof (plan_increments_spec _ _ _ _ _ Hincr Hwf) as Hspec.
    assert (Hids : ∀ m, m ∈ dict_keys incr
                        ↔ m ∈ dict_keys (motor_reached_limit st)).
    { intros m. destruct (Hspec m) as [Hset Hkeep]. split.
      - intros Hin.
        destruct (decide ((m, false) ∈ motor_reached_limit st)) as [Hm|Hm].
        + apply list_elem_of_fmap. by exists (m, false).
        + apply Hsub. apply dict_get_is_Some_keys.
          rewrite <- (Hkeep Hm). by apply dict_get_is_Some_keys.
      - intros Hm. destruct (Hfalse m Hm) as (_ & Hmark & _ & [d Hd] & _).
        apply dict_get_is_Some_keys.
        rewrite (Hset _ (dict_get_Some_elem _ _ _ Hmark) Hd). eauto. }
    destruct (set_motor_pos_relative_dict self incr (world r)) as (v & Hv & _).
    { destruct Hst as [Hs _]. by rewrite Hs. }
    { right.
      assert (Hne : ∃ m, m ∈ dict_keys (motor_reached_limit st)).
      { clear -Hall.
        destruct (motor_reached_limit st) as [|[m b] rest]; [done|].
        exists m. left. }
      destruct Hne as [m Hm].
      exists m. split; [by destruct (Hfalse m Hm)|].
      by apply dict_get_is_Some_keys, Hids. }
    pose proof (stalled_with_world pos r
                  (after_write (motor_ids self) v (after_read (world r)))
                  Hst eq_refl) as Hst1.
    pose proof (stalled_after_read pos _ Hst1) as Hst2.
    destruct (calib_sample_all_stalled self pos j (dict_keys incr)
                ltac:(lia) Hthr Hwf' (with_increments incr st) _
                ltac:(intros m Hm; apply Hfalse, Hids, Hm) Htable Hst2)
      as (st1 & r1 & Hrun & Hst' & Hat1 & _ & Hk1 & Hinc1 & Htable1 & Hlk1).
    destruct (IH (S j) fuel st1 r1) as (st' & r' & Hdrive & Hpost);
      [lia | lia | | done |].
    { split_and!.
      - unfold dict_wf. by rewrite Hk1.
      - by rewrite Hinc1.
      - intros m. rewrite Hinc1, Hk1. apply Hids.
      - intros m Hm. rewrite Hk1 in Hm. apply Hat1. by apply Hids.
      - done. }
    exists st', r'. split; [|].
    + erewrite rbindR_run by (unfold of_result; rewrite Hincr; reflexivity).
      erewrite rbindR_run by (unfold on_world; rewrite Hv; reflexivity).
      rewrite (rbindR_run _ _ _ _ _ (get_motor_pos_run _)).
      destruct Hst1 as [Hs1 _]. rewrite Hs1.
      by rewrite (rbindR_run _ _ _ _ _ Hrun).
    + destruct Hpost as (? & ? & Hk). split_and!; [done..|].
      by rewrite Hk, Hlk1.
Qed.

Lemma elem_of_dict_keys_set {K V} `{EqDecision K} (k k' : K) (v : V) d :
  k' ∈ dict_keys (dict_set k v d) ↔ k' = k ∨ k' ∈ dict_keys d.
Proof.
  rewrite <- !dict_get_is_Some_keys.
  destruct (decide (k' = k)) as [->|Hne].
  - rewrite dict_get_set_eq. split; [by left | eauto].
  - rewrite dict_get_set_ne by done. split; [by right | by intros [?|?]].
Qed.

(** The first loop of a step puts its motors in lockstep. *)
Lemma init_step_stalled self pos table items :
  0 < calib_num_stable self →
  (∀ joint d, (joint, d) ∈ items →
     ∃ m x, dict_get joint (joint_to_motor_map self) = Some m
            ∧ m ∈ motor_ids self
            ∧ seq_item pos (m - 1) = Ok x
            ∧ is_Some (dict_get m (motor_to_joint_map self))
            ∧ is_Some (dict_get m table)) →
  ∀ st, lockstep self pos 0 st → limits st = table →
  ∃ st', init_step self items st = Ok st'
         ∧ lockstep self pos 0 st' ∧ limits st' = table.
Proof.
  intros Hpos. induction items as [|[joint d] rest IH];
    intros Hitems st Hlock Hlim.
  - by exists st.
  - destruct (Hitems joint d) as (m0 & x & Hm0 & Hid & Hx & Hj & Ht); [left|].
    simpl. unfold dict_item. rewrite Hm0. cbn [rbind Ok].
    apply IH; [intros j' d' Hin; apply (Hitems j' d'); by right | | done].
    destruct Hlock as (Hwf & Hwfi & Hsub & Hat & Htable).
    unfold lockstep. cbn [directions position_buffers motor_reached_limit
      desired_increment limits].
    split; [by apply dict_wf_set|]. split; [done|].
    split.
    { intros m Hm. apply elem_of_dict_keys_set. right. by apply Hsub. }
    split; [|done].
    intros m Hm. apply elem_of_dict_keys_set in Hm.
    unfold motor_at. cbn [directions position_buffers motor_reached_limit
      desired_increment limits].
    destruct (decide (m = m0)) as [->|Hne].
    + rewrite !dict_get_set_eq, bool_decide_false by lia.
      split; [done|]. split; [done|]. split; [by exists x|].
      split; [eauto|]. split; [by rewrite Hlim | done].
    + rewrite !dict_get_set_ne by done.
      destruct Hm as [?|Hm]; [done|]. apply (Hat m Hm).
Qed.

Lemma seq_item_in_range {A} (a : list A) m :
  (1 ≤ m ≤ Z.of_nat (length a))%Z → ∃ x, seq_item a (m - 1) = Ok x.
Proof.
  intros Hm. unfold seq_item. rewrite py_index_pos by done.
  destruct (lookup_lt_is_Some_2 a (Z.to_nat (m - 1))) as [x Hx]; [lia|].
  rewrite Hx. eauto.
Qed.

(** What a joint that a step may name has, in an object that can be
    calibrated. *)
Lemma calibratable_joint self joint :
  calibratable self → joint ∈ joint_ids self →
  ∃ m rom,
    dict_get joint (joint_to_motor_map self) = Some m
    ∧ m ∈ motor_ids self
    ∧ dict_get m (motor_to_joint_map self) = Some joint
    ∧ dict_get joint (joint_roms self) = Some rom
    ∧ (rom.1 < rom.2)%Qc.
Proof.
  intros ((Hcount1 & Hcount2 & _ & _ & Hmap & Hroms & _) & Hinv & Hwf & Hnd & _)
    Hin.
  assert (Hkeys : dict_keys (joint_to_motor_map self) ≡ₚ joint_ids self).
  { apply submseteq_length_Permutation.
    - apply NoDup_submseteq; [done|]. intros j Hj.
      apply list_elem_of_fmap in Hj as ([j' m] & -> & Hj).
      by apply (Hmap j' m).
    - unfold dict_keys. rewrite length_fmap. lia. }
  rewrite <- Hkeys in Hin. apply dict_get_is_Some_keys in Hin as [m Hm].
  pose proof (dict_get_Some_elem _ _ _ Hm) as Helem.
  destruct (Hmap joint m Helem) as (_ & Hrom & Hid).
  apply dict_get_is_Some_keys in Hrom as [rom Hrom].
  exists m, rom. split; [done|]. split; [done|].
  split; [by apply Hinv|]. split; [done|].
  by apply (Hroms joint rom), dict_get_Some_elem.
Qed.

Lemma calib_ratios_returns self items : ∀ ratios cj,
  (∀ m lo hi, (m, (Some lo, Some hi)) ∈ items →
     ∃ joint rom, dict_get m (motor_to_joint_map self) = Some joint
                  ∧ dict_get joint (joint_roms self) = Some rom
                  ∧ (rom.2 - rom.1)%Qc ≠ 0%Qc) →
  ∃ res, calib_ratios self items ratios cj = Ok res.
Proof.
  induction items as [|[m0 [[lo0|] [hi0|]]] rest IH]; intros ratios cj Hok;
    simpl; try (apply IH; intros m lo hi Hin; apply (Hok m lo hi); by right).
  - by eexists.
  - destruct (Hok m0 lo0 hi0) as (joint & rom & Hj & Hrom & Hne); [left|].
    unfold dict_item. rewrite Hj. cbn [rbind Ok]. rewrite Hrom.
    cbn [rbind Ok]. rewrite decide_False by done.
    apply IH. intros m lo hi Hin. apply (Hok m lo hi). by right.
Qed.

(** The command that follows the ratio loop, on any object that holds the
    table and the ratios of the loop. *)
Lemma command_after_ratios self self2 table ratios0 ratios' zeroed w :
  maps_inverse self → dict_wf table →
  calib_ratios self table ratios0 [] = Ok (ratios', zeroed) →
  (∀ m limit, (m, limit) ∈ table →
              (1 ≤ m ≤ Z.of_nat (length (motor_ids self)))%Z) →
  length (sensed w (reads w)) = length (motor_ids self) →
  joint_to_motor_map self2 = joint_to_motor_map self →
  motor_limits self2 = table →
  joint_roms self2 = joint_roms self →
  joint_to_motor_ratios self2 = ratios' →
  motor_ids self2 = motor_ids self →
  ∃ v, set_joint_pos self2 zeroed w
       = (Ok tt,
          after_write (motor_ids self) v (after_read (after_read w))).
Proof.
  intros Hinv Hwf Hrun Hrange Hlen Hmap Hlim Hroms Hratios Hids.
  destruct (joint_to_motor_loop_returns self2 zeroed (sensed w (reads w)))
    as [v Hv].
  { intros joint pos Hin.
    destruct (calib_ratios_zeroed_origin _ _ _ _ _ _ _ _ Hrun Hin)
      as [(_ & m & lo & hi & Hm & Hj)|Hnil]; [|by apply elem_of_nil in Hnil].
    destruct (calib_ratios_complete _ _ _ _ _ _ _ _ _ Hrun Hm)
      as (joint' & rom & Hj' & Hrom & _).
    assert (joint' = joint) as -> by congruence.
    destruct (calib_ratios_value _ _ _ _ _ _ m lo hi joint rom
                Hrun Hwf Hm Hj Hrom) as [Hratio _].
    exists m, lo, hi. rewrite Hmap, Hlim, Hroms, Hratios, Hlen.
    split; [by apply Hinv|]. split; [apply (Hrange m _ Hm)|].
    split; [by apply dict_elem_get|]. split; eauto. }
  pose proof (joint_to_motor_loop_length _ _ _ _ Hv) as Hlenv.
  rewrite (set_joint_pos_return _ _ _ _ Hv), Hids.
  rewrite decide_True by congruence. by exists v.
Qed.

Lemma lockstep_start self pos table :
  bounds_reported self pos table → lockstep self pos 0 (step_start table).
Proof.
  intros Htable. unfold lockstep, step_start, dict_wf. simpl.
  split_and!; try done; try apply NoDup_nil_2;
    intros m Hm; by apply elem_of_nil in Hm.
Qed.

(** One step of [calibrate] on a transport that does not move. *)
Lemma calibrate_step_stalled self pos fuel table step r :
  calibratable self →
  length pos = length (motor_ids self) →
  calib_num_stable self ≤ fuel →
  (∀ joint d, (joint, d) ∈ joints step → joint ∈ joint_ids self) →
  dict_wf table →
  (∀ m, m ∈ dict_keys table ↔ m ∈ motor_ids self) →
  bounds_reported self pos table →
  stalled pos r →
  ∃ self' table' zeroed r',
    calibrate_step fuel self table step r
    = (Returns (self', table', zeroed), r')
    ∧ stalled pos r'
    ∧ dict_keys table' = dict_keys table
    ∧ bounds_reported self pos table'
    ∧ ∃ ratios',
        self' = after_step self table' ratios'
        ∧ calib_ratios self table' (joint_to_motor_ratios self) []
          = Ok (ratios', zeroed).
Proof.
  intros Hcal Hlen Hfuel Hstep Hwf Hkeys Htable Hst.
  pose proof Hcal as (Hsane & Hinv & _ & _ & Hrange & Hpos & Hthr).
  destruct (init_step_stalled self pos table (joints step) Hpos)
    with (st := step_start table) as (st0 & Hinit & Hlock0 & Hlim0).
  { intros joint d Hin.
    destruct (calibratable_joint self joint Hcal (Hstep joint d Hin))
      as (m & rom & Hm & Hid & Hj & _).
    destruct (seq_item_in_range pos m) as [x Hx];
      [rewrite Hlen; by apply Hrange|].
    exists m, x. split; [done|]. split; [done|]. split; [done|].
    split; [eauto|].
    by apply dict_get_is_Some_keys, Hkeys. }
  { by apply lockstep_start. }
  { done. }
  destruct (drive_stalled self pos Hpos Hthr Hlen (calib_num_stable self)
              0 fuel st0 r) as (st' & r1 & Hdrive & Hst1 & Htable' & Hk');
    [done..|].
  rewrite Hlim0 in Hk'.
  assert (Hwf' : dict_wf (limits st')) by (unfold dict_wf; by rewrite Hk').
  destruct (calib_ratios_returns self (limits st')
              (joint_to_motor_ratios self) []) as [[ratios' zeroed] Hratios].
  { intros m lo hi Hin. apply dict_elem_get in Hin; [|done].
    destruct (Htable' m (Some lo) (Some hi) lo Hin) as [_ [joint Hj]];
      [by left|].
    assert (Hjm : dict_get joint (joint_to_motor_map self) = Some m)
      by (by apply Hinv).
    destruct Hsane as (_ & _ & _ & _ & Hmap & _).
    destruct (Hmap joint m (dict_get_Some_elem _ _ _ Hjm)) as (Hjid & _).
    destruct (calibratable_joint self joint Hcal Hjid)
      as (m' & rom & _ & _ & _ & Hrom & Hwidth).
    exists joint, rom. split; [done|]. split; [done|].
    intros Hzero. apply Qcminus_pos in Hwidth. rewrite Hzero in Hwidth.
    by apply Qclt_not_eq in Hwidth. }
  set (w1 := world r1).
  set (r2 := with_world
               {| sensed := sensed w1; reads := reads w1;
                  writes := writes w1;
                  calib_file :=
                    dict_set "motor_limits" (YLimits (limits st'))
                      (dict_set "joint_to_motor_ratios" (YRatios ratios')
                         (calib_file w1)) |} r1).
  assert (Hst2 : stalled pos r2) by (by apply stalled_with_world).
  destruct (command_after_ratios self (after_step self (limits st') ratios')
              (limits st') (joint_to_motor_ratios self) ratios' zeroed
              (world r2)) as [v Hv]; try done.
  { intros m limit Hin. apply Hrange, Hkeys. rewrite <- Hk'.
    apply list_elem_of_fmap. by exists (m, limit). }
  { destruct Hst2 as [Hs _]. by rewrite Hs. }
  assert (Hcmd : on_world (set_joint_pos
                             (after_step self (limits st') ratios') zeroed) r2
                 = (Returns tt,
                    with_world (after_write (motor_ids self) v
                                  (after_read (after_read (world r2)))) r2))
    by (unfold on_world; by rewrite Hv).
  eexists _, (limits st'), zeroed, _. split.
  - unfold calibrate_step.
    erewrite rbindR_run by (unfold of_result; rewrite Hinit; reflexivity).
    rewrite (rbindR_run _ _ _ _ _ Hdrive).
    erewrite rbindR_run by (unfold of_result; rewrite Hratios; reflexivity).
    erewrite rbindR_run by reflexivity.
    erewrite rbindR_run by reflexivity.
    erewrite rbindR_run by exact Hcmd.
    reflexivity.
  - split; [by apply stalled_with_world|]. split; [done|].
    split; [done|]. by exists ratios'.
Qed.

(** The steps of [calibrate] on a transport that does not move; the
    object that ran the last step is [selfp]. *)
Lemma calibrate_steps_stalled pos fuel later :
  ∀ step self table cj r,
  calibratable self →
  length pos = length (motor_ids self) →
  calib_num_stable self ≤ fuel →
  (∀ step' joint d, step' ∈ step :: later → (joint, d) ∈ joints step' →
                    joint ∈ joint_ids self) →
  dict_wf table →
  (∀ m, m ∈ dict_keys table ↔ m ∈ motor_ids self) →
  bounds_reported self pos table →
  stalled pos r →
  ∃ selfp table' ratios' zeroed r',
    calibrate_steps fuel self table cj (step :: later) r
    = (Returns (after_step selfp table' ratios', Some zeroed), r')
    ∧ stalled pos r'
    ∧ calibratable selfp
    ∧ length pos = length (motor_ids selfp)
    ∧ max_current selfp = max_current self
    ∧ calib_num_stable selfp = calib_num_stable self
    ∧ dict_wf table'
    ∧ (∀ m, m ∈ dict_keys table' ↔ m ∈ motor_ids selfp)
    ∧ bounds_reported selfp pos table'
    ∧ calib_ratios selfp table' (joint_to_motor_ratios selfp) []
      = Ok (ratios', zeroed).
Proof.
  induction later as [|step2 later IH];
    intros step self table cj r Hcal Hlen Hfuel Hsteps Hwf Hkeys Htable Hst;
    destruct (calibrate_step_stalled self pos fuel table step r)
      as (self1 & table1 & zeroed1 & r1 & Hrun1 & Hst1 & Hk1 & Htable1
          & ratios1 & -> & Hratios1); try done;
    try (intros joint d Hin; apply (Hsteps step joint d); [left | done]);
    assert (Hwf1 : dict_wf table1) by (unfold dict_wf; by rewrite Hk1);
    assert (Hkeys1 : ∀ m, m ∈ dict_keys table1 ↔ m ∈ motor_ids self)
      by (intros m; by rewrite Hk1).
  - exists self, table1, ratios1, zeroed1, r1.
    cbn [calibrate_steps]. rewrite (rbindR_run _ _ _ _ _ Hrun1).
    by cbn [calibrate_steps fst snd].
  - destruct (IH step2 (after_step self table1 ratios1) table1
                (Some zeroed1) r1)
      as (selfp & table' & ratios' & zeroed & r' & Hrun & Hpost);
      try done.
    { intros step' joint d Hin Hj. apply (Hsteps step' joint d); [|done].
      by right. }
    exists selfp, table', ratios', zeroed, r'.
    split; [|exact Hpost].
    change (calibrate_steps fuel self table cj (step :: step2 :: later))
      with (rbindR (calibrate_step fuel self table step)
              (λ done, calibrate_steps fuel done.1.1 done.1.2 (Some done.2)
                         (step2 :: later))).
    by rewrite (rbindR_run _ _ _ _ _ Hrun1).
Qed.

Lemma empty_limits_wf self : dict_wf (empty_limits self).
Proof.
  unfold empty_limits.
  assert (Hgen : ∀ ids (acc : dict Z (option Qc * option Qc)),
            dict_wf acc →
            dict_wf (fold_left (λ acc motor_id,
                                  dict_set motor_id (None, None) acc)
                       ids acc)).
  { induction ids as [|m ids IH]; intros acc Hacc; [done|].
    simpl. apply IH. by apply dict_wf_set. }
  apply Hgen. apply NoDup_nil_2.
Qed.

(** X23.  On a transport whose motors do not move (every read reports
    the same positions), [calibrate] returns for an object with a
    non-empty calibration sequence that passes the sanity checks, with
    inverse maps and motor ids within 1..N: every polling loop ends
    within [calib_num_stable] rounds.  Every bound that the call records
    is the mean of a window filled with the position that the motor
    reports, so the two bounds of a motor driven to both limits are
    equal and its ratio is 0: nothing checks that a motor has moved. *)
Theorem calibrate_returns_on_stalled_transport
    (self : OrcaHand) (pos : list Qc) (fuel : nat) (r : Rig) :
  calibratable self →
  calib_sequence self ≠ [] →
  stalled pos r →
  length pos = length (motor_ids self) →
  calib_num_stable self ≤ fuel →
  ∃ self' r',
    calibrate fuel self r = (Returns self', r')
    ∧ (∀ m lo hi v, dict_get m (motor_limits self') = Some (lo, hi) →
         lo = Some v ∨ hi = Some v →
         ∃ x, seq_item pos (m - 1) = Ok x
              ∧ v = np_mean (replicate (calib_num_stable self) x))
    ∧ (∀ m lo hi, dict_get m (motor_limits self') = Some (Some lo, Some hi) →
         lo = hi
         ∧ dict_get m (joint_to_motor_ratios self') = Some 0%Qc).
Proof.
  intros Hcal Hseq Hst Hlen Hfuel.
  destruct (calib_sequence self) as [|step later] eqn:Hsteps; [done|].
  pose proof Hcal as ((_ & _ & _ & _ & _ & _ & Hjoints) & _).
  set (r3 := sent [TorqueEnabled (motor_ids self) true]
              (sent [DesiredCurrent (motor_ids self)
                       (replicate (length (motor_ids self))
                          (Qc_of_Z (calib_current self)))]
                 (sent [OperatingMode (motor_ids self) 5] r))).
  assert (Hst3 : stalled pos r3) by done.
  destruct (calibrate_steps_stalled pos fuel later step self
              (empty_limits self) None r3)
    as (selfp & table' & ratios' & zeroed & r4 & Hrun & Hst4 & Hcalp & Hlenp
        & Hmax & Hnum & Hwf' & Hkeys' & Htable' & Hratios); try done.
  { intros step' joint d Hin Hj.
    apply (Hjoints step' joint d); [by rewrite Hsteps | done]. }
  { apply empty_limits_wf. }
  { apply empty_limits_keys. }
  { intros m lo hi x Hget Hx.
    assert (Hm : m ∈ motor_ids self).
    { apply empty_limits_keys, dict_get_is_Some_keys. eauto. }
    rewrite (empty_limits_get self m Hm) in Hget. injection Hget as <- <-.
    by destruct Hx. }
  pose proof Hcalp as (_ & Hinvp & _ & _ & Hrangep & _).
  set (self' := set_calibrated
                  (is_calibrated (after_step selfp table' ratios'))
                  (after_step selfp table' ratios')).
  set (r5 := with_world
               {| sensed := sensed (world r4); reads := reads (world r4);
                  writes := writes (world r4);
                  calib_file :=
                    dict_set "calibrated" (YBool (calibrated self'))
                      (calib_file (world r4)) |} r4).
  assert (Hst5 : stalled pos r5) by (by apply stalled_with_world).
  destruct (command_after_ratios selfp self' table'
              (joint_to_motor_ratios selfp) ratios' zeroed (world r5))
    as [v Hv]; try done.
  { intros m limit Hin. apply Hrangep, Hkeys'.
    apply list_elem_of_fmap. by exists (m, limit). }
  { destruct Hst5 as [Hs _]. by rewrite Hs. }
  assert (Hcmd : on_world (set_joint_pos self' zeroed) r5
                 = (Returns tt,
                    with_world (after_write (motor_ids selfp) v
                                  (after_read (after_read (world r5)))) r5))
    by (unfold on_world; by rewrite Hv).
  exists self'. eexists. split.
  - unfold calibrate.
    erewrite rbindR_run by reflexivity.
    erewrite rbindR_run by reflexivity.
    erewrite rbindR_run by reflexivity.
    rewrite Hsteps.
    erewrite rbindR_run by exact Hrun.
    erewrite rbindR_run by reflexivity.
    erewrite rbindR_run by reflexivity.
    erewrite rbindR_run by exact Hcmd.
    erewrite rbindR_run by reflexivity.
    reflexivity.
  - split.
    + intros m lo hi b Hget Hb. rewrite <- Hnum.
      by destruct (Htable' m lo hi b Hget Hb).
    + intros m lo hi Hget. cbn in Hget.
      destruct (Htable' m (Some lo) (Some hi) lo Hget) as [(x & Hx & Hlo) _];
        [by left|].
      destruct (Htable' m (Some lo) (Some hi) hi Hget) as [(y & Hy & Hhi) _];
        [by right|].
      assert (lo = hi) as ->.
      { rewrite Hx in Hy. unfold Ok in Hy. injection Hy as ->. congruence. }
      split; [done|].
      apply dict_get_Some_elem in Hget.
      destruct (calib_ratios_complete _ _ _ _ _ _ _ _ _ Hratios Hget)
        as (joint & rom & Hj & Hrom & _).
      destruct (calib_ratios_value _ _ _ _ _ _ m hi hi joint rom
                  Hratios Hwf' Hget Hj Hrom) as [Hratio _].
      cbn. rewrite Hratio. f_equal. unfold Qcdiv. ring.
Qed.

Lemma calibrate_returns_on_stalled_transport_witness :
  ∃ self' r',
    calibrate 5 demo_hand demo_rig = (Returns self', r')
    ∧ ∀ m lo hi,
        dict_get m (motor_limits self') = Some (Some lo, Some hi) →
        lo = hi ∧ dict_get m (joint_to_motor_ratios self') = Some 0%Qc.
Proof.
  assert (Hcal : calibratable demo_hand).
  { split; [exact demo_hand_sane|]. split; [exact demo_hand_maps_inverse|].
    split; [exact demo_hand_map_wf|].
    split; [apply (bool_decide_unpack _); reflexivity|].
    split.
    - intros m Hin.
      apply elem_of_cons in Hin as [->|Hin]; [simpl; lia|].
      apply list_elem_of_singleton in Hin as ->. simpl. lia.
    - split; [simpl; lia|]. apply (bool_decide_unpack _). reflexivity. }
  assert (Hst : stalled [Q2Qc 0.25; Q2Qc 0.5] demo_rig) by (by split).
  destruct (calibrate_returns_on_stalled_transport demo_hand
              [Q2Qc 0.25; Q2Qc 0.5] 5 demo_rig Hcal)
    as (self' & r' & Hrun & _ & Hzero);
    [discriminate | exact Hst | reflexivity | simpl; lia |].
  exists self', r'. split; [exact Hrun | exact Hzero].
Defined.

(** * The indexing precondition *)











(** *** A hand that tells the places apart *)













(** Ids that are a permutation of 1, 2 stay in bounds and exchange the two
    motors: an absolute move that mentions nobody commands each motor to
    the other's position. *)
Example permuted_ids_swap_motors :
  dict_positions [] false [Q2Qc 0.25; Q2Qc 0.5] [2; 1]%Z
  = Ok [PyFloat (Q2Qc 0.5); PyFloat (Q2Qc 0.25)].
Proof. reflexivity. Qed.

(** Ids that do not count from 1 leave the vector. *)
Example sparse_ids_leave_the_vector :
  dict_positions [] false [Q2Qc 0.25; Q2Qc 0.5] [5; 7]%Z = Raise IndexError.
Proof. reflexivity. Qed.

(** Id 0 in last place is reached through Python's negative subscript, yet
    [enumerate] still calls that place motor 2. *)
Example zero_id_wraps_around :
  subscript_hits_own_slot [1; 0]%Z ∧ ¬ enumerate_names_own_motor [1; 0]%Z.
Proof.
  split.
  - intros [|[|i]] m Hi; simpl in Hi; simplify_eq; reflexivity.
  - intros Henum. specialize (Henum 1 0%Z eq_refl). lia.
Qed.
